(** * learn-cfop: the move engine, the playback controller and the progress store

    A shallow embedding of the JavaScript sources

      - MoveParser.js      (Move, MoveParser)
      - CubeModel.js       (CubeModel, EDGE_CYCLES, MIDDLE_CYCLES)
      - CubeAnimator.js    (CubeAnimator)
      - CubeController.js  (CubeController)
      - ProgressTracker.js (ProgressTracker)

    Conventions of the embedding.

      - A JavaScript exception (a TypeError on a lookup that yields
        [undefined]) is the [None] of the option monad.
      - Text is a [string] of 8-bit characters, each standing for one UTF-16
        code unit below 256.  [toUpperCase] and [toLowerCase] act on the
        letters a-z and A-Z; the parser only compares the result with the
        six ASCII face letters, so other characters are skipped either way.
      - Numbers that carry time (timestamps, durations) and ratios are
        rationals [Q]; every finite double is one.  The quotient
        [300 / speed] that [setSpeed] stores is rounded to the nearest double
        ([nearest_double]).  At speed 0 JavaScript computes an infinite
        duration where [Q] has [300 / 0 = 0]; the quotient
        [elapsed / duration] is 0 in both, so the frame test agrees.  A
        quotient beyond the largest double, also [Infinity] in JavaScript,
        stays finite in the model and above every double.  The difference
        and the quotient of the frame test and the ratio of [getProgress]
        are taken exactly where JavaScript rounds each to a double; for the
        frame test this matters only when the elapsed time is within a few
        units in the last place of the duration.  Counters and array indices
        are [nat]: the source only increments them, or decrements them
        behind a [> 0] guard.
      - An array is a [list]; a read past the end yields [Undefined], a
        write past the end extends the array, as JavaScript does.
      - The Three.js renderer (meshes, materials, camera) is not modelled:
        no operation of the embedded classes reads anything back from it
        that influences the logical state. *)

From Stdlib Require Import ZArith QArith Qminmax Qround Qabs Qpower Lqa Ascii String.
From stdpp Require Import base option list strings gmap.

Close Scope Q_scope.
Open Scope string_scope.

(** ** Characters and strings *)

Definition code (c : ascii) : nat := nat_of_ascii c.

(** [raw >= 'a' && raw <= 'z'] on a one-character string. *)
Definition is_lower (c : ascii) : bool :=
  (97 <=? code c)%nat && (code c <=? 122)%nat.

Definition is_upper (c : ascii) : bool :=
  (65 <=? code c)%nat && (code c <=? 90)%nat.

Definition upper_char (c : ascii) : ascii :=
  if is_lower c then ascii_of_nat (code c - 32) else c.

Definition lower_char (c : ascii) : ascii :=
  if is_upper c then ascii_of_nat (code c + 32) else c.

Fixpoint toUpperCase (s : string) : string :=
  match s with
  | EmptyString => EmptyString
  | String c r => String (upper_char c) (toUpperCase r)
  end.

Fixpoint toLowerCase (s : string) : string :=
  match s with
  | EmptyString => EmptyString
  | String c r => String (lower_char c) (toLowerCase r)
  end.

(** The characters matched by [\s] and removed by [trim()], below 256:
    tab, line feed, vertical tab, form feed, carriage return, space and
    the no-break space. *)
Definition is_ws (c : ascii) : bool :=
  let n := code c in
  ((9 <=? n)%nat && (n <=? 13)%nat) || (n =? 32)%nat || (n =? 160)%nat.

Fixpoint trimStart (s : string) : string :=
  match s with
  | EmptyString => EmptyString
  | String c r => if is_ws c then trimStart r else s
  end.

Fixpoint trimEnd (s : string) : string :=
  match s with
  | EmptyString => EmptyString
  | String c r =>
      match trimEnd r with
      | EmptyString => if is_ws c then EmptyString else String c EmptyString
      | r' => String c r'
      end
  end.

Definition trim (s : string) : string := trimEnd (trimStart s).

(** [s.split(/\s+/)]: [split_go in_ws s] returns the pieces of [s], the
    first of which continues the piece being read; [in_ws] tells that the
    character before [s] belonged to a separator. *)
Fixpoint split_go (in_ws : bool) (s : string) : list string :=
  match s with
  | EmptyString => [EmptyString]
  | String c r =>
      if is_ws c then
        if in_ws then split_go true r else EmptyString :: split_go true r
      else
        match split_go false r with
        | t :: ts => String c t :: ts
        | [] => [String c EmptyString]
        end
  end.

Definition split_ws (s : string) : list string := split_go false s.

(** [parts.join(sep)] *)
Fixpoint str_join (sep : string) (parts : list string) : string :=
  match parts with
  | [] => EmptyString
  | [p] => p
  | p :: ps => p ++ sep ++ str_join sep ps
  end.

(** ** MoveParser.js *)

Definition FACES : list string := ["R"; "L"; "U"; "D"; "F"; "B"].

(** [FACES.includes(ch)] *)
Definition includes (xs : list string) (x : string) : bool :=
  existsb (String.eqb x) xs.

Record AxisInfo := mkAxisInfo { ai_axis : string; ai_layer : Z; ai_dir : Z }.

Definition AXIS_MAP (f : string) : option AxisInfo :=
  if String.eqb f "R" then Some (mkAxisInfo "x" 1 (-1))
  else if String.eqb f "L" then Some (mkAxisInfo "x" (-1) 1)
  else if String.eqb f "U" then Some (mkAxisInfo "y" 1 (-1))
  else if String.eqb f "D" then Some (mkAxisInfo "y" (-1) 1)
  else if String.eqb f "F" then Some (mkAxisInfo "z" 1 (-1))
  else if String.eqb f "B" then Some (mkAxisInfo "z" (-1) 1)
  else None.

(** The two values the [angle] field takes: [Math.PI] and [Math.PI / 2]. *)
Inductive Angle := PI | HALF_PI.

Record Move := mkMove {
  face : string;
  prime : bool;
  double : bool;
  wide : bool;
  axis : string;
  layer : Z;
  direction : Z;
  angle : Angle
}.

(** [new Move(face, prime, double, wide)]; reading [info.axis] throws when
    [AXIS_MAP] has no entry for the upper-cased face. *)
Definition Move_new (f : string) (p d w : bool) : option Move :=
  let f' := toUpperCase f in
  info ← AXIS_MAP f';
  Some {| face := f'; prime := p; double := d; wide := w;
          axis := ai_axis info; layer := ai_layer info;
          direction := if p then (- ai_dir info)%Z else ai_dir info;
          angle := if d then PI else HALF_PI |}.

Definition Move_toString (m : Move) : string :=
  let f := if wide m then toLowerCase (face m) else face m in
  f ++ (if double m then "2" else "") ++ (if prime m then "'" else "").

Definition Move_inverse (m : Move) : option Move :=
  if double m then Move_new (face m) false true (wide m)
  else Move_new (face m) (negb (prime m)) false (wide m).

Module MoveParser.

(** The [while (i < token.length)] loop over one token.  The argument is
    the part of the token from index [i] on; a face letter followed by a
    modifier consumes two characters, anything else one. *)
Fixpoint scan (token : string) : option (list Move) :=
  match token with
  | EmptyString => Some []
  | String raw rest =>
      let ch := String (upper_char raw) EmptyString in
      if negb (includes FACES ch) then scan rest
      else
        let w := is_lower raw in
        match rest with
        | String next rest' =>
            if Ascii.eqb next "'" then
              m ← Move_new ch true false w; ms ← scan rest'; Some (m :: ms)
            else if Ascii.eqb next "2" then
              m ← Move_new ch false true w; ms ← scan rest'; Some (m :: ms)
            else
              m ← Move_new ch false false w; ms ← scan rest; Some (m :: ms)
        | EmptyString =>
            m ← Move_new ch false false w; ms ← scan rest; Some (m :: ms)
        end
  end.

(** [for (const token of tokens)], all tokens pushing to one array. *)
Fixpoint scan_tokens (tokens : list string) : option (list Move) :=
  match tokens with
  | [] => Some []
  | t :: ts => ms ← scan t; ms' ← scan_tokens ts; Some (ms ++ ms')%list
  end.

Definition parse (algorithm : string) : option (list Move) :=
  if String.eqb algorithm "" || String.eqb (trim algorithm) "" then Some []
  else scan_tokens (split_ws (trim algorithm)).

(** [MoveParser.inverse] applied to a list of moves. *)
Definition inverse_moves (ms : list Move) : option (list Move) :=
  reverse <$> mapM Move_inverse ms.

(** [MoveParser.inverse]: a string argument is parsed first. *)
Definition inverse (algorithm : string + list Move) : option (list Move) :=
  match algorithm with
  | inl text => ms ← parse text; inverse_moves ms
  | inr ms => inverse_moves ms
  end.

Definition toString (ms : list Move) : string :=
  str_join " " (map Move_toString ms).

End MoveParser.

(** ** CubeModel.js *)

(** What a facelet slot can hold: a colour name, or [undefined] when it is
    read past the end of an array. *)
Inductive value := Undefined | Str (s : string).

Definition value_eqb (a b : value) : bool :=
  match a, b with
  | Undefined, Undefined => true
  | Str s, Str t => String.eqb s t
  | _, _ => false
  end.

Definition COLORS (name : string) : value :=
  if String.eqb name "U" then Str "white"
  else if String.eqb name "D" then Str "yellow"
  else if String.eqb name "F" then Str "green"
  else if String.eqb name "B" then Str "blue"
  else if String.eqb name "R" then Str "red"
  else if String.eqb name "L" then Str "orange"
  else Undefined.

Definition FACE_NAMES : list string := ["U"; "D"; "F"; "B"; "R"; "L"].

(** The [faces] object.  [reset()] is the only code that creates it and it
    creates exactly the six keys of [FACE_NAMES]; every other access reads a
    key, so the object is a record of six arrays and a read under any other
    key is [undefined]. *)
Record Faces := mkFaces {
  face_U : list value;
  face_D : list value;
  face_F : list value;
  face_B : list value;
  face_R : list value;
  face_L : list value
}.

(** [this.faces[name]] *)
Definition faces_get (fs : Faces) (name : string) : option (list value) :=
  if String.eqb name "U" then Some (face_U fs)
  else if String.eqb name "D" then Some (face_D fs)
  else if String.eqb name "F" then Some (face_F fs)
  else if String.eqb name "B" then Some (face_B fs)
  else if String.eqb name "R" then Some (face_R fs)
  else if String.eqb name "L" then Some (face_L fs)
  else None.

(** The array stored under [name] replaced by [a]: the effect of mutating
    that array in place.  Only called after [faces_get] succeeded. *)
Definition faces_put (fs : Faces) (name : string) (a : list value) : Faces :=
  if String.eqb name "U" then mkFaces a (face_D fs) (face_F fs) (face_B fs) (face_R fs) (face_L fs)
  else if String.eqb name "D" then mkFaces (face_U fs) a (face_F fs) (face_B fs) (face_R fs) (face_L fs)
  else if String.eqb name "F" then mkFaces (face_U fs) (face_D fs) a (face_B fs) (face_R fs) (face_L fs)
  else if String.eqb name "B" then mkFaces (face_U fs) (face_D fs) (face_F fs) a (face_R fs) (face_L fs)
  else if String.eqb name "R" then mkFaces (face_U fs) (face_D fs) (face_F fs) (face_B fs) a (face_L fs)
  else if String.eqb name "L" then mkFaces (face_U fs) (face_D fs) (face_F fs) (face_B fs) (face_R fs) a
  else fs.

(** [a[i]] *)
Definition aget (a : list value) (i : nat) : value := default Undefined (a !! i).

(** [a[i] = v] *)
Definition aset (a : list value) (i : nat) (v : value) : list value :=
  if (i <? length a)%nat then <[i:=v]> a
  else (a ++ replicate (i - length a) Undefined ++ [v])%list.

(** A sticker position [[face, idx]] and a strip of them. *)
Definition Pos : Type := string * nat.
Definition Strip : Type := list Pos.

(** [this.faces[face][idx]]; indexing [undefined] throws. *)
Definition read (fs : Faces) (p : Pos) : option value :=
  a ← faces_get fs p.1; Some (aget a p.2).

(** [this.faces[face][idx] = v] *)
Definition write (fs : Faces) (p : Pos) (v : value) : option Faces :=
  a ← faces_get fs p.1; Some (faces_put fs p.1 (aset a p.2 v)).

(** [f[i] = temp[s]] for each pair [(i, s)], in order. *)
Definition assign (temp : list value) (pairs : list (nat * nat)) (f : list value) : list value :=
  fold_left (fun f p => aset f p.1 (aget temp p.2)) pairs f.

(** The three face rotations share their shape: [const f = this.faces[name];
    const temp = [...f];] followed by nine assignments. *)
Definition rotate (pairs : list (nat * nat)) (faceName : string) (fs : Faces) : option Faces :=
  f ← faces_get fs faceName;
  let temp := f in
  Some (faces_put fs faceName (assign temp pairs f)).

Definition _rotateFaceCW : string → Faces → option Faces :=
  rotate [(0, 6); (1, 3); (2, 0); (3, 7); (4, 4); (5, 1); (6, 8); (7, 5); (8, 2)]%nat.

Definition _rotateFaceCCW : string → Faces → option Faces :=
  rotate [(0, 2); (1, 5); (2, 8); (3, 1); (4, 4); (5, 7); (6, 0); (7, 3); (8, 6)]%nat.

Definition _rotateFace180 : string → Faces → option Faces :=
  rotate [(0, 8); (1, 7); (2, 6); (3, 5); (4, 4); (5, 3); (6, 2); (7, 1); (8, 0)]%nat.

(** The inner loop of [_cycle4]: for each [j], the slot [dst[j]] receives the
    current content of the slot [src[j]].  Destructuring [src[j]] throws when
    [src] is shorter than [dst]. *)
Fixpoint copy_strip (dst src : Strip) (fs : Faces) : option Faces :=
  match dst with
  | [] => Some fs
  | d :: dst' =>
      match src with
      | [] => None
      | s :: src' => v ← read fs s; fs' ← write fs d v; copy_strip dst' src' fs'
      end
  end.

(** The last loop of [_cycle4]: [strips[0][j]] receives [temp[j]]. *)
Fixpoint store_strip (dst : Strip) (temp : list value) (j : nat) (fs : Faces) : option Faces :=
  match dst with
  | [] => Some fs
  | d :: dst' => fs' ← write fs d (aget temp j); store_strip dst' temp (S j) fs'
  end.

Definition _cycle4 (strips : list Strip) (fs : Faces) : option Faces :=
  s3 ← strips !! 3%nat;
  temp ← mapM (read fs) s3;
  s2 ← strips !! 2%nat;
  fs ← copy_strip s3 s2 fs;
  s1 ← strips !! 1%nat;
  fs ← copy_strip s2 s1 fs;
  s0 ← strips !! 0%nat;
  fs ← copy_strip s1 s0 fs;
  store_strip s0 temp 0 fs.

Definition EDGE_CYCLES (f : string) : option (list Strip) :=
  if String.eqb f "R" then Some
    [ [("F", 2); ("F", 5); ("F", 8)];
      [("U", 8); ("U", 5); ("U", 2)];
      [("B", 6); ("B", 3); ("B", 0)];
      [("D", 8); ("D", 5); ("D", 2)] ]%nat
  else if String.eqb f "L" then Some
    [ [("F", 0); ("F", 3); ("F", 6)];
      [("D", 6); ("D", 3); ("D", 0)];
      [("B", 8); ("B", 5); ("B", 2)];
      [("U", 6); ("U", 3); ("U", 0)] ]%nat
  else if String.eqb f "U" then Some
    [ [("F", 0); ("F", 1); ("F", 2)];
      [("L", 0); ("L", 1); ("L", 2)];
      [("B", 0); ("B", 1); ("B", 2)];
      [("R", 0); ("R", 1); ("R", 2)] ]%nat
  else if String.eqb f "D" then Some
    [ [("F", 6); ("F", 7); ("F", 8)];
      [("R", 6); ("R", 7); ("R", 8)];
      [("B", 6); ("B", 7); ("B", 8)];
      [("L", 6); ("L", 7); ("L", 8)] ]%nat
  else if String.eqb f "F" then Some
    [ [("U", 0); ("U", 1); ("U", 2)];
      [("R", 0); ("R", 3); ("R", 6)];
      [("D", 8); ("D", 7); ("D", 6)];
      [("L", 8); ("L", 5); ("L", 2)] ]%nat
  else if String.eqb f "B" then Some
    [ [("U", 6); ("U", 7); ("U", 8)];
      [("L", 6); ("L", 3); ("L", 0)];
      [("D", 2); ("D", 1); ("D", 0)];
      [("R", 2); ("R", 5); ("R", 8)] ]%nat
  else None.

Definition MIDDLE_CYCLES (f : string) : option (list Strip) :=
  if String.eqb f "R" then Some
    [ [("D", 1); ("D", 4); ("D", 7)];
      [("F", 7); ("F", 4); ("F", 1)];
      [("U", 1); ("U", 4); ("U", 7)];
      [("B", 1); ("B", 4); ("B", 7)] ]%nat
  else if String.eqb f "L" then Some
    [ [("D", 1); ("D", 4); ("D", 7)];
      [("B", 1); ("B", 4); ("B", 7)];
      [("U", 1); ("U", 4); ("U", 7)];
      [("F", 7); ("F", 4); ("F", 1)] ]%nat
  else if String.eqb f "U" then Some
    [ [("L", 3); ("L", 4); ("L", 5)];
      [("B", 3); ("B", 4); ("B", 5)];
      [("R", 3); ("R", 4); ("R", 5)];
      [("F", 3); ("F", 4); ("F", 5)] ]%nat
  else if String.eqb f "D" then Some
    [ [("L", 3); ("L", 4); ("L", 5)];
      [("F", 3); ("F", 4); ("F", 5)];
      [("R", 3); ("R", 4); ("R", 5)];
      [("B", 3); ("B", 4); ("B", 5)] ]%nat
  else if String.eqb f "F" then Some
    [ [("L", 1); ("L", 4); ("L", 7)];
      [("U", 5); ("U", 4); ("U", 3)];
      [("R", 7); ("R", 4); ("R", 1)];
      [("D", 3); ("D", 4); ("D", 5)] ]%nat
  else if String.eqb f "B" then Some
    [ [("L", 1); ("L", 4); ("L", 7)];
      [("D", 3); ("D", 4); ("D", 5)];
      [("R", 7); ("R", 4); ("R", 1)];
      [("U", 5); ("U", 4); ("U", 3)] ]%nat
  else None.

(** [for (let t = 0; t < times; t++) body] *)
Fixpoint times_do (times : nat) (body : Faces → option Faces) (fs : Faces) : option Faces :=
  match times with
  | O => Some fs
  | S n => fs' ← body fs; times_do n body fs'
  end.

(** [_cycle4(undefined)] throws on [strips[3]]. *)
Definition _applyEdgeCycle (f : string) (times : nat) (fs : Faces) : option Faces :=
  times_do times (fun fs => cycles ← EDGE_CYCLES f; _cycle4 cycles fs) fs.

Definition _applyMiddleCycle (f : string) (times : nat) (fs : Faces) : option Faces :=
  match MIDDLE_CYCLES f with
  | None => Some fs
  | Some cycles => times_do times (_cycle4 cycles) fs
  end.

(** The facelet part of [applyMove]. *)
Definition turn (m : Move) (fs : Faces) : option Faces :=
  let f := face m in
  if double m then
    fs ← _rotateFace180 f fs;
    fs ← _applyEdgeCycle f 2 fs;
    if wide m then _applyMiddleCycle f 2 fs else Some fs
  else if negb (prime m) then
    fs ← _rotateFaceCW f fs;
    fs ← _applyEdgeCycle f 1 fs;
    if wide m then _applyMiddleCycle f 1 fs else Some fs
  else
    fs ← _rotateFaceCCW f fs;
    fs ← _applyEdgeCycle f 3 fs;
    if wide m then _applyMiddleCycle f 3 fs else Some fs.

Record CubeModel := mkCubeModel {
  faces : Faces;
  history : list Move
}.

Module CubeModel.

Definition solved : Faces :=
  mkFaces (replicate 9 (COLORS "U")) (replicate 9 (COLORS "D"))
          (replicate 9 (COLORS "F")) (replicate 9 (COLORS "B"))
          (replicate 9 (COLORS "R")) (replicate 9 (COLORS "L")).

Definition reset (cm : CubeModel) : CubeModel := mkCubeModel solved [].

(** [new CubeModel()] *)
Definition new : CubeModel := reset (mkCubeModel solved []).

(** [clone()]: a new model with copies of the six arrays. *)
Definition clone (cm : CubeModel) : CubeModel := mkCubeModel (faces cm) [].

Definition applyMove (m : Move) (recordHistory : bool) (cm : CubeModel) : option CubeModel :=
  let h := if recordHistory then (history cm ++ [m])%list else history cm in
  fs ← turn m (faces cm);
  Some (mkCubeModel fs h).

Fixpoint applyMoves (ms : list Move) (recordHistory : bool) (cm : CubeModel) : option CubeModel :=
  match ms with
  | [] => Some cm
  | m :: ms' => cm' ← applyMove m recordHistory cm; applyMoves ms' recordHistory cm'
  end.

(** [undo()]: the result pairs the new state with the returned move,
    [None] standing for the [null] returned on an empty history. *)
Definition undo (cm : CubeModel) : option (CubeModel * option Move) :=
  match reverse (history cm) with
  | [] => Some (cm, None)
  | m :: rest =>
      inv ← Move_inverse m;
      cm' ← applyMove inv false (mkCubeModel (faces cm) (reverse rest));
      Some (cm', Some m)
  end.

(** [for (const name of FACE_NAMES)] with its early [return false]. *)
Fixpoint isSolved_from (names : list string) (fs : Faces) : option bool :=
  match names with
  | [] => Some true
  | name :: rest =>
      f ← faces_get fs name;
      if forallb (fun c => value_eqb c (aget f 0)) f then isSolved_from rest fs
      else Some false
  end.

Definition isSolved (cm : CubeModel) : option bool :=
  isSolved_from FACE_NAMES (faces cm).

Definition getFaceColor (faceName : string) (index : nat) (cm : CubeModel) : option value :=
  read (faces cm) (faceName, index).

End CubeModel.

(** A 6x9 facelet grid. *)
Definition grid6x9 (fs : Faces) : Prop :=
  length (face_U fs) = 9%nat ∧ length (face_D fs) = 9%nat ∧
  length (face_F fs) = 9%nat ∧ length (face_B fs) = 9%nat ∧
  length (face_R fs) = 9%nat ∧ length (face_L fs) = 9%nat.

(** ** Numbers *)

(** The integer nearest to [k], the even one of two that are equally near. *)
Definition nearest_even (k : Q) : Z :=
  let f := Qfloor k in
  match (k - inject_Z f ?= 1 # 2)%Q with
  | Lt => f
  | Gt => (f + 1)%Z
  | Eq => if Z.even f then f else (f + 1)%Z
  end.

(** For a positive [q], the exponent [e] with [2 ^ e <= q < 2 ^ (e + 1)]. *)
Definition binade (q : Q) : Z :=
  let e := (Z.log2 (Qnum q) - Z.log2 (Zpos (Qden q)) - 1)%Z in
  if Qle_bool (2 ^ (e + 1)) q then (e + 1)%Z else e.

(** The double nearest to [q], as JavaScript's arithmetic delivers it for an
    exact result [q]: 53 bits of mantissa, ties to the even mantissa,
    exponents from -1022 up (below that the doubles are equally spaced).
    Exponents are not bounded above: where JavaScript has [Infinity] the
    model has a number above every double. *)
Definition nearest_double (q : Q) : Q :=
  let a := Qabs q in
  if Qeq_bool a 0 then 0%Q
  else
    let s := (Z.max (binade a) (-1022) - 52)%Z in
    let v := (inject_Z (nearest_even (a / 2 ^ s)) * 2 ^ s)%Q in
    Qred (if Qle_bool 0 q then v else (- v)%Q).

(** ** CubeAnimator.js *)

(** The code that waits for the promise returned by [animateMove]; calling
    the promise's [resolve] lets it continue.  There are three [await]s on
    such a promise in the controller: in the loop of [play] and in
    [stepForward] (both through [_executeStep]) and in [stepBackward]. *)
Inductive Continuation := K_play | K_stepForward | K_stepBackward.

(** An entry [{ move, resolve }] of the animator's queue. *)
Record Request := mkRequest {
  req_move : Move;
  req_resolve : Continuation
}.

(** The closure [animate] that [_startAnimation] hands to
    [requestAnimationFrame], with the variables it captured. *)
Record Animation := mkAnimation {
  anim_move : Move;
  anim_resolve : Continuation;
  startTime : Q
}.

Record CubeAnimator := mkCubeAnimator {
  isAnimating : bool;
  _queue : list Request;
  _currentResolve : option Continuation;
  duration : Q
}.

Module CubeAnimator.

Definition new : CubeAnimator := mkCubeAnimator false [] None 300%Q.

(** [this.duration = 300 / speed], a division of doubles. *)
Definition setSpeed (speed : Q) (a : CubeAnimator) : CubeAnimator :=
  mkCubeAnimator (isAnimating a) (_queue a) (_currentResolve a)
    (nearest_double (300 / speed)).

Definition clearQueue (a : CubeAnimator) : CubeAnimator :=
  mkCubeAnimator (isAnimating a) [] (_currentResolve a) (duration a).

(** [_startAnimation]: the second component is the frame callback it
    requests; [now] is the reading of [performance.now()]. *)
Definition _startAnimation (now : Q) (m : Move) (resolve : Continuation)
    (a : CubeAnimator) : CubeAnimator * Animation :=
  (mkCubeAnimator true (_queue a) (Some resolve) (duration a),
   mkAnimation m resolve now).

(** [animateMove]: the promise's executor either queues the request or
    starts the animation; the frame callback requested, if any, is
    returned. *)
Definition animateMove (now : Q) (m : Move) (resolve : Continuation)
    (a : CubeAnimator) : CubeAnimator * option Animation :=
  if isAnimating a then
    (mkCubeAnimator (isAnimating a) (_queue a ++ [mkRequest m resolve])%list
                    (_currentResolve a) (duration a), None)
  else
    let (a', cb) := _startAnimation now m resolve a in (a', Some cb).

(** [t = Math.min(elapsed / this.duration, 1)], with the duration read
    when the frame runs. *)
Definition progress (a : CubeAnimator) (cb : Animation) (now : Q) : Q :=
  Qmin ((now - startTime cb) / duration a) 1.

(** The [else] branch of the frame callback: the animation is over, its
    promise is resolved and the next queued request, if any, is started;
    the clock that request reads is taken to show the frame's time. *)
Definition complete (now : Q) (cb : Animation) (a : CubeAnimator)
    : CubeAnimator * option Animation :=
  let a := mkCubeAnimator false (_queue a) (_currentResolve a) (duration a) in
  match _queue a with
  | [] => (a, None)
  | next :: rest =>
      let a := mkCubeAnimator (isAnimating a) rest (_currentResolve a) (duration a) in
      let (a', cb') := _startAnimation now (req_move next) (req_resolve next) a in
      (a', Some cb')
  end.

(** One run of the frame callback [animate(now)].  The result is the
    animator, the frame callback pending afterwards and the continuation
    whose promise was resolved, if the animation ended. *)
Definition animate (now : Q) (cb : Animation) (a : CubeAnimator)
    : CubeAnimator * option Animation * option Continuation :=
  if negb (Qle_bool 1 (progress a cb now)) then (a, Some cb, None)
  else let (a', next) := complete now cb a in (a', next, Some (anim_resolve cb)).

End CubeAnimator.

(** ** CubeController.js *)

(** A call of the observer callbacks. *)
Inductive Notification :=
  | StepChange (current total : nat)
  | PlayStateChange (playing : bool).

(** The controller.  [onStepChange] and [onPlayStateChange] tell whether a
    callback is registered ([true]) or the field is [null]; a registered
    callback records its arguments in the log of the world. *)
Record CubeController := mkCubeController {
  model : CubeModel;
  animator : CubeAnimator;
  moves : list Move;
  setupMoves : list Move;
  currentStep : nat;
  isPlaying : bool;
  _playAbort : bool;
  onStepChange : bool;
  onPlayStateChange : bool
}.

(** The controller together with what the browser holds for it: the
    pending [requestAnimationFrame] callback and the notifications the
    observers received so far, oldest first. *)
Record World := mkWorld {
  ctl : CubeController;
  raf : option Animation;
  log : list Notification
}.

Definition set_model (cm : CubeModel) (c : CubeController) : CubeController :=
  mkCubeController cm (animator c) (moves c) (setupMoves c) (currentStep c)
    (isPlaying c) (_playAbort c) (onStepChange c) (onPlayStateChange c).

Definition set_animator (a : CubeAnimator) (c : CubeController) : CubeController :=
  mkCubeController (model c) a (moves c) (setupMoves c) (currentStep c)
    (isPlaying c) (_playAbort c) (onStepChange c) (onPlayStateChange c).

Definition set_algorithm (ms sm : list Move) (c : CubeController) : CubeController :=
  mkCubeController (model c) (animator c) ms sm (currentStep c)
    (isPlaying c) (_playAbort c) (onStepChange c) (onPlayStateChange c).

Definition set_currentStep (n : nat) (c : CubeController) : CubeController :=
  mkCubeController (model c) (animator c) (moves c) (setupMoves c) n
    (isPlaying c) (_playAbort c) (onStepChange c) (onPlayStateChange c).

Definition set_isPlaying (b : bool) (c : CubeController) : CubeController :=
  mkCubeController (model c) (animator c) (moves c) (setupMoves c) (currentStep c)
    b (_playAbort c) (onStepChange c) (onPlayStateChange c).

Definition set_playAbort (b : bool) (c : CubeController) : CubeController :=
  mkCubeController (model c) (animator c) (moves c) (setupMoves c) (currentStep c)
    (isPlaying c) b (onStepChange c) (onPlayStateChange c).

Definition set_callbacks (onStep onPlayState : bool) (c : CubeController) : CubeController :=
  mkCubeController (model c) (animator c) (moves c) (setupMoves c) (currentStep c)
    (isPlaying c) (_playAbort c) onStep onPlayState.

Definition on_ctl (f : CubeController → CubeController) (w : World) : World :=
  mkWorld (f (ctl w)) (raf w) (log w).

Module CubeController.

(** [new CubeController(container)] *)
Definition new : World :=
  mkWorld (mkCubeController CubeModel.new CubeAnimator.new [] [] 0 false false false false)
          None [].

Definition _notifyStep (w : World) : World :=
  if onStepChange (ctl w) then
    mkWorld (ctl w) (raf w)
      (log w ++ [StepChange (currentStep (ctl w)) (length (moves (ctl w)))])%list
  else w.

Definition _notifyPlayState (w : World) : World :=
  if onPlayStateChange (ctl w) then
    mkWorld (ctl w) (raf w) (log w ++ [PlayStateChange (isPlaying (ctl w))])%list
  else w.

Definition pause (w : World) : World :=
  let w := on_ctl (set_playAbort true) w in
  let w := on_ctl (set_isPlaying false) w in
  _notifyPlayState w.

Definition clearQueue (w : World) : World :=
  on_ctl (fun c => set_animator (CubeAnimator.clearQueue (animator c)) c) w.

(** [this.model.reset(); if (this.setupMoves.length > 0)
    this.model.applyMoves(this.setupMoves, false);] *)
Definition reset_model (w : World) : option World :=
  let cm := CubeModel.reset (model (ctl w)) in
  cm ← (if (0 <? length (setupMoves (ctl w)))%nat
        then CubeModel.applyMoves (setupMoves (ctl w)) false cm
        else Some cm);
  Some (on_ctl (set_model cm) w).

Definition loadAlgorithm (algorithm setup : string) (w : World) : option World :=
  let w := pause w in
  let w := clearQueue w in
  ms ← MoveParser.parse algorithm;
  sm ← (if String.eqb setup "" then Some [] else MoveParser.parse setup);
  let w := on_ctl (set_algorithm ms sm) w in
  let w := on_ctl (set_currentStep 0) w in
  w ← reset_model w;
  Some (_notifyStep w).

Definition reset (w : World) : option World :=
  let w := pause w in
  let w := clearQueue w in
  let w := on_ctl (set_currentStep 0) w in
  w ← reset_model w;
  Some (_notifyStep w).

(** [this.animator.animateMove(move)], awaited by [resolve]. *)
Definition animateMove (now : Q) (m : Move) (resolve : Continuation) (w : World) : World :=
  let (a, cb) := CubeAnimator.animateMove now m resolve (animator (ctl w)) in
  mkWorld (set_animator a (ctl w)) (if cb is Some _ then cb else raf w) (log w).

(** [_executeStep(move)] up to its [await]; [resolve] is the caller that
    awaits [_executeStep], which has nothing left to do itself. *)
Definition _executeStep (now : Q) (m : Move) (resolve : Continuation) (w : World) : option World :=
  cm ← CubeModel.applyMove m false (model (ctl w));
  Some (animateMove now m resolve (on_ctl (set_model cm) w)).

(** The [while] loop of [play] from its test: either one more step is
    started, and the loop is suspended on its [await], or the loop is
    left and [play] finishes. *)
Definition play_loop (now : Q) (w : World) : option World :=
  let c := ctl w in
  if (currentStep c <? length (moves c))%nat && negb (_playAbort c) then
    m ← moves c !! currentStep c;
    _executeStep now m K_play w
  else
    Some (_notifyPlayState (on_ctl (set_isPlaying false) w)).

Definition play (now : Q) (w : World) : option World :=
  if isPlaying (ctl w) then Some w
  else
    w ← (if (length (moves (ctl w)) <=? currentStep (ctl w))%nat then reset w else Some w);
    let w := on_ctl (set_isPlaying true) w in
    let w := on_ctl (set_playAbort false) w in
    let w := _notifyPlayState w in
    play_loop now w.

Definition togglePlay (now : Q) (w : World) : option World :=
  if isPlaying (ctl w) then Some (pause w) else play now w.

Definition stepForward (now : Q) (w : World) : option World :=
  let c := ctl w in
  if isPlaying c || isAnimating (animator c) then Some w
  else if (length (moves c) <=? currentStep c)%nat then Some w
  else
    m ← moves c !! currentStep c;
    _executeStep now m K_stepForward w.

Definition stepBackward (now : Q) (w : World) : option World :=
  let c := ctl w in
  if isPlaying c || isAnimating (animator c) then Some w
  else if (currentStep c <=? 0)%nat then Some w
  else
    let w := on_ctl (set_currentStep (currentStep c - 1)) w in
    m ← moves (ctl w) !! currentStep (ctl w);
    inv ← Move_inverse m;
    cm ← CubeModel.applyMove inv false (model (ctl w));
    Some (animateMove now inv K_stepBackward (on_ctl (set_model cm) w)).

Definition setSpeed (speed : Q) (w : World) : World :=
  on_ctl (fun c => set_animator (CubeAnimator.setSpeed speed (animator c)) c) w.

Definition dispose (w : World) : World := pause w.

(** The code after an [await] on an animation's promise. *)
Definition resume (now : Q) (k : Continuation) (w : World) : option World :=
  match k with
  | K_play =>
      let w := on_ctl (fun c => set_currentStep (currentStep c + 1) c) w in
      play_loop now (_notifyStep w)
  | K_stepForward =>
      let w := on_ctl (fun c => set_currentStep (currentStep c + 1) c) w in
      Some (_notifyStep w)
  | K_stepBackward => Some (_notifyStep w)
  end.

End CubeController.

(** ** The event loop *)

(** What can happen to a controller: a call of one of its public methods,
    an assignment to its callback fields, or the browser running the
    pending frame callback. *)
Inductive Event :=
  | Call_loadAlgorithm (algorithm setup : string)
  | Call_play
  | Call_pause
  | Call_togglePlay
  | Call_stepForward
  | Call_stepBackward
  | Call_reset
  | Call_setSpeed (speed : Q)
  | Set_callbacks (onStep onPlayState : bool)
  | AnimationFrame.

(** The pending frame callback runs; when it resolves the animation's
    promise, the code awaiting it continues before anything else happens. *)
Definition on_frame (now : Q) (w : World) : option World :=
  match raf w with
  | None => Some w
  | Some cb =>
      let '(a, next, k) := CubeAnimator.animate now cb (animator (ctl w)) in
      let w := mkWorld (set_animator a (ctl w)) next (log w) in
      match k with
      | None => Some w
      | Some k => CubeController.resume now k w
      end
  end.

(** One task of the event loop, run at time [now] up to the point where
    all the code it triggers is suspended or finished. *)
Definition step (now : Q) (e : Event) (w : World) : option World :=
  match e with
  | Call_loadAlgorithm algorithm setup => CubeController.loadAlgorithm algorithm setup w
  | Call_play => CubeController.play now w
  | Call_pause => Some (CubeController.pause w)
  | Call_togglePlay => CubeController.togglePlay now w
  | Call_stepForward => CubeController.stepForward now w
  | Call_stepBackward => CubeController.stepBackward now w
  | Call_reset => CubeController.reset w
  | Call_setSpeed speed => Some (CubeController.setSpeed speed w)
  | Set_callbacks onStep onPlayState => Some (on_ctl (set_callbacks onStep onPlayState) w)
  | AnimationFrame => on_frame now w
  end.

Fixpoint run (evs : list (Q * Event)) (w : World) : option World :=
  match evs with
  | [] => Some w
  | (now, e) :: evs' => w' ← step now e w; run evs' w'
  end.

(** ** ProgressTracker.js *)

(** The values [JSON.parse] can return. *)
#[local] Unset Elimination Schemes.
Inductive jsval :=
  | JNull
  | JBool (b : bool)
  | JNum (q : Q)
  | JStr (s : string)
  | JArr (items : list jsval)
  | JObj (props : gmap string jsval).
#[local] Set Elimination Schemes.

(** JavaScript's conversion to a boolean. *)
Definition truthy (v : jsval) : bool :=
  match v with
  | JNull => false
  | JBool b => b
  | JNum q => negb (Qeq_bool q 0)
  | JStr s => negb (String.eqb s "")
  | JArr _ => true
  | JObj _ => true
  end.

(** The properties every plain object inherits from [Object.prototype]:
    eleven functions and the accessor [__proto__], which yields the
    prototype object.  All twelve values are truthy. *)
Definition Object_prototype : list string :=
  [ "constructor"; "hasOwnProperty"; "isPrototypeOf"; "propertyIsEnumerable";
    "toLocaleString"; "toString"; "valueOf"; "__proto__";
    "__defineGetter__"; "__defineSetter__"; "__lookupGetter__"; "__lookupSetter__" ].

Definition STORAGE_KEY : string := "learn-cfop-progress".

Module ProgressTracker.
Section Host.

(** [JSON.parse] on a string, [None] when it throws a SyntaxError. *)
Variable JSON_parse : string → option jsval.

(** Whether [v[id]] is truthy for a value [v] that is not a plain object
    (an array, a string, a number or a boolean): decided by the host's
    built-in prototypes. *)
Variable builtin_truthy : jsval → string → bool.

(** Whether [data[id]] is truthy.  On a plain object the own property
    decides when there is one, the prototype otherwise. *)
Definition has_truthy (data : jsval) (id : string) : bool :=
  match data with
  | JObj props =>
      match props !! id with
      | Some v => truthy v
      | None => includes Object_prototype id
      end
  | _ => builtin_truthy data id
  end.

(** [JSON.parse(localStorage.getItem(STORAGE_KEY))]: [getItem] returns
    [null] for a missing key, which [JSON.parse] reads as the text
    [null].  [None] is an exception inside the [try] block. *)
Definition parse_item (localStorage : gmap string string) : option jsval :=
  match localStorage !! STORAGE_KEY with
  | None => Some JNull
  | Some text => JSON_parse text
  end.

Definition _getAll (localStorage : gmap string string) : jsval :=
  match parse_item localStorage with
  | Some v => if truthy v then v else JObj ∅
  | None => JObj ∅
  end.

Definition isCompleted (id : string) (localStorage : gmap string string) : bool :=
  has_truthy (_getAll localStorage) id.

Definition countCompleted (ids : list string) (localStorage : gmap string string) : nat :=
  let data := _getAll localStorage in
  length (List.filter (fun id => has_truthy data id) ids).

Definition getProgress (ids : list string) (localStorage : gmap string string) : Q :=
  if (length ids =? 0)%nat then 0%Q
  else (inject_Z (Z.of_nat (countCompleted ids localStorage))
        / inject_Z (Z.of_nat (length ids)))%Q.

End Host.
End ProgressTracker.

(** * Vocabulary of the properties *)

(** ** Parser *)

(** The descriptors the parser builds: a known face, at most one modifier. *)
Definition parser_move (m : Move) : Prop :=
  ∃ f p d w, In f FACES ∧ p && d = false ∧ Move_new f p d w = Some m.

Fixpoint no_ws (s : string) : bool :=
  match s with
  | EmptyString => true
  | String c r => negb (is_ws c) && no_ws r
  end.

(** A token as [Move.toString] prints it: not empty, no white space. *)
Definition clean (s : string) : bool := no_ws s && negb (String.eqb s "").

Definition starts_clean (s : string) : bool :=
  match s with
  | EmptyString => false
  | String c _ => negb (is_ws c)
  end.

Fixpoint ends_clean (s : string) : bool :=
  match s with
  | EmptyString => false
  | String c EmptyString => negb (is_ws c)
  | String _ r => ends_clean r
  end.

(** The first piece of a split continued to the left by [t]. *)
Definition prepend (t : string) (pieces : list string) : list string :=
  match pieces with
  | [] => [t]
  | h :: tl => (t ++ h) :: tl
  end.


(** Text made only of face letters, the two modifiers and white space. *)
Definition grammar_char (c : ascii) : bool :=
  includes FACES (String (upper_char c) EmptyString)
  || Ascii.eqb c "'" || Ascii.eqb c "2" || is_ws c.

Fixpoint grammar_text (s : string) : bool :=
  match s with
  | EmptyString => true
  | String c r => grammar_char c && grammar_text r
  end.

(** ** Grids *)

(** A grid whose 54 slots hold the values of [v], face by face in the order
    of [FACE_NAMES]; used to state examples on a grid without two equal
    facelets. *)
Definition labelled (v : nat → value) : Faces :=
  mkFaces (map v (seq 0 9)) (map v (seq 9 9)) (map v (seq 18 9))
          (map v (seq 27 9)) (map v (seq 36 9)) (map v (seq 45 9)).

Definition sticker (n : nat) : value :=
  Str (String (ascii_of_nat (48 + n / 10)) (String (ascii_of_nat (48 + n mod 10)) EmptyString)).

(** ** Controller *)

(** The model the cursor stands for: the setup moves and then the first [k]
    moves of the algorithm, applied in order to a solved cube. *)
Definition expected (setup ms : list Move) (k : nat) : option CubeModel :=
  CubeModel.applyMoves (setup ++ take k ms) false CubeModel.new.

Definition grid (w : World) : Faces := faces (model (ctl w)).
Definition cursor (w : World) : nat := currentStep (ctl w).
Definition animating (w : World) : bool := isAnimating (animator (ctl w)).

(** The facelet grid of [w] is the one [k] moves into the algorithm. *)
Definition grid_at (k : nat) (w : World) : Prop :=
  faces <$> expected (setupMoves (ctl w)) (moves (ctl w)) k = Some (grid w).

(** The discipline under which the cursor and the grid stay in step: an
    operation that resets or starts playback is not issued while an animation
    is in flight.  [play] is harmless while playing (a no-op), [togglePlay]
    is then [pause]. *)
Definition allowed (e : Event) (w : World) : bool :=
  match e with
  | Call_loadAlgorithm _ _ | Call_reset => negb (animating w)
  | Call_play | Call_togglePlay => isPlaying (ctl w) || negb (animating w)
  | _ => true
  end.

(** Every event of the run is allowed in the state it meets. *)
Fixpoint disciplined (evs : list (Q * Event)) (w : World) : bool :=
  match evs with
  | [] => true
  | (now, e) :: evs' =>
      allowed e w &&
      match step now e w with
      | Some w' => disciplined evs' w'
      | None => true
      end
  end.

(** What the discipline maintains. *)
Definition Inv (w : World) : Prop :=
  let c := ctl w in
  Forall parser_move (moves c) ∧ Forall parser_move (setupMoves c) ∧
  (currentStep c ≤ length (moves c))%nat ∧
  _queue (animator c) = [] ∧
  match raf w with
  | None =>
      isAnimating (animator c) = false ∧
      expected (setupMoves c) (moves c) (currentStep c) = Some (model c)
  | Some cb =>
      isAnimating (animator c) = true ∧
      match anim_resolve cb with
      | K_stepBackward =>
          expected (setupMoves c) (moves c) (currentStep c) = Some (model c)
      | _ =>
          (currentStep c < length (moves c))%nat ∧
          expected (setupMoves c) (moves c) (S (currentStep c)) = Some (model c)
      end
  end.

(** Nothing is playing, animating or queued. *)
Definition idle (w : World) : Prop :=
  isPlaying (ctl w) = false ∧ animating w = false ∧
  _queue (animator (ctl w)) = [] ∧ raf w = None.

(** Both observer callbacks are registered. *)
Definition observed (w : World) : Prop :=
  onStepChange (ctl w) = true ∧ onPlayStateChange (ctl w) = true.

(** Animation frames at the times [ts], nothing in between. *)
Definition frames (ts : list Q) : list (Q * Event) :=
  map (λ t, (t, AnimationFrame)) ts.

Definition is_step (n : Notification) : bool :=
  match n with StepChange _ _ => true | _ => false end.

Definition is_stopped (n : Notification) : bool :=
  match n with PlayStateChange false => true | _ => false end.

(** The notifications [w] has received beyond those of [w0]. *)
Definition since (w0 w : World) : list Notification :=
  drop (length (log w0)) (log w).

Definition step_notifications (l : list Notification) : nat :=
  length (List.filter is_step l).

Definition stopped_notifications (l : list Notification) : nat :=
  length (List.filter is_stopped l).

(** The notifications of an uninterrupted [play] over [n] moves. *)
Definition play_log (n : nat) : list Notification :=
  (PlayStateChange true :: map (λ i, StepChange i n) (seq 1 n)
   ++ [PlayStateChange false])%list.

(** The world once the animation in flight has ended and nothing was
    queued behind it, before the code awaiting it continues. *)
Definition ended (w : World) : World :=
  let a := animator (ctl w) in
  mkWorld (set_animator (mkCubeAnimator false [] (_currentResolve a) (duration a)) (ctl w))
          None (log w).

(** [play] is in its loop, [k] steps done, the next one being animated. *)
Definition playing_at (w0 : World) (k : nat) (w : World) : Prop :=
  let c0 := ctl w0 in
  ∃ cb cm,
    anim_resolve cb = K_play ∧ grid6x9 (faces cm) ∧
    (k < length (moves c0))%nat ∧
    w = mkWorld
          (mkCubeController cm
             (mkCubeAnimator true [] (Some K_play) (duration (animator c0)))
             (moves c0) (setupMoves c0) k true false true true)
          (Some cb)
          (log w0 ++ PlayStateChange true
             :: map (λ i, StepChange i (length (moves c0))) (seq 1 k))%list.

(** [play] has left its loop at the end of the algorithm. *)
Definition played (w0 : World) (w : World) : Prop :=
  let c0 := ctl w0 in
  ∃ cm,
    w = mkWorld
          (mkCubeController cm
             (mkCubeAnimator false [] (Some K_play) (duration (animator c0)))
             (moves c0) (setupMoves c0) (length (moves c0)) false false true true)
          None
          (log w0 ++ play_log (length (moves c0)))%list.

(** A controller with both callbacks registered and ["R U R' U'"] loaded
    after the setup ["F2 d"]. *)
Definition loaded_world : World := Eval vm_compute in
    default CubeController.new
      (run [ (0%Q, Set_callbacks true true);
             (0%Q, Call_loadAlgorithm "R U R' U'" "F2 d") ] CubeController.new).

(** The same controller with the cursor on the third move. *)
Definition midway_world : World := Eval vm_compute in
    default CubeController.new
      (run [ (0%Q, Call_stepForward); (300%Q, AnimationFrame);
             (300%Q, Call_stepForward); (600%Q, AnimationFrame) ] loaded_world).

(** A single step is being animated for the caller [k]: the model is [cm],
    the cursor [c]; the algorithm, the flags and the speed are those of
    [w0]. *)
Definition stepping (k : Continuation) (cm : CubeModel) (c : nat) (w0 w : World) : Prop :=
  let c0 := ctl w0 in
  ∃ cb lg,
    anim_resolve cb = k ∧
    w = mkWorld
          (mkCubeController cm
             (mkCubeAnimator true [] (Some k) (duration (animator c0)))
             (moves c0) (setupMoves c0) c false (_playAbort c0)
             (onStepChange c0) (onPlayStateChange c0))
          (Some cb) lg.

(** No step is in flight: the model is [cm], the cursor [c]. *)
Definition settled (cm : CubeModel) (c : nat) (w0 w : World) : Prop :=
  let c0 := ctl w0 in
  ∃ cr lg,
    w = mkWorld
          (mkCubeController cm
             (mkCubeAnimator false [] cr (duration (animator c0)))
             (moves c0) (setupMoves c0) c false (_playAbort c0)
             (onStepChange c0) (onPlayStateChange c0))
          None lg.

(** The cursor once the step awaited by [k] is over. *)
Definition cursor_after (k : Continuation) (c : nat) : nat :=
  match k with
  | K_stepBackward => c
  | _ => S c
  end.






(** * More of the sources: vocabulary *)

(** ** Parser *)

(** [c] is one of the face letters, in either case. *)
Definition is_face_letter (c : ascii) : bool :=
  includes FACES (String (upper_char c) EmptyString).

(** [c] is one of the two modifier characters. *)
Definition is_modifier (c : ascii) : bool :=
  Ascii.eqb c "'" || Ascii.eqb c "2".

(** The number of face letters in [s]. *)
Fixpoint count_faces (s : string) : nat :=
  match s with
  | EmptyString => 0
  | String c r => (if is_face_letter c then 1 else 0) + count_faces r
  end.

Fixpoint all_ws (s : string) : bool :=
  match s with
  | EmptyString => true
  | String c r => is_ws c && all_ws r
  end.

(** The moves of [o1] followed by those of [o2], an exception in either
    being one of the whole. *)
Definition then_moves (o1 o2 : option (list Move)) : option (list Move) :=
  ms ← o1; ms' ← o2; Some (ms ++ ms')%list.

(** ** Moves *)

(** Two faces turn about the same axis. *)
Definition same_axis (f g : string) : Prop :=
  ai_axis <$> AXIS_MAP f = ai_axis <$> AXIS_MAP g.

(** [undo()] called [n] times, with the moves it returned, first undone
    first; a call on an empty history returns nothing and is left out. *)
Fixpoint undo_times (n : nat) (cm : CubeModel) : option (CubeModel * list Move) :=
  match n with
  | O => Some (cm, [])
  | S n' =>
      r ← CubeModel.undo cm;
      r' ← undo_times n' r.1;
      Some (r'.1, (match r.2 with Some m => [m] | None => [] end ++ r'.2)%list)
  end.

(** ** Grids as lists *)

(** The 54 facelets of a grid, face by face in the order of [FACE_NAMES]. *)
Definition stickers (fs : Faces) : list value :=
  (face_U fs ++ face_D fs ++ face_F fs ++ face_B fs ++ face_R fs ++ face_L fs)%list.

(** The number a [sticker] label stands for. *)
Definition sticker_index (v : value) : nat :=
  match v with
  | Str (String a (String b EmptyString)) => (code a - 48) * 10 + (code b - 48)
  | _ => 0
  end.

(** Where each facelet comes from when [m] is applied: slot [i] of the
    result holds what slot [move_source m !!! i] held before. *)
Definition move_source (m : Move) : list nat :=
  match turn m (labelled sticker) with
  | Some fs => map sticker_index (stickers fs)
  | None => []
  end.

(** The list whose slot [i] holds slot [p !!! i] of [l]. *)
Definition pick (l : list value) (p : list nat) : list value :=
  map (λ i, nth i l Undefined) p.

(** * CubeRenderer.js and the geometry of a move *)

(** A lattice point or direction [(x, y, z)]. *)
Definition Vec : Type := (Z * Z * Z)%type.

Open Scope Z_scope.

Module CubeRenderer.

(** [_posToIndex(face, x, y, z)] *)
Definition _posToIndex (f : string) (p : Vec) : Z :=
let '(x, y, z) := p in
if String.eqb f "U" then (1 - z) * 3 + (x + 1)
else if String.eqb f "D" then (z + 1) * 3 + (x + 1)
else if String.eqb f "F" then (1 - y) * 3 + (x + 1)
else if String.eqb f "B" then (1 - y) * 3 + (1 - x)
else if String.eqb f "R" then (1 - y) * 3 + (1 - z)
else if String.eqb f "L" then (1 - y) * 3 + (z + 1)
else 0.

(** The face [updateColors] finds for a sticker from its rounded world
  normal; [None] when [faceName] stays [undefined]. *)
Definition normal_face (n : Vec) : option string :=
let '(nx, ny, nz) := n in
if (nx =? 1) then Some "R"
else if (nx =? -1) then Some "L"
else if (ny =? 1) then Some "U"
else if (ny =? -1) then Some "D"
else if (nz =? 1) then Some "F"
else if (nz =? -1) then Some "B"
else None.

(** The positions [_buildCubies] gives the 26 cubies, in its order. *)
Definition cubies : list Vec :=
List.filter (λ p, negb (let '(x, y, z) := p in (x =? 0) && (y =? 0) && (z =? 0)))
  (x ← [-1; 0; 1]; y ← [-1; 0; 1]; z ← [-1; 0; 1]; [(x, y, z)]).

(** The normals of the stickers [_createCubie] puts on the cubie at [p]. *)
Definition sticker_normals (p : Vec) : list Vec :=
let '(x, y, z) := p in
((if (x =? 1) then [(1, 0, 0)] else []) ++
 (if (x =? -1) then [(-1, 0, 0)] else []) ++
 (if (y =? 1) then [(0, 1, 0)] else []) ++
 (if (y =? -1) then [(0, -1, 0)] else []) ++
 (if (z =? 1) then [(0, 0, 1)] else []) ++
 (if (z =? -1) then [(0, 0, -1)] else []))%list.

(** The coordinate [pos[axis]]; [None] for a name that is no axis. *)
Definition coordinate (ax : string) (p : Vec) : option Z :=
let '(x, y, z) := p in
if String.eqb ax "x" then Some x
else if String.eqb ax "y" then Some y
else if String.eqb ax "z" then Some z
else None.

(** The test of [getCubiesInLayer(axis, layer)] on a cubie at [p]. *)
Definition in_layer (ax : string) (l : Z) (p : Vec) : bool :=
match coordinate ax p with
| Some v => (v =? l)
| None => false
end.

(** The face and index [updateColors] passes to [getFaceColor] for the
  sticker with normal [n] on the cubie at [p]. *)
Definition slot (p n : Vec) : option (string * Z) :=
f ← normal_face n; Some (f, _posToIndex f p).

End CubeRenderer.

(** The stickers of the cube: a cubie position and an outward normal. *)
Definition sites : list (Vec * Vec) :=
  p ← CubeRenderer.cubies; n ← CubeRenderer.sticker_normals p; [(p, n)].

(** The cubies [_startAnimation] gathers for [m]: the layer of the face and,
    for a wide move, the middle layer. *)
Definition gathered (m : Move) (p : Vec) : bool :=
  CubeRenderer.in_layer (axis m) (layer m) p
  || (wide m && CubeRenderer.in_layer (axis m) 0 p).

(** A rotation by a quarter turn about a coordinate axis, counter-clockwise
    for an eye on the positive half of the axis looking at the origin: what
    [setRotationFromAxisAngle(axis, Math.PI / 2)] does to a lattice point
    once [Math.round] has snapped it, and to a unit normal. *)
Definition quarter (ax : string) (v : Vec) : Vec :=
  let '(x, y, z) := v in
  if String.eqb ax "x" then (x, - z, y)
  else if String.eqb ax "y" then (z, y, - x)
  else if String.eqb ax "z" then (- y, x, z)
  else v.

(** The number of such quarter turns in [targetAngle = direction * angle],
    modulo 4. *)
Definition quarters (m : Move) : nat :=
  Z.to_nat ((direction m * match angle m with PI => 2 | HALF_PI => 1 end) mod 4).

Close Scope Z_scope.

(** Where the animation of [m] carries the point or direction [v] of a
    gathered cubie. *)
Definition carried (m : Move) (v : Vec) : Vec :=
  Nat.iter (quarters m) (quarter (axis m)) v.

(** The sticker at position [p] with normal [n] after the animation of [m]. *)
Definition animated (m : Move) (s : Vec * Vec) : Vec * Vec :=
  if gathered m s.1 then (carried m s.1, carried m s.2) else s.

(** [a[i]] for an index that may be negative. *)
Definition aget_Z (a : list value) (i : Z) : value :=
  if (i <? 0)%Z then Undefined else aget a (Z.to_nat i).

(** The value [updateColors] would fetch from the model for a sticker:
    [cubeModel.getFaceColor(faceName, index)], nothing when [faceName] is
    [undefined]. *)
Definition shown (fs : Faces) (s : Vec * Vec) : option value :=
  sl ← CubeRenderer.slot s.1 s.2;
  a ← faces_get fs sl.1;
  Some (aget_Z a sl.2).

(** All the slots of a grid. *)
Definition all_slots : list (string * Z) :=
  f ← FACE_NAMES; i ← [0; 1; 2; 3; 4; 5; 6; 7; 8]%Z; [(f, i)].

(** The outer stickers of the face [m] turns: those whose normal is the
    face's, the centre (whose cubie sits at the normal) apart. *)
Definition ring (m : Move) (s : Vec * Vec) : bool :=
  bool_decide (CubeRenderer.normal_face s.2 = Some (face m))
  && negb (bool_decide (s.1 = s.2)).

(** The stickers on which a quarter turn of [U] or [D] is at odds with its
    animation. *)
Definition reversed (m : Move) (s : Vec * Vec) : bool :=
  (String.eqb (face m) "U" || String.eqb (face m) "D")
  && negb (double m) && ring m s.

(** The stickers after the animations of [ms], one after the other. *)
Definition animated_all (ms : list Move) (s : Vec * Vec) : Vec * Vec :=
  foldl (λ s m, animated m s) s ms.

(** The moves whose animation the model follows on every sticker: half
    turns, and the turns of the four faces other than [U] and [D]. *)
Definition sideways (m : Move) : bool :=
  double m || negb (String.eqb (face m) "U" || String.eqb (face m) "D").

(** ** The animator on its own *)

(** What can happen to an animator: a caller asks for a move to be animated
    and awaits the promise, the queue is cleared, or the browser runs the
    pending frame callback. *)
Inductive AnimatorEvent :=
  | Ask (m : Move) (resolve : Continuation)
  | Clear
  | Frame.

(** The animator and the frame callback the browser holds for it. *)
Definition Stage : Type := (CubeAnimator * option Animation)%type.

(** One event at time [now]; the second component is the request whose
    promise the event resolved, if any. *)
Definition animator_step (now : Q) (e : AnimatorEvent) (s : Stage)
    : Stage * option Request :=
  match e with
  | Ask m k =>
      let (a, cb) := CubeAnimator.animateMove now m k s.1 in
      ((a, if cb is Some _ then cb else s.2), None)
  | Clear => ((CubeAnimator.clearQueue s.1, s.2), None)
  | Frame =>
      match s.2 with
      | None => (s, None)
      | Some cb =>
          let '(a, next, k) := CubeAnimator.animate now cb s.1 in
          ((a, next), mkRequest (anim_move cb) <$> k)
      end
  end.

(** A run of events, with the requests resolved, first resolved first. *)
Fixpoint animator_run (evs : list (Q * AnimatorEvent)) (s : Stage)
    : Stage * list Request :=
  match evs with
  | [] => (s, [])
  | (now, e) :: evs' =>
      let (s1, r) := animator_step now e s in
      let (s2, rs) := animator_run evs' s1 in
      (s2, (match r with Some r => [r] | None => [] end ++ rs)%list)
  end.

(** The request being animated. *)
Definition in_flight (s : Stage) : list Request :=
  match s.2 with
  | Some cb => [mkRequest (anim_move cb) (anim_resolve cb)]
  | None => []
  end.

(** The requests not yet resolved, oldest first. *)
Definition backlog (s : Stage) : list Request :=
  (in_flight s ++ _queue s.1)%list.

(** The requests made in a run, in order. *)
Definition asked (evs : list (Q * AnimatorEvent)) : list Request :=
  flat_map (λ e, match e.2 with Ask m k => [mkRequest m k] | _ => [] end) evs.

Definition is_Clear (e : Q * AnimatorEvent) : bool :=
  match e.2 with Clear => true | _ => false end.

(** [isAnimating] tells whether a frame callback is pending, and requests
    wait only behind an animation; so it is for a new animator. *)
Definition coherent (s : Stage) : Prop :=
  match s.2 with
  | Some _ => isAnimating s.1 = true
  | None => isAnimating s.1 = false ∧ _queue s.1 = []
  end.

(** ** More of the controller *)

(** What a callback that may be registered adds to the log. *)
Definition notified (registered : bool) (n : Notification) : list Notification :=
  if registered then [n] else [].

(** The world [loadAlgorithm] and [reset] leave behind on [w]: the algorithm
    [ms] with setup [sm], the model [cm], the cursor at 0, playback stopped
    and the queue empty; the frame callback, [isAnimating], the speed and
    the callbacks are those of [w]. *)
Definition rewound (ms sm : list Move) (cm : CubeModel) (w : World) : World :=
  let c := ctl w in
  let a := animator c in
  mkWorld
    (mkCubeController cm
       (mkCubeAnimator (isAnimating a) [] (_currentResolve a) (duration a))
       ms sm 0 false true (onStepChange c) (onPlayStateChange c))
    (raf w)
    (log w ++ notified (onPlayStateChange c) (PlayStateChange false)
           ++ notified (onStepChange c) (StepChange 0 (length ms)))%list.

(** The loaded controller just after [play()] was called at time 10: the
    first move is applied and being animated. *)
Definition playing_world : World := Eval vm_compute in
    default CubeController.new (run [ (10%Q, Call_play) ] loaded_world).

(** ** ProgressTracker.js: writing *)

Module ProgressWriter.
Section Host.

Variable JSON_parse : string → option jsval.

(** [JSON.stringify] on a value [JSON.parse] returned, possibly with
    properties set to [true] or deleted: it returns a string. *)
Variable JSON_stringify : jsval → string.

(** [data[id] = true] and [delete data[id]] on a value that is not a plain
    object (an array, a string, a number or a boolean), as
    [JSON.stringify] sees the value afterwards; [None] is the TypeError of
    strict mode.  Decided by the host's built-in objects. *)
Variable builtin_assign : jsval → string → option jsval.
Variable builtin_delete : jsval → string → option jsval.

(** Whether the storage has room for a text; [setItem] throws when it has
    not. *)
Variable fits : string → bool.

(** [data[id] = true].  On a plain object the assignment makes or
    overwrites an own property, except for the name [__proto__] without an
    own property: the inherited setter is called and ignores a value that
    is no object. *)
Definition assign_true (data : jsval) (id : string) : option jsval :=
  match data with
  | JObj props =>
      Some (JObj (match props !! id with
                  | None =>
                      if String.eqb id "__proto__" then props
                      else <[id := JBool true]> props
                  | Some _ => <[id := JBool true]> props
                  end))
  | _ => builtin_assign data id
  end.

(** [delete data[id]]: an own property of a plain object goes, inherited
    ones stay. *)
Definition delete_property (data : jsval) (id : string) : option jsval :=
  match data with
  | JObj props => Some (JObj (delete id props))
  | _ => builtin_delete data id
  end.

(** [_saveAll(data)] *)
Definition _saveAll (data : jsval) (localStorage : gmap string string)
    : option (gmap string string) :=
  let text := JSON_stringify data in
  if fits text then Some (<[STORAGE_KEY := text]> localStorage) else None.

(** [setCompleted(id, done)], [done] being the truth value of the second
    argument. *)
Definition setCompleted (id : string) (done : bool)
    (localStorage : gmap string string) : option (gmap string string) :=
  let data := ProgressTracker._getAll JSON_parse localStorage in
  data ← (if done then assign_true data id else delete_property data id);
  _saveAll data localStorage.

End Host.
End ProgressWriter.

(** * Properties *)

(** ** Tactics *)

Ltac nine l H :=
  destruct l as [|? [|? [|? [|? [|? [|? [|? [|? [|? [|? ?]]]]]]]]]];
  simpl in H; try discriminate H; clear H.

(** A 6x9 grid is six lists of nine variables. *)
Ltac open_grid fs H :=
  let HU := fresh in let HD := fresh in let HF := fresh in
  let HB := fresh in let HR := fresh in let HL := fresh in
  destruct H as (HU & HD & HF & HB & HR & HL);
  destruct fs as [u d f b r l]; simpl in HU, HD, HF, HB, HR, HL;
  nine u HU; nine d HD; nine f HF; nine b HB; nine r HR; nine l HL.

Ltac known_face H :=
  simpl in H; destruct H as [<- | [<- | [<- | [<- | [<- | [<- | []]]]]]].

Ltac open_world w :=
  destruct w as [[[fs h] [ia q cr d] ms sm cs ip pa os op] r lg].

(** Field reads and writes on worlds built from constructors. *)
Ltac fields :=
  unfold on_ctl, set_model, set_animator, set_algorithm, set_currentStep,
    set_isPlaying, set_playAbort, set_callbacks, CubeAnimator.clearQueue,
    CubeAnimator.setSpeed, animating, cursor, grid in *;
  simpl in *.


(** ** The parser *)

Lemma includes_In xs x : includes xs x = true → In x xs.
Proof.
  unfold includes. intros H. apply existsb_exists in H as (y & Hy & Heq).
  apply String.eqb_eq in Heq. now subst.
Qed.

Lemma Move_new_known f p d w :
  In f FACES → ∃ m, Move_new f p d w = Some m ∧ face m = f.
Proof.
  intros Hf. simpl in Hf.
  destruct Hf as [<- | [<- | [<- | [<- | [<- | [<- | []]]]]]];
    eexists; split; reflexivity.
Qed.

Lemma parser_move_face m : parser_move m → In (face m) FACES.
Proof.
  intros (f & p & d & w & Hf & _ & Hm).
  destruct (Move_new_known f p d w Hf) as (m' & Hm' & Hface).
  congruence.
Qed.

Section Scan.

Local Ltac emit Hch IH :=
  match goal with
  | |- context [m ← Move_new ?ch ?p ?d ?w; ms ← MoveParser.scan ?r; _] =>
      let m := fresh "m" in let Hm := fresh "Hm" in let ms := fresh "ms" in
      let Hms := fresh "Hms" in let Hall := fresh "Hall" in
      destruct (Move_new_known ch p d w Hch) as (m & Hm & _);
      destruct (IH r) as (ms & Hms & Hall); [simpl in *; lia |];
      rewrite Hm, Hms; simpl;
      eexists; split; [reflexivity |];
      constructor; [exists ch, p, d, w; repeat split; assumption | exact Hall]
  end.

Lemma scan_cons raw rest :
  MoveParser.scan (String raw rest) =
  let ch := String (upper_char raw) EmptyString in
  if negb (includes FACES ch) then MoveParser.scan rest
  else
    let w := is_lower raw in
    match rest with
    | String next rest' =>
        if Ascii.eqb next "'" then
          m ← Move_new ch true false w; ms ← MoveParser.scan rest'; Some (m :: ms)
        else if Ascii.eqb next "2" then
          m ← Move_new ch false true w; ms ← MoveParser.scan rest'; Some (m :: ms)
        else
          m ← Move_new ch false false w; ms ← MoveParser.scan rest; Some (m :: ms)
    | EmptyString =>
        m ← Move_new ch false false w; ms ← MoveParser.scan rest; Some (m :: ms)
    end.
Proof. reflexivity. Qed.

(** The token loop never throws and emits parser moves only. *)
Lemma scan_total n : ∀ token, (String.length token ≤ n)%nat →
  ∃ ms, MoveParser.scan token = Some ms ∧ Forall parser_move ms.
Proof.
  induction n as [|n IH]; intros [|raw rest] Hlen; simpl in Hlen;
    try (exists []; split; [reflexivity | constructor]); try lia.
  rewrite scan_cons. cbv zeta.
  destruct (includes FACES (String (upper_char raw) "")) eqn:Hinc; cbn [negb].
  - apply includes_In in Hinc.
    destruct rest as [|next rest'].
    + emit Hinc IH.
    + destruct (Ascii.eqb next "'"); [emit Hinc IH |].
      destruct (Ascii.eqb next "2"); emit Hinc IH.
  - apply IH. lia.
Qed.

End Scan.

Lemma scan_tokens_total tokens :
  ∃ ms, MoveParser.scan_tokens tokens = Some ms ∧ Forall parser_move ms.
Proof.
  induction tokens as [|t ts (ms' & Hms' & Hall')]; simpl.
  - exists []. split; [reflexivity | constructor].
  - destruct (scan_total (String.length t) t (le_n _)) as (ms & Hms & Hall).
    rewrite Hms, Hms'. simpl. eexists. split; [reflexivity |].
    apply Forall_app. split; assumption.
Qed.

Lemma parse_total text :
  ∃ ms, MoveParser.parse text = Some ms ∧ Forall parser_move ms.
Proof.
  unfold MoveParser.parse.
  destruct (String.eqb text "" || String.eqb (trim text) "").
  - exists []. split; [reflexivity | constructor].
  - apply scan_tokens_total.
Qed.

(** ** Tokens, joining and splitting *)

Lemma append_nil t : "" ++ t = t.
Proof. reflexivity. Qed.

Lemma append_cons c s t : String c s ++ t = String c (s ++ t).
Proof. reflexivity. Qed.

Lemma append_empty_r s : s ++ "" = s.
Proof.
  induction s as [|c s IH]; [reflexivity |].
  now rewrite append_cons, IH.
Qed.

Lemma split_go_nonempty b s : split_go b s ≠ [].
Proof.
  revert b. induction s as [|c s IH]; intros b; simpl; [discriminate |].
  destruct (is_ws c).
  - destruct b; [apply IH | discriminate].
  - destruct (split_go false s); discriminate.
Qed.

Lemma split_go_app t s :
  no_ws t = true → split_go false (t ++ s) = prepend t (split_go false s).
Proof.
  induction t as [|c t IH]; intros H.
  - rewrite append_nil.
    pose proof (split_go_nonempty false s) as Hne.
    destruct (split_go false s); [contradiction | reflexivity].
  - simpl in H. apply andb_true_iff in H as [Hc Ht]. apply negb_true_iff in Hc.
    rewrite append_cons. simpl. rewrite Hc, (IH Ht).
    pose proof (split_go_nonempty false s) as Hne.
    destruct (split_go false s); [contradiction | reflexivity].
Qed.

Lemma split_go_starts_clean s :
  starts_clean s = true → split_go true s = split_go false s.
Proof.
  destruct s as [|c s]; simpl; [discriminate |].
  intros H. apply negb_true_iff in H. now rewrite H.
Qed.

Lemma clean_parts t :
  clean t = true → no_ws t = true ∧ starts_clean t = true ∧ ends_clean t = true.
Proof.
  unfold clean. intros H. apply andb_true_iff in H as [Hn He].
  split; [assumption |].
  destruct t as [|c t]; [discriminate He |]. clear He.
  simpl in Hn. apply andb_true_iff in Hn as [Hc Ht].
  split; [assumption |].
  revert c Hc. induction t as [|c' t IH]; intros c Hc; simpl; [assumption |].
  simpl in Ht. apply andb_true_iff in Ht as [Hc' Ht]. apply (IH Ht c' Hc').
Qed.

Lemma trimStart_starts_clean s : starts_clean s = true → trimStart s = s.
Proof.
  destruct s as [|c s]; simpl; [discriminate |].
  intros H. apply negb_true_iff in H. now rewrite H.
Qed.

Lemma trimEnd_ends_clean s : ends_clean s = true → trimEnd s = s.
Proof.
  induction s as [|c s IH]; [discriminate |].
  destruct s as [|c' s'].
  - simpl. intros H. apply negb_true_iff in H. now rewrite H.
  - intros H. change (ends_clean (String c' s') = true) in H.
    change (trimEnd (String c (String c' s')))
      with (match trimEnd (String c' s') with
            | EmptyString => if is_ws c then EmptyString else String c EmptyString
            | r' => String c r'
            end).
    now rewrite (IH H).
Qed.

Lemma starts_clean_app t s : starts_clean t = true → starts_clean (t ++ s) = true.
Proof. destruct t; [discriminate | intros H; rewrite append_cons; exact H]. Qed.

Lemma ends_clean_app t s : ends_clean s = true → ends_clean (t ++ s) = true.
Proof.
  intros H. induction t as [|c t IH]; [exact H |].
  rewrite append_cons.
  destruct (t ++ s) eqn:E; [discriminate IH | exact IH].
Qed.

Lemma join_cons2 sep p q ps : str_join sep (p :: q :: ps) = p ++ sep ++ str_join sep (q :: ps).
Proof. reflexivity. Qed.

(** Joining clean tokens with one space and splitting the result at white
    space gives the tokens back; trimming changes nothing. *)
Lemma join_clean t ts :
  Forall (λ x, clean x = true) (t :: ts) →
  starts_clean (str_join " " (t :: ts)) = true ∧
  ends_clean (str_join " " (t :: ts)) = true ∧
  split_ws (str_join " " (t :: ts)) = t :: ts.
Proof.
  revert t. induction ts as [|q ts IH]; intros t Hall.
  - apply Forall_cons in Hall as [Ht _].
    apply clean_parts in Ht as (Hn & Hs & He).
    repeat split; try assumption.
    unfold split_ws. change (str_join " " [t]) with t.
    rewrite <- (append_empty_r t) at 1.
    rewrite (split_go_app _ _ Hn). simpl. now rewrite append_empty_r.
  - apply Forall_cons in Hall as [Ht Hall].
    destruct (IH q Hall) as (Hs' & He' & Hsplit).
    apply clean_parts in Ht as (Hn & Hs & He).
    rewrite join_cons2. repeat split.
    + now apply starts_clean_app.
    + apply ends_clean_app. now apply (ends_clean_app " ").
    + unfold split_ws in *. rewrite (split_go_app _ _ Hn).
      change (" " ++ str_join " " (q :: ts)) with (String " " (str_join " " (q :: ts))).
      change (split_go false (String " " (str_join " " (q :: ts))))
        with ("" :: split_go true (str_join " " (q :: ts))).
      rewrite (split_go_starts_clean _ Hs'), Hsplit. simpl.
      now rewrite append_empty_r.
Qed.

Lemma ends_clean_nonempty s : ends_clean s = true → String.eqb s "" = false.
Proof. destruct s; [discriminate | reflexivity]. Qed.

(** ** Printing a parser move and reading it back *)

Lemma toString_clean m :
  parser_move m → clean (Move_toString m) = true ∧ MoveParser.scan (Move_toString m) = Some [m].
Proof.
  intros (f & p & d & w & Hf & Hpd & Hm). simpl in Hf.
  destruct Hf as [<- | [<- | [<- | [<- | [<- | [<- | []]]]]]];
    destruct p, d; try discriminate Hpd; destruct w;
    injection Hm as <-; split; reflexivity.
Qed.

Lemma scan_tokens_toString ms :
  Forall parser_move ms →
  Forall (λ x, clean x = true) (map Move_toString ms) ∧
  MoveParser.scan_tokens (map Move_toString ms) = Some ms.
Proof.
  induction 1 as [|m ms Hm _ [IHc IHs]]; simpl.
  - split; [constructor | reflexivity].
  - destruct (toString_clean m Hm) as [Hc Hs].
    split; [constructor; assumption |].
    now rewrite Hs, IHs.
Qed.

Lemma parse_toString ms :
  Forall parser_move ms → MoveParser.parse (MoveParser.toString ms) = Some ms.
Proof.
  intros Hall. destruct (scan_tokens_toString ms Hall) as [Hc Hs].
  unfold MoveParser.toString.
  destruct ms as [|m ms]; [reflexivity |].
  assert (Hts : map Move_toString (m :: ms) = Move_toString m :: map Move_toString ms)
    by reflexivity.
  rewrite Hts in Hc. destruct (join_clean _ _ Hc) as (Hstart & Hend & Hsplit).
  rewrite <- Hts in Hstart, Hend, Hsplit.
  unfold MoveParser.parse, trim.
  rewrite (trimStart_starts_clean _ Hstart), (trimEnd_ends_clean _ Hend).
  rewrite (ends_clean_nonempty _ Hend). cbn [orb].
  now rewrite Hsplit.
Qed.

(** C6.  For every text made only of the six face letters (either case),
    the modifiers ['] and [2] and white space, [parse(toString(parse(text)))]
    is the same descriptor sequence as [parse(text)], field by field.  (The
    restriction on the text is not needed: [parse_total] and [parse_toString]
    hold for every text.) *)
Theorem parse_toString_roundtrip (text : string) :
  grammar_text text = true →
  ∃ ms, MoveParser.parse text = Some ms ∧
        MoveParser.parse (MoveParser.toString ms) = Some ms.
Proof.
  intros _. destruct (parse_total text) as (ms & Hparse & Hall).
  exists ms. split; [exact Hparse | now apply parse_toString].
Qed.

Lemma parse_toString_roundtrip_witness :
  ∃ ms, MoveParser.parse "  r2U' f  B2'L d'2 " = Some ms ∧
        MoveParser.parse (MoveParser.toString ms) = Some ms.
Proof.
  apply (parse_toString_roundtrip "  r2U' f  B2'L d'2 "). reflexivity.
Defined.

(** C8.  For every input string, [parse] returns (it does not throw) and
    every descriptor it returns has a face among R, L, U, D, F, B; so the
    lookups of [applyMove] under that face - the face array, [EDGE_CYCLES]
    and [MIDDLE_CYCLES] - are all defined. *)
Theorem parse_emits_known_faces (text : string) :
  ∃ ms, MoveParser.parse text = Some ms ∧
    Forall (λ m,
      In (face m) FACES ∧
      is_Some (EDGE_CYCLES (face m)) ∧
      is_Some (MIDDLE_CYCLES (face m)) ∧
      ∀ fs, is_Some (faces_get fs (face m))) ms.
Proof.
  destruct (parse_total text) as (ms & Hparse & Hall).
  exists ms. split; [exact Hparse |].
  eapply Forall_impl; [exact Hall |].
  intros m Hm. apply parser_move_face in Hm.
  split; [exact Hm |].
  known_face Hm; repeat split; intros; eexists; reflexivity.
Qed.

Example parse_r2_U' :
  MoveParser.parse "r2 U'" =
  Some [ mkMove "R" false true true "x" 1 (-1) PI;
         mkMove "U" true false false "y" 1 1 HALF_PI ].
Proof. reflexivity. Qed.

Example parse_skips_unknown :
  MoveParser.toString <$> MoveParser.parse "  (R U)x2' f'2  " = Some "R U f'".
Proof. reflexivity. Qed.

(** ** The facelet permutations *)

Lemma solved_grid : grid6x9 CubeModel.solved.
Proof. repeat split. Qed.

(** On a 6x9 grid a move with a known face never throws, leaves a 6x9 grid,
    has an inverse with the same face, and that inverse undoes it. *)
Lemma turn_ok fs m :
  grid6x9 fs → In (face m) FACES →
  ∃ inv fs', Move_inverse m = Some inv ∧ face inv = face m ∧
    turn m fs = Some fs' ∧ grid6x9 fs' ∧ turn inv fs' = Some fs.
Proof.
  intros Hg Hf. open_grid fs Hg.
  destruct m as [fc p dd w ax la di an]; simpl in Hf.
  known_face Hf; destruct p, dd, w; eexists _, _;
    (split; [reflexivity |]); (split; [reflexivity |]);
    (split; [vm_compute; reflexivity |]); (split; [repeat split |]);
    vm_compute; reflexivity.
Qed.

(** A half turn is two clockwise quarter turns, whatever [prime] says. *)
Lemma turn_double fs h c :
  grid6x9 fs → In (face h) FACES → double h = true →
  face c = face h → wide c = wide h → prime c = false → double c = false →
  ∃ fs1 fs2, turn c fs = Some fs1 ∧ turn c fs1 = Some fs2 ∧ turn h fs = Some fs2.
Proof.
  intros Hg Hf Hd Hcf Hcw Hcp Hcd. open_grid fs Hg.
  destruct h as [fc p dd w ax la di an], c as [fc' p' dd' w' ax' la' di' an'].
  simpl in *. subst.
  known_face Hf; destruct p, w; eexists _, _;
    (split; [vm_compute; reflexivity |]); (split; [vm_compute; reflexivity |]);
    vm_compute; reflexivity.
Qed.

Lemma applyMove_turn m r cm :
  CubeModel.applyMove m r cm =
  fs ← turn m (faces cm);
  Some (mkCubeModel fs (if r then (history cm ++ [m])%list else history cm)).
Proof. reflexivity. Qed.

(** C2. For every 6x9 facelet grid and every move on one of the six faces,
    with any combination of prime, double and wide in which prime and double
    are not both set, [applyMove] with the move followed by [applyMove] with
    its [inverse()] restores every facelet of the six faces. *)
Theorem applyMove_then_inverse (cm : CubeModel) (m : Move) (r r' : bool) :
  grid6x9 (faces cm) → In (face m) FACES → prime m && double m = false →
  ∃ inv cm1 cm2,
    Move_inverse m = Some inv ∧
    CubeModel.applyMove m r cm = Some cm1 ∧
    CubeModel.applyMove inv r' cm1 = Some cm2 ∧
    faces cm2 = faces cm.
Proof.
  intros Hg Hf _.
  destruct (turn_ok _ _ Hg Hf) as (inv & fs' & Hinv & _ & Hturn & _ & Hback).
  exists inv. eexists. eexists.
  split; [exact Hinv |].
  split; [rewrite applyMove_turn, Hturn; reflexivity |].
  split; [rewrite applyMove_turn; simpl; rewrite Hback; reflexivity |].
  reflexivity.
Qed.

Lemma applyMove_then_inverse_witness :
  ∃ inv cm1 cm2,
    Move_inverse (mkMove "F" true false true "z" 1 1 HALF_PI) = Some inv ∧
    CubeModel.applyMove (mkMove "F" true false true "z" 1 1 HALF_PI) true
      (mkCubeModel (labelled sticker) []) = Some cm1 ∧
    CubeModel.applyMove inv false cm1 = Some cm2 ∧
    faces cm2 = labelled sticker.
Proof.
  apply (applyMove_then_inverse (mkCubeModel (labelled sticker) [])
           (mkMove "F" true false true "z" 1 1 HALF_PI) true false).
  - repeat split.
  - simpl. tauto.
  - reflexivity.
Defined.

(** C3. For every face, every wide flag and every 6x9 facelet grid,
    [applyMove] with the half-turn descriptor (double set) yields the grid
    that two [applyMove]s with the plain clockwise descriptor of the same
    face and wide flag yield. *)
Theorem double_is_clockwise_twice (cm : CubeModel) (h c : Move) (r : bool) :
  grid6x9 (faces cm) → In (face h) FACES → double h = true →
  face c = face h → wide c = wide h → prime c = false → double c = false →
  ∃ cm1 cm2 cm',
    CubeModel.applyMove c r cm = Some cm1 ∧
    CubeModel.applyMove c r cm1 = Some cm2 ∧
    CubeModel.applyMove h r cm = Some cm' ∧
    faces cm' = faces cm2.
Proof.
  intros Hg Hf Hd Hcf Hcw Hcp Hcd.
  destruct (turn_double _ _ _ Hg Hf Hd Hcf Hcw Hcp Hcd) as (fs1 & fs2 & H1 & H2 & Hh).
  eexists. eexists. eexists.
  split; [rewrite applyMove_turn, H1; reflexivity |].
  split; [rewrite applyMove_turn; simpl; rewrite H2; reflexivity |].
  split; [rewrite applyMove_turn, Hh; reflexivity |].
  reflexivity.
Qed.

Lemma double_is_clockwise_twice_witness :
  ∃ cm1 cm2 cm',
    CubeModel.applyMove (mkMove "U" false false true "y" 1 (-1) HALF_PI) false
      (mkCubeModel (labelled sticker) []) = Some cm1 ∧
    CubeModel.applyMove (mkMove "U" false false true "y" 1 (-1) HALF_PI) false cm1 = Some cm2 ∧
    CubeModel.applyMove (mkMove "U" false true true "y" 1 (-1) PI) false
      (mkCubeModel (labelled sticker) []) = Some cm' ∧
    faces cm' = faces cm2.
Proof.
  apply (double_is_clockwise_twice (mkCubeModel (labelled sticker) [])
           (mkMove "U" false true true "y" 1 (-1) PI)
           (mkMove "U" false false true "y" 1 (-1) HALF_PI) false);
    try reflexivity.
  - repeat split.
  - simpl. tauto.
Defined.

(** The order of the moves, on a grid without two equal facelets: four
    wide quarter turns and two half turns are the identity. *)
Example four_quarter_turns :
  CubeModel.applyMoves (replicate 4 (mkMove "R" false false true "x" 1 (-1) HALF_PI)) false
    (mkCubeModel (labelled sticker) []) = Some (mkCubeModel (labelled sticker) []).
Proof. vm_compute. reflexivity. Qed.

Example two_half_turns :
  CubeModel.applyMoves (replicate 2 (mkMove "B" false true false "z" (-1) 1 PI)) false
    (mkCubeModel (labelled sticker) []) = Some (mkCubeModel (labelled sticker) []).
Proof. vm_compute. reflexivity. Qed.

(** ["R U R' U'"] leaves a solved cube unsolved and has order six. *)
Example sexy_move_unsolved :
  (ms ← MoveParser.parse "R U R' U'";
   cm ← CubeModel.applyMoves ms false CubeModel.new;
   CubeModel.isSolved cm) = Some false.
Proof. vm_compute. reflexivity. Qed.

Example sexy_move_six_times :
  (ms ← MoveParser.parse "R U R' U'";
   CubeModel.applyMoves (concat (replicate 6 ms)) false
     (mkCubeModel (labelled sticker) [])) = Some (mkCubeModel (labelled sticker) []).
Proof. vm_compute. reflexivity. Qed.

(** A clockwise turn of U carries the top row of F to L, as on the cube. *)
Example U_moves_front_row_left :
  (cm ← CubeModel.applyMove (mkMove "U" false false false "y" 1 (-1) HALF_PI) false
          CubeModel.new;
   Some (take 3 (face_L (faces cm)), take 3 (face_F (faces cm)))) =
  Some ([Str "green"; Str "green"; Str "green"], [Str "red"; Str "red"; Str "red"]).
Proof. vm_compute. reflexivity. Qed.

(** ** Sequences of moves *)

Lemma applyMoves_app ms ms' r cm :
  CubeModel.applyMoves (ms ++ ms')%list r cm =
  cm' ← CubeModel.applyMoves ms r cm; CubeModel.applyMoves ms' r cm'.
Proof.
  revert cm. induction ms as [|m ms IH]; intros cm; simpl; [reflexivity |].
  destruct (CubeModel.applyMove m r cm); simpl; [apply IH | reflexivity].
Qed.

Lemma applyMove_ok m cm :
  grid6x9 (faces cm) → parser_move m →
  ∃ inv fs',
    Move_inverse m = Some inv ∧
    CubeModel.applyMove m false cm = Some (mkCubeModel fs' (history cm)) ∧
    grid6x9 fs' ∧
    CubeModel.applyMove inv false (mkCubeModel fs' (history cm)) = Some cm.
Proof.
  intros Hg Hm. apply parser_move_face in Hm.
  destruct (turn_ok _ _ Hg Hm) as (inv & fs' & Hinv & _ & Hturn & Hg' & Hback).
  exists inv, fs'. rewrite !applyMove_turn, Hturn. simpl. rewrite Hback.
  destruct cm. split; [assumption |]. split; [reflexivity |].
  split; [assumption | reflexivity].
Qed.

Lemma applyMoves_ok ms cm :
  grid6x9 (faces cm) → Forall parser_move ms →
  ∃ fs', CubeModel.applyMoves ms false cm = Some (mkCubeModel fs' (history cm)) ∧ grid6x9 fs'.
Proof.
  intros Hg Hall. revert cm Hg.
  induction Hall as [|m ms Hm _ IH]; intros cm Hg; simpl.
  - exists (faces cm). destruct cm. split; [reflexivity | assumption].
  - destruct (applyMove_ok m cm Hg Hm) as (_ & fs1 & _ & H1 & Hg1 & _).
    rewrite H1. simpl. apply (IH (mkCubeModel fs1 (history cm)) Hg1).
Qed.

Lemma expected_ok setup ms k :
  Forall parser_move setup → Forall parser_move ms →
  ∃ fs, expected setup ms k = Some (mkCubeModel fs []) ∧ grid6x9 fs.
Proof.
  intros Hs Hm. apply (applyMoves_ok _ CubeModel.new solved_grid).
  apply Forall_app. split; [assumption |]. now apply Forall_take.
Qed.

Lemma expected_grid setup ms k cm :
  Forall parser_move setup → Forall parser_move ms →
  expected setup ms k = Some cm → grid6x9 (faces cm).
Proof.
  intros Hs Hm H. destruct (expected_ok setup ms k Hs Hm) as (fs & Hfs & Hg).
  rewrite Hfs in H. injection H as <-. exact Hg.
Qed.

Lemma expected_S setup ms k m :
  ms !! k = Some m →
  expected setup ms (S k) = cm ← expected setup ms k; CubeModel.applyMove m false cm.
Proof.
  intros Hk. unfold expected.
  rewrite (take_S_r _ _ _ Hk), app_assoc, applyMoves_app.
  destruct (CubeModel.applyMoves (setup ++ take k ms) false CubeModel.new) as [cm|];
    simpl; [| reflexivity].
  destruct (CubeModel.applyMove m false cm); reflexivity.
Qed.

(** One step forward from a consistent model. *)
Lemma expected_forward setup ms k m cm :
  Forall parser_move setup → Forall parser_move ms →
  ms !! k = Some m → expected setup ms k = Some cm →
  ∃ cm', CubeModel.applyMove m false cm = Some cm' ∧ expected setup ms (S k) = Some cm'.
Proof.
  intros Hs Hm Hk He.
  assert (Hpm : parser_move m) by (eapply Forall_lookup_1; eassumption).
  pose proof (expected_grid _ _ _ _ Hs Hm He) as Hg.
  destruct (applyMove_ok m cm Hg Hpm) as (_ & fs' & _ & H1 & _ & _).
  eexists. split; [exact H1 |].
  rewrite (expected_S _ _ _ _ Hk), He. exact H1.
Qed.

(** One step backward to a consistent model. *)
Lemma expected_backward setup ms k m cm :
  Forall parser_move setup → Forall parser_move ms →
  ms !! k = Some m → expected setup ms (S k) = Some cm →
  ∃ inv cm', Move_inverse m = Some inv ∧
    CubeModel.applyMove inv false cm = Some cm' ∧ expected setup ms k = Some cm'.
Proof.
  intros Hs Hm Hk He.
  assert (Hpm : parser_move m) by (eapply Forall_lookup_1; eassumption).
  destruct (expected_ok setup ms k Hs Hm) as (fs & Hfs & Hg).
  destruct (applyMove_ok m (mkCubeModel fs []) Hg Hpm) as (inv & fs' & Hinv & H1 & _ & Hback).
  rewrite (expected_S _ _ _ _ Hk), Hfs in He. simpl in He.
  rewrite H1 in He. injection He as <-.
  exists inv. eexists. split; [exact Hinv |]. split; [exact Hback | exact Hfs].
Qed.

(** ** The cursor and the grid *)

Section Discipline.

#[local] Arguments CubeModel.applyMove : simpl never.
#[local] Arguments CubeModel.applyMoves : simpl never.
#[local] Arguments MoveParser.parse : simpl never.
#[local] Arguments Move_inverse : simpl never.
#[local] Arguments expected : simpl never.
#[local] Arguments Qle_bool : simpl never.
#[local] Arguments CubeAnimator.progress : simpl never.

(** [Inv] reads the algorithm, the cursor, the model and the animator's
    flag and queue; flags, callbacks, speed and log do not matter. *)
Lemma Inv_flags cm ia q cr d ms sm cs ip pa os op r lg cr' d' ip' pa' os' op' lg' :
  Inv (mkWorld (mkCubeController cm (mkCubeAnimator ia q cr d) ms sm cs ip pa os op) r lg) →
  Inv (mkWorld (mkCubeController cm (mkCubeAnimator ia q cr' d') ms sm cs ip' pa' os' op') r lg').
Proof. exact id. Qed.

Lemma Inv_pause w : Inv w → Inv (CubeController.pause w).
Proof.
  open_world w. unfold CubeController.pause, CubeController._notifyPlayState. simpl.
  destruct op; apply Inv_flags.
Qed.

Lemma Inv_notifyStep w : Inv w → Inv (CubeController._notifyStep w).
Proof.
  open_world w. unfold CubeController._notifyStep. simpl.
  destruct os; [apply Inv_flags | exact id].
Qed.

Lemma Inv_notifyPlayState w : Inv w → Inv (CubeController._notifyPlayState w).
Proof.
  open_world w. unfold CubeController._notifyPlayState. simpl.
  destruct op; [apply Inv_flags | exact id].
Qed.

Lemma Inv_new : Inv CubeController.new.
Proof.
  unfold Inv. simpl. repeat split; constructor.
Qed.

Lemma setup_expected sm ms :
  (if (0 <? length sm)%nat
   then CubeModel.applyMoves sm false (mkCubeModel CubeModel.solved [])
   else Some (mkCubeModel CubeModel.solved [])) = expected sm ms 0.
Proof.
  unfold expected. rewrite take_0, app_nil_r.
  destruct sm; reflexivity.
Qed.

Lemma Inv_not_animating w : Inv w → animating w = false → raf w = None.
Proof.
  intros (_ & _ & _ & _ & H) Ha. unfold animating in Ha.
  destruct (raf w); [| reflexivity].
  destruct H as [H _]. congruence.
Qed.

(** [reset] and [loadAlgorithm] end in the same way. *)
Lemma Inv_rewound fs h cr d ms sm ip pa os op lg :
  Forall parser_move ms → Forall parser_move sm →
  ∃ w', CubeController.reset_model
          (mkWorld (mkCubeController (mkCubeModel fs h) (mkCubeAnimator false [] cr d)
                      ms sm 0 ip pa os op) None lg) = Some w' ∧
        Inv (CubeController._notifyStep w') ∧
        cursor (CubeController._notifyStep w') = 0%nat ∧
        raf (CubeController._notifyStep w') = None.
Proof.
  intros Hms Hsm. unfold CubeController.reset_model. simpl.
  unfold CubeModel.reset. rewrite (setup_expected sm ms).
  destruct (expected_ok sm ms 0 Hsm Hms) as (fs' & He & _).
  rewrite He. simpl. eexists. split; [reflexivity |].
  split; [| unfold CubeController._notifyStep; simpl; destruct os; split; reflexivity].
  apply Inv_notifyStep. unfold Inv. simpl.
  repeat split; try assumption; try lia.
Qed.

Lemma Inv_reset w :
  Inv w → animating w = false →
  ∃ w', CubeController.reset w = Some w' ∧ Inv w' ∧ cursor w' = 0%nat ∧ raf w' = None.
Proof.
  intros HI Ha. pose proof (Inv_not_animating w HI Ha) as Hr.
  destruct HI as (Hms & Hsm & _).
  open_world w. fields. subst.
  unfold CubeController.reset, CubeController.pause, CubeController.clearQueue,
    CubeController._notifyPlayState. fields.
  destruct op; fields;
    (edestruct Inv_rewound as (w' & -> & HI' & Hc); [exact Hms | exact Hsm |];
     fields; eexists; split; [reflexivity | split; [exact HI' | exact Hc]]).
Qed.

Lemma Inv_loadAlgorithm algorithm setup w :
  Inv w → animating w = false →
  ∃ w', CubeController.loadAlgorithm algorithm setup w = Some w' ∧ Inv w'.
Proof.
  intros HI Ha. pose proof (Inv_not_animating w HI Ha) as Hr.
  destruct (parse_total algorithm) as (ms' & Hms' & Hall).
  assert (∃ sm', (if String.eqb setup "" then Some [] else MoveParser.parse setup) = Some sm'
                 ∧ Forall parser_move sm') as (sm' & Hsm' & Halls).
  { destruct (String.eqb setup "").
    - exists []. split; [reflexivity | constructor].
    - apply parse_total. }
  open_world w. fields. subst.
  unfold CubeController.loadAlgorithm, CubeController.pause, CubeController.clearQueue,
    CubeController._notifyPlayState. fields.
  destruct op; fields; rewrite Hms', Hsm'; fields;
    (edestruct Inv_rewound as (w' & -> & HI' & _); [exact Hall | exact Halls |];
     fields; eexists; split; [reflexivity | exact HI']).
Qed.

(** The play loop, entered with nothing in flight. *)
Lemma Inv_play_loop now w :
  Inv w → raf w = None →
  ∃ w', CubeController.play_loop now w = Some w' ∧ Inv w'.
Proof.
  intros HI Hr. pose proof HI as (Hms & Hsm & Hle & Hq & H).
  rewrite Hr in H. destruct H as [Hia He].
  unfold CubeController.play_loop.
  destruct ((currentStep (ctl w) <? length (moves (ctl w)))%nat && negb (_playAbort (ctl w)))
    eqn:Hgo.
  - apply andb_true_iff in Hgo as [Hlt _]. apply Nat.ltb_lt in Hlt.
    destruct (lookup_lt_is_Some_2 _ _ Hlt) as [m Hm].
    destruct (expected_forward _ _ _ _ _ Hsm Hms Hm He) as (cm' & Hap & He').
    rewrite Hm. simpl. unfold CubeController._executeStep. rewrite Hap. simpl.
    eexists. split; [reflexivity |].
    open_world w. simpl in *. subst. unfold CubeController.animateMove. simpl.
    unfold Inv. simpl. repeat split; solve [assumption | reflexivity].
  - eexists. split; [reflexivity |].
    apply Inv_notifyPlayState. open_world w. exact HI.
Qed.

Lemma Inv_play now w :
  Inv w → allowed Call_play w = true →
  ∃ w', CubeController.play now w = Some w' ∧ Inv w'.
Proof.
  intros HI Hal. unfold CubeController.play.
  destruct (isPlaying (ctl w)) eqn:Hip; [exists w; split; [reflexivity | exact HI] |].
  simpl in Hal. rewrite Hip in Hal. simpl in Hal. apply negb_true_iff in Hal.
  assert (∃ w1, (if (length (moves (ctl w)) <=? currentStep (ctl w))%nat
                 then CubeController.reset w else Some w) = Some w1
                ∧ Inv w1 ∧ raf w1 = None) as (w1 & -> & HI1 & Hr1).
  { destruct (length (moves (ctl w)) <=? currentStep (ctl w))%nat.
    - destruct (Inv_reset w HI Hal) as (w1 & H1 & HI1 & _ & Hr1).
      exists w1. split; [exact H1 | split; assumption].
    - exists w. split; [reflexivity | split; [assumption |]].
      now apply Inv_not_animating. }
  simpl.
  apply Inv_play_loop.
  - apply Inv_notifyPlayState. open_world w1. exact HI1.
  - open_world w1. unfold CubeController._notifyPlayState. simpl in *.
    destruct op; exact Hr1.
Qed.

Lemma Inv_stepForward now w :
  Inv w → ∃ w', CubeController.stepForward now w = Some w' ∧ Inv w'.
Proof.
  intros HI. unfold CubeController.stepForward.
  destruct (isPlaying (ctl w) || isAnimating (animator (ctl w))) eqn:Hbusy;
    [exists w; split; [reflexivity | exact HI] |].
  apply orb_false_iff in Hbusy as [_ Hia].
  pose proof (Inv_not_animating w HI Hia) as Hr.
  destruct (length (moves (ctl w)) <=? currentStep (ctl w))%nat eqn:Hend;
    [exists w; split; [reflexivity | exact HI] |].
  apply Nat.leb_gt in Hend.
  pose proof HI as (Hms & Hsm & Hle & Hq & H).
  rewrite Hr in H. destruct H as [_ He].
  destruct (lookup_lt_is_Some_2 _ _ Hend) as [m Hm].
  destruct (expected_forward _ _ _ _ _ Hsm Hms Hm He) as (cm' & Hap & He').
  rewrite Hm. simpl. unfold CubeController._executeStep. rewrite Hap. simpl.
  eexists. split; [reflexivity |].
  open_world w. simpl in *. subst. unfold CubeController.animateMove. simpl.
  unfold Inv. simpl. repeat split; solve [assumption | reflexivity].
Qed.

Lemma Inv_stepBackward now w :
  Inv w → ∃ w', CubeController.stepBackward now w = Some w' ∧ Inv w'.
Proof.
  intros HI. unfold CubeController.stepBackward.
  destruct (isPlaying (ctl w) || isAnimating (animator (ctl w))) eqn:Hbusy;
    [exists w; split; [reflexivity | exact HI] |].
  apply orb_false_iff in Hbusy as [_ Hia].
  pose proof (Inv_not_animating w HI Hia) as Hr.
  destruct (currentStep (ctl w) <=? 0)%nat eqn:Hstart;
    [exists w; split; [reflexivity | exact HI] |].
  apply Nat.leb_gt in Hstart.
  pose proof HI as (Hms & Hsm & Hle & Hq & H).
  rewrite Hr in H. destruct H as [_ He].
  open_world w. fields. subst.
  destruct cs as [|k]; [lia |].
  simpl. rewrite Nat.sub_0_r.
  assert (Hlt : (k < length ms)%nat) by lia.
  destruct (lookup_lt_is_Some_2 _ _ Hlt) as [m Hm].
  destruct (expected_backward _ _ _ _ _ Hsm Hms Hm He) as (inv & cm' & Hinv & Hap & He').
  rewrite Hm. simpl. rewrite Hinv. simpl. rewrite Hap. simpl.
  eexists. split; [reflexivity |].
  unfold CubeController.animateMove. simpl.
  unfold Inv. simpl. repeat split; solve [assumption | reflexivity | lia].
Qed.

(** A frame either leaves the world as it is or ends the animation; in
    the latter case the awaiting code continues on [ended w]. *)
Lemma on_frame_cases now w cb :
  raf w = Some cb → _queue (animator (ctl w)) = [] →
  (Qle_bool 1 (CubeAnimator.progress (animator (ctl w)) cb now) = false
     ∧ on_frame now w = Some w) ∨
  (Qle_bool 1 (CubeAnimator.progress (animator (ctl w)) cb now) = true
     ∧ on_frame now w = CubeController.resume now (anim_resolve cb) (ended w)).
Proof.
  intros Hr Hq. unfold on_frame. rewrite Hr.
  unfold CubeAnimator.animate, CubeAnimator.complete, ended.
  open_world w. fields. subst.
  destruct (Qle_bool 1 _); [right | left]; split; reflexivity.
Qed.

Lemma Inv_resume now w cb :
  Inv w → raf w = Some cb →
  ∃ w', CubeController.resume now (anim_resolve cb) (ended w) = Some w' ∧ Inv w'.
Proof.
  intros HI Hr. pose proof HI as (Hms & Hsm & Hle & Hq & H).
  rewrite Hr in H. destruct H as [Hia H].
  unfold CubeController.resume.
  destruct (anim_resolve cb).
  - destruct H as [Hlt He]. apply Inv_play_loop.
    + apply Inv_notifyStep. open_world w. fields. subst.
      unfold Inv, ended. simpl. rewrite Nat.add_1_r.
      repeat split; solve [assumption | reflexivity | lia].
    + unfold CubeController._notifyStep, ended. open_world w. fields.
      destruct os; reflexivity.
  - destruct H as [Hlt He]. eexists. split; [reflexivity |].
    apply Inv_notifyStep. open_world w. fields. subst.
    unfold Inv, ended. simpl. rewrite Nat.add_1_r.
    repeat split; solve [assumption | reflexivity | lia].
  - eexists. split; [reflexivity |].
    apply Inv_notifyStep. open_world w. fields. subst.
    unfold Inv, ended. simpl.
    repeat split; solve [assumption | reflexivity | lia].
Qed.

Lemma Inv_frame now w :
  Inv w → ∃ w', on_frame now w = Some w' ∧ Inv w'.
Proof.
  intros HI. destruct (raf w) as [cb|] eqn:Hr.
  - pose proof HI as (_ & _ & _ & Hq & _).
    destruct (on_frame_cases now w cb Hr Hq) as [[_ ->] | [_ ->]].
    + exists w. split; [reflexivity | exact HI].
    + apply Inv_resume; assumption.
  - exists w. unfold on_frame. rewrite Hr. split; [reflexivity | exact HI].
Qed.

(** Every allowed event runs without an exception and keeps [Inv]. *)
Lemma Inv_step now e w :
  Inv w → allowed e w = true → ∃ w', step now e w = Some w' ∧ Inv w'.
Proof.
  intros HI Hal. destruct e; simpl.
  - apply Inv_loadAlgorithm; [exact HI |]. simpl in Hal. now apply negb_true_iff in Hal.
  - now apply Inv_play.
  - eexists. split; [reflexivity | now apply Inv_pause].
  - unfold CubeController.togglePlay.
    destruct (isPlaying (ctl w)) eqn:Hip.
    + eexists. split; [reflexivity | now apply Inv_pause].
    + apply Inv_play; assumption.
  - now apply Inv_stepForward.
  - now apply Inv_stepBackward.
  - simpl in Hal. apply negb_true_iff in Hal.
    destruct (Inv_reset w HI Hal) as (w' & H & HI' & _). eauto.
  - eexists. split; [reflexivity |]. open_world w. exact HI.
  - eexists. split; [reflexivity |]. open_world w. exact HI.
  - now apply Inv_frame.
Qed.

Lemma Inv_run evs : ∀ w,
  Inv w → disciplined evs w = true → ∃ w', run evs w = Some w' ∧ Inv w'.
Proof.
  induction evs as [|[now e] evs IH]; intros w HI Hd; simpl.
  - exists w. split; [reflexivity | exact HI].
  - simpl in Hd. apply andb_true_iff in Hd as [Hal Hd].
    destruct (Inv_step now e w HI Hal) as (w1 & H1 & HI1).
    rewrite H1 in Hd |- *. simpl. apply IH; assumption.
Qed.

End Discipline.

(** C1, as the code has it.  Take any run of public operations, callback
    assignments and animation frames on a new controller in which
    [loadAlgorithm], [reset] and a [play] or [togglePlay] that starts
    playback are issued only while no animation is in flight.  Then no
    operation throws, and after every event of the run:
    when no animation is in flight, the facelet grid is the one obtained from
    solved by the setup moves and the first [currentStep] algorithm moves;
    while the animation of a step started by [play] or [stepForward] is in
    flight - in particular at the moment [pause()] returns during playback -
    the grid is already the one of the first [currentStep + 1] moves, the
    cursor following when the animation ends; while the animation of a
    [stepBackward] is in flight the grid is the one of the first
    [currentStep] moves. *)
Theorem cursor_tracks_grid (evs : list (Q * Event)) :
  disciplined evs CubeController.new = true →
  ∃ w, run evs CubeController.new = Some w ∧
    (animating w = false → grid_at (cursor w) w) ∧
    (animating w = true → ∃ cb, raf w = Some cb) ∧
    (∀ cb, raf w = Some cb →
       match anim_resolve cb with
       | K_stepBackward => grid_at (cursor w) w
       | _ => grid_at (S (cursor w)) w
       end).
Proof.
  intros Hd. destruct (Inv_run evs _ Inv_new Hd) as (w & Hrun & HI).
  exists w. split; [exact Hrun |].
  destruct HI as (_ & _ & _ & _ & H). unfold grid_at, animating, cursor, grid.
  destruct (raf w) as [cb|].
  - destruct H as [Hia H]. repeat split.
    + congruence.
    + eauto.
    + intros cb' [= <-].
      destruct (anim_resolve cb); [destruct H as [_ ->] | destruct H as [_ ->] | rewrite H];
        reflexivity.
  - destruct H as [Hia H]. repeat split.
    + intros _. now rewrite H.
    + congruence.
    + discriminate.
Qed.

Lemma cursor_tracks_grid_witness :
  ∃ w, run [ (0%Q, Call_loadAlgorithm "R U R' U'" "F2 d");
             (10%Q, Call_play); (100%Q, AnimationFrame); (320%Q, AnimationFrame);
             (400%Q, Call_pause) ] CubeController.new = Some w ∧
    (animating w = false → grid_at (cursor w) w) ∧
    (animating w = true → ∃ cb, raf w = Some cb) ∧
    (∀ cb, raf w = Some cb →
       match anim_resolve cb with
       | K_stepBackward => grid_at (cursor w) w
       | _ => grid_at (S (cursor w)) w
       end).
Proof.
  apply (cursor_tracks_grid
           [ (0%Q, Call_loadAlgorithm "R U R' U'" "F2 d");
             (10%Q, Call_play); (100%Q, AnimationFrame); (320%Q, AnimationFrame);
             (400%Q, Call_pause) ]).
  vm_compute. reflexivity.
Defined.

(** C1 as stated fails when [pause()] returns while a step of [play] is
    being animated: the move is applied, the cursor still counts it out. *)
Lemma pause_returns_ahead_of_cursor :
  ∃ w, run [ (0%Q, Call_loadAlgorithm "R U" "F");
             (0%Q, Call_play); (100%Q, Call_pause) ] CubeController.new = Some w ∧
    cursor w = 0%nat ∧ isPlaying (ctl w) = false ∧
    ¬ grid_at (cursor w) w ∧ grid_at 1 w.
Proof.
  eexists. split; [vm_compute; reflexivity |].
  split; [reflexivity |]. split; [reflexivity |].
  split; [| vm_compute; reflexivity].
  vm_compute. discriminate.
Qed.

(** Outside the discipline the cursor and the grid part for good: [reset()]
    during playback rewinds the model, and the step in flight still advances
    the cursor when its animation ends. *)
Example reset_during_play :
  ∃ w, run [ (0%Q, Call_loadAlgorithm "R U" "F");
             (0%Q, Call_play); (100%Q, Call_reset);
             (300%Q, AnimationFrame) ] CubeController.new = Some w ∧
    animating w = false ∧ cursor w = 1%nat ∧ grid_at 0 w ∧ ¬ grid_at (cursor w) w.
Proof.
  eexists. split; [vm_compute; reflexivity |].
  split; [reflexivity |]. split; [reflexivity |].
  split; [vm_compute; reflexivity |].
  vm_compute. discriminate.
Qed.

(** ** Frames and durations *)

Lemma progress_done a cb now :
  (0 < duration a)%Q → (duration a <= now - startTime cb)%Q →
  Qle_bool 1 (CubeAnimator.progress a cb now) = true.
Proof.
  intros Hd He. apply Qle_bool_iff. unfold CubeAnimator.progress.
  apply Q.min_glb; [| apply Qle_refl].
  apply Qle_shift_div_l; [exact Hd |]. now rewrite Qmult_1_l.
Qed.


(** A frame late enough ends the animation in flight. *)
Lemma frame_ends now w cb :
  raf w = Some cb → _queue (animator (ctl w)) = [] →
  (0 < duration (animator (ctl w)))%Q →
  (duration (animator (ctl w)) <= now - startTime cb)%Q →
  on_frame now w = CubeController.resume now (anim_resolve cb) (ended w).
Proof.
  intros Hr Hq Hd He.
  destruct (on_frame_cases now w cb Hr Hq) as [[H _] | [_ H]]; [| exact H].
  rewrite (progress_done _ _ _ Hd He) in H. discriminate.
Qed.

Lemma due_time (st d : Q) : (d <= (st + d) - st)%Q.
Proof. lra. Qed.

(** ** Uninterrupted playback *)

Section Playback.

#[local] Arguments CubeModel.applyMove : simpl never.
#[local] Arguments Qle_bool : simpl never.
#[local] Arguments CubeAnimator.progress : simpl never.

Lemma play_starts t0 w :
  idle w → observed w → grid6x9 (grid w) → Forall parser_move (moves (ctl w)) →
  cursor w = 0%nat → (1 ≤ length (moves (ctl w)))%nat →
  ∃ w1, CubeController.play t0 w = Some w1 ∧ playing_at w 0 w1.
Proof.
  intros (Hip & Hia & Hq & Hr) (Hos & Hop) Hg Hms Hc Hn.
  open_world w. fields. subst.
  destruct ms as [|m ms]; [simpl in Hn; lia |].
  apply Forall_cons in Hms as [Hm _].
  destruct (applyMove_ok m (mkCubeModel fs h) Hg Hm) as (_ & fs' & _ & Hap & Hg' & _).
  unfold CubeController.play, CubeController._notifyPlayState, CubeController.play_loop,
    CubeController._executeStep, CubeController.animateMove.
  fields. rewrite Hap. simpl.
  eexists. split; [reflexivity |].
  unfold playing_at. simpl. exists (mkAnimation m K_play t0), (mkCubeModel fs' h).
  split; [reflexivity |]. split; [exact Hg' |]. split; [lia | reflexivity].
Qed.

(** What the loop does when the animation of step [k] has ended. *)
Lemma play_continues now w0 k w cb :
  Forall parser_move (moves (ctl w0)) →
  playing_at w0 k w → raf w = Some cb →
  ∃ w', CubeController.resume now (anim_resolve cb) (ended w) = Some w' ∧
    ((S k < length (moves (ctl w0)))%nat ∧ playing_at w0 (S k) w'
     ∨ S k = length (moves (ctl w0)) ∧ played w0 w').
Proof.
  intros Hms (cb' & cm & Hk & Hg & Hlt & ->) [= <-].
  rewrite Hk. unfold CubeController.resume, ended, CubeController._notifyStep.
  fields. rewrite Nat.add_1_r.
  unfold CubeController.play_loop. fields.
  destruct (S k <? length (moves (ctl w0)))%nat eqn:Hnext; simpl.
  - apply Nat.ltb_lt in Hnext.
    destruct (lookup_lt_is_Some_2 _ _ Hnext) as [m Hm].
    assert (Hpm : parser_move m) by (eapply Forall_lookup_1; eassumption).
    destruct (applyMove_ok m cm Hg Hpm) as (_ & fs' & _ & Hap & Hg' & _).
    rewrite Hm. simpl. unfold CubeController._executeStep. fields. rewrite Hap. simpl.
    eexists. split; [reflexivity |]. left. split; [exact Hnext |].
    unfold CubeController.animateMove. simpl.
    exists (mkAnimation m K_play now), (mkCubeModel fs' (history cm)).
    split; [reflexivity |]. split; [exact Hg' |].
    split; [exact Hnext |].
    rewrite seq_S, map_app. simpl. rewrite <- app_assoc. reflexivity.
  - apply Nat.ltb_ge in Hnext. assert (Hend : S k = length (moves (ctl w0))) by lia.
    eexists. split; [reflexivity |]. right. split; [exact Hend |].
    unfold CubeController._notifyPlayState. simpl.
    exists cm. rewrite <- Hend. unfold play_log.
    rewrite seq_S, map_app. simpl. rewrite <- !app_assoc. reflexivity.
Qed.

Lemma play_frame now w0 k w :
  Forall parser_move (moves (ctl w0)) → playing_at w0 k w →
  ∃ w', on_frame now w = Some w' ∧
    (playing_at w0 k w' ∨ playing_at w0 (S k) w' ∨ played w0 w').
Proof.
  intros Hms Hp. pose proof Hp as (cb & cm & Hk & Hg & Hlt & Hw).
  assert (Hr : raf w = Some cb) by (subst w; reflexivity).
  assert (Hq : _queue (animator (ctl w)) = []) by (subst w; reflexivity).
  destruct (on_frame_cases now w cb Hr Hq) as [[_ ->] | [_ ->]].
  - exists w. split; [reflexivity | left; exact Hp].
  - destruct (play_continues now w0 k w cb Hms Hp Hr) as (w' & -> & [[_ H] | [_ H]]);
      exists w'; split; try reflexivity; [right; left | right; right]; exact H.
Qed.

Lemma played_frame now w0 w : played w0 w → on_frame now w = Some w.
Proof. intros (cm & ->). reflexivity. Qed.

(** Frames only: playback is somewhere in its loop or over. *)
Lemma play_frames ts : ∀ w0 w,
  Forall parser_move (moves (ctl w0)) →
  (∃ k, playing_at w0 k w) ∨ played w0 w →
  ∃ w', run (frames ts) w = Some w' ∧ ((∃ k, playing_at w0 k w') ∨ played w0 w').
Proof.
  induction ts as [|t ts IH]; intros w0 w Hms H; simpl.
  - exists w. split; [reflexivity | exact H].
  - destruct H as [[k Hp] | Hp].
    + destruct (play_frame t w0 k w Hms Hp) as (w1 & -> & H1). simpl.
      apply IH; [exact Hms |].
      destruct H1 as [H1 | [H1 | H1]]; [left; eauto | left; eauto | right; exact H1].
    + rewrite (played_frame t w0 w Hp). simpl. apply IH; [exact Hms | right; exact Hp].
Qed.

(** Frames that come when the animation is due end the playback. *)
Lemma play_finishes w0 n : ∀ k w,
  Forall parser_move (moves (ctl w0)) → (0 < duration (animator (ctl w0)))%Q →
  (length (moves (ctl w0)) = k + S n)%nat → playing_at w0 k w →
  ∃ ts w', run (frames ts) w = Some w' ∧ played w0 w'.
Proof.
  induction n as [|n IH]; intros k w Hms Hd Hlen Hp;
    pose proof Hp as (cb & cm & Hk & Hg & Hlt & Hw);
    assert (Hr : raf w = Some cb) by (subst w; reflexivity);
    assert (Hq : _queue (animator (ctl w)) = []) by (subst w; reflexivity);
    assert (Hdw : duration (animator (ctl w)) = duration (animator (ctl w0)))
      by (subst w; reflexivity);
    pose proof (frame_ends (startTime cb + duration (animator (ctl w))) w cb Hr Hq) as Hf;
    rewrite Hdw in Hf; specialize (Hf Hd (due_time _ _));
    destruct (play_continues (startTime cb + duration (animator (ctl w0))) w0 k w cb Hms Hp Hr)
      as (w' & Hres & [[Hmore Hp'] | [Hend Hp']]); try lia.
  - exists [(startTime cb + duration (animator (ctl w0)))%Q], w'. simpl.
    rewrite Hf, Hres. split; [reflexivity | exact Hp'].
  - destruct (IH (S k) w' Hms Hd ltac:(lia) Hp') as (ts & w'' & Hrun & Hdone).
    exists ((startTime cb + duration (animator (ctl w0)))%Q :: ts), w''. simpl.
    rewrite Hf, Hres. simpl. split; [exact Hrun | exact Hdone].
Qed.

Lemma step_notifications_steps n k :
  step_notifications (map (λ i, StepChange i n) (seq 1 k)) = k.
Proof.
  unfold step_notifications. generalize 1%nat.
  induction k as [|k IH]; intros s; simpl; [reflexivity | now rewrite IH].
Qed.

Lemma stopped_notifications_steps n k :
  stopped_notifications (map (λ i, StepChange i n) (seq 1 k)) = 0%nat.
Proof.
  unfold stopped_notifications. generalize 1%nat.
  induction k as [|k IH]; intros s; simpl; [reflexivity | apply IH].
Qed.

Lemma play_log_counts n :
  step_notifications (play_log n) = n ∧ stopped_notifications (play_log n) = 1%nat.
Proof.
  pose proof (step_notifications_steps n n) as Hs.
  pose proof (stopped_notifications_steps n n) as Hp.
  unfold play_log, step_notifications, stopped_notifications in *. simpl.
  rewrite !List.filter_app, !length_app, Hs, Hp. simpl. split; lia.
Qed.

Lemma since_app w0 w l : log w = (log w0 ++ l)%list → since w0 w = l.
Proof. intros H. unfold since. rewrite H. apply drop_app_length. Qed.

End Playback.

(** C4, as the code has it.  With an algorithm of length N >= 1 loaded, the
    cursor at 0, nothing playing, animating or queued and both callbacks
    registered, a call of [play()] followed by animation frames only runs to
    completion (with a positive duration, frames that come when the
    animation is due end it), and once it has, [currentStep] is N and since
    the call exactly N step notifications and exactly one play-state
    notification with [isPlaying = false] have fired: the notifications are
    play-state true, steps 1 to N, play-state false, in this order. *)
Theorem play_runs_to_completion (w : World) (t0 : Q) :
  idle w → observed w → grid6x9 (grid w) → Forall parser_move (moves (ctl w)) →
  cursor w = 0%nat → (1 ≤ length (moves (ctl w)))%nat →
  ((0 < duration (animator (ctl w)))%Q →
   ∃ ts w', run ((t0, Call_play) :: frames ts) w = Some w' ∧ animating w' = false) ∧
  (∀ ts, ∃ w', run ((t0, Call_play) :: frames ts) w = Some w' ∧
     (animating w' = false →
        cursor w' = length (moves (ctl w)) ∧
        isPlaying (ctl w') = false ∧
        since w w' = play_log (length (moves (ctl w))) ∧
        step_notifications (since w w') = length (moves (ctl w)) ∧
        stopped_notifications (since w w') = 1%nat)).
Proof.
  intros Hidle Hobs Hg Hms Hc Hn.
  destruct (play_starts t0 w Hidle Hobs Hg Hms Hc Hn) as (w1 & Hplay & Hp).
  split.
  - intros Hd. destruct (length (moves (ctl w))) as [|n] eqn:Hlen; [lia |].
    destruct (play_finishes w n 0 w1 Hms Hd Hlen Hp) as (ts & w' & Hrun & cm & ->).
    exists ts. eexists. simpl. rewrite Hplay. simpl. split; [exact Hrun | reflexivity].
  - intros ts.
    destruct (play_frames ts w w1 Hms (or_introl (ex_intro _ 0%nat Hp))) as (w' & Hrun & H).
    exists w'. simpl. rewrite Hplay. simpl. split; [exact Hrun |].
    intros Ha. destruct H as [[k (cb & cm & _ & _ & _ & ->)] | (cm & ->)]; [discriminate Ha |].
    assert (Hs : since w (mkWorld
               (mkCubeController cm
                  (mkCubeAnimator false [] (Some K_play) (duration (animator (ctl w))))
                  (moves (ctl w)) (setupMoves (ctl w)) (length (moves (ctl w)))
                  false false true true) None
               (log w ++ play_log (length (moves (ctl w))))) = play_log (length (moves (ctl w))))
      by (apply since_app; reflexivity).
    rewrite Hs. destruct (play_log_counts (length (moves (ctl w)))) as [H1 H2].
    repeat split; assumption.
Qed.

Lemma play_runs_to_completion_witness :
  (∃ ts w', run ((5%Q, Call_play) :: frames ts) loaded_world = Some w'
            ∧ animating w' = false) ∧
  (∀ ts, ∃ w', run ((5%Q, Call_play) :: frames ts) loaded_world = Some w' ∧
     (animating w' = false →
        cursor w' = length (moves (ctl loaded_world)) ∧
        isPlaying (ctl w') = false ∧
        since loaded_world w' = play_log (length (moves (ctl loaded_world))) ∧
        step_notifications (since loaded_world w') = length (moves (ctl loaded_world)) ∧
        stopped_notifications (since loaded_world w') = 1%nat)).
Proof.
  destruct (play_runs_to_completion loaded_world 5%Q) as [Hends Hall].
  - repeat split.
  - split; reflexivity.
  - repeat split.
  - destruct (parse_total "R U R' U'") as (ms & Hparse & Hms).
    vm_compute in Hparse. injection Hparse as <-. exact Hms.
  - reflexivity.
  - vm_compute. lia.
  - split; [apply Hends; reflexivity | exact Hall].
Defined.

(** C4 as stated fails for the empty algorithm: with the cursor at the end,
    [play()] first resets, which notifies a step and a stop of its own. *)
Lemma play_of_empty_algorithm :
  ∃ w w',
    run [ (0%Q, Set_callbacks true true);
          (0%Q, Call_loadAlgorithm "" "") ] CubeController.new = Some w ∧
    cursor w = 0%nat ∧ length (moves (ctl w)) = 0%nat ∧
    run [ (1%Q, Call_play) ] w = Some w' ∧
    animating w' = false ∧ isPlaying (ctl w') = false ∧
    cursor w' = length (moves (ctl w)) ∧
    step_notifications (since w w') = 1%nat ∧
    stopped_notifications (since w w') = 2%nat.
Proof.
  eexists. eexists. split; [vm_compute; reflexivity |].
  split; [reflexivity |]. split; [reflexivity |].
  split; [vm_compute; reflexivity |].
  repeat split.
Qed.

(** ** Single steps *)

Section Stepping.

#[local] Arguments CubeModel.applyMove : simpl never.
#[local] Arguments Move_inverse : simpl never.
#[local] Arguments Qle_bool : simpl never.
#[local] Arguments CubeAnimator.progress : simpl never.

Lemma idle_settled w :
  idle w → settled (model (ctl w)) (cursor w) w w.
Proof.
  intros (Hip & Hia & Hq & Hr). open_world w. fields. subst.
  exists cr, lg. reflexivity.
Qed.

Lemma stepForward_starts t w0 w cm c m cm' :
  settled cm c w0 w → moves (ctl w0) !! c = Some m →
  CubeModel.applyMove m false cm = Some cm' →
  ∃ w', CubeController.stepForward t w = Some w' ∧ stepping K_stepForward cm' c w0 w'.
Proof.
  intros (cr & lg & ->) Hm Hap.
  unfold CubeController.stepForward. fields.
  assert (Hlt : (c < length (moves (ctl w0)))%nat) by (eapply lookup_lt_Some; eassumption).
  apply Nat.leb_gt in Hlt. rewrite Hlt, Hm. simpl.
  unfold CubeController._executeStep. fields. rewrite Hap. simpl.
  eexists. split; [reflexivity |].
  exists (mkAnimation m K_stepForward t), lg. split; reflexivity.
Qed.

Lemma stepBackward_starts t w0 w cm c m inv cm' :
  settled cm (S c) w0 w → moves (ctl w0) !! c = Some m →
  Move_inverse m = Some inv → CubeModel.applyMove inv false cm = Some cm' →
  ∃ w', CubeController.stepBackward t w = Some w' ∧ stepping K_stepBackward cm' c w0 w'.
Proof.
  intros (cr & lg & ->) Hm Hinv Hap.
  unfold CubeController.stepBackward. fields.
  rewrite Nat.sub_0_r, Hm. simpl. rewrite Hinv. simpl. rewrite Hap. simpl.
  eexists. split; [reflexivity |].
  exists (mkAnimation inv K_stepBackward t), lg. split; reflexivity.
Qed.

Lemma step_resumes now k cm c w0 w cb :
  k ≠ K_play → stepping k cm c w0 w → raf w = Some cb →
  ∃ w', CubeController.resume now (anim_resolve cb) (ended w) = Some w' ∧
        settled cm (cursor_after k c) w0 w'.
Proof.
  intros Hk (cb' & lg & Hres & ->) [= <-]. rewrite Hres.
  unfold CubeController.resume, ended, CubeController._notifyStep, settled. fields.
  destruct k; [contradiction | |]; simpl;
    destruct (onStepChange (ctl w0)); eexists; (split; [reflexivity |]);
    rewrite ?Nat.add_1_r; eexists _, _; reflexivity.
Qed.

Lemma step_frame now k cm c w0 w :
  k ≠ K_play → stepping k cm c w0 w →
  ∃ w', on_frame now w = Some w' ∧
        (stepping k cm c w0 w' ∨ settled cm (cursor_after k c) w0 w').
Proof.
  intros Hk Hs. pose proof Hs as (cb & lg & Hres & Hw).
  assert (Hr : raf w = Some cb) by (subst w; reflexivity).
  assert (Hq : _queue (animator (ctl w)) = []) by (subst w; reflexivity).
  destruct (on_frame_cases now w cb Hr Hq) as [[_ ->] | [_ ->]].
  - exists w. split; [reflexivity | left; exact Hs].
  - destruct (step_resumes now k cm c w0 w cb Hk Hs Hr) as (w' & -> & H').
    exists w'. split; [reflexivity | right; exact H'].
Qed.

Lemma settled_frame now cm c w0 w : settled cm c w0 w → on_frame now w = Some w.
Proof. intros (cr & lg & ->). reflexivity. Qed.

Lemma step_frames ts : ∀ k cm c w0 w,
  k ≠ K_play →
  stepping k cm c w0 w ∨ settled cm (cursor_after k c) w0 w →
  ∃ w', run (frames ts) w = Some w' ∧
        (stepping k cm c w0 w' ∨ settled cm (cursor_after k c) w0 w').
Proof.
  induction ts as [|t ts IH]; intros k cm c w0 w Hk H; simpl.
  - exists w. split; [reflexivity | exact H].
  - destruct H as [Hs | Hs].
    + destruct (step_frame t k cm c w0 w Hk Hs) as (w1 & -> & H1). simpl.
      apply IH; assumption.
    + rewrite (settled_frame t _ _ _ _ Hs). simpl. apply IH; [exact Hk | right; exact Hs].
Qed.

Lemma step_finishes k cm c w0 w :
  k ≠ K_play → (0 < duration (animator (ctl w0)))%Q → stepping k cm c w0 w →
  ∃ t w', run (frames [t]) w = Some w' ∧ settled cm (cursor_after k c) w0 w'.
Proof.
  intros Hk Hd Hs. pose proof Hs as (cb & lg & Hres & Hw).
  assert (Hr : raf w = Some cb) by (subst w; reflexivity).
  assert (Hq : _queue (animator (ctl w)) = []) by (subst w; reflexivity).
  assert (Hdw : duration (animator (ctl w)) = duration (animator (ctl w0)))
    by (subst w; reflexivity).
  pose proof (frame_ends (startTime cb + duration (animator (ctl w))) w cb Hr Hq) as Hf.
  rewrite Hdw in Hf. specialize (Hf Hd (due_time _ _)).
  destruct (step_resumes (startTime cb + duration (animator (ctl w0))) k cm c w0 w cb Hk Hs Hr)
    as (w' & Hres' & H').
  exists (startTime cb + duration (animator (ctl w0)))%Q, w'. simpl.
  rewrite Hf, Hres'. split; [reflexivity | exact H'].
Qed.

Lemma stepping_animating k cm c w0 w : stepping k cm c w0 w → animating w = true.
Proof. intros (cb & lg & _ & ->). reflexivity. Qed.

Lemma settled_fields cm c w0 w :
  settled cm c w0 w → animating w = false ∧ grid w = faces cm ∧ cursor w = c.
Proof. intros (cr & lg & ->). repeat split. Qed.

End Stepping.

(** C5.  From an idle controller (nothing playing, animating or queued)
    with the cursor at k, 0 <= k < length of the algorithm, [stepForward()]
    awaited and then [stepBackward()] awaited restore the exact facelet grid
    and leave [currentStep] at k.  Awaiting means animation frames until the
    animation is over; with a positive duration, frames that come when it is
    due end it. *)
Theorem stepForward_then_stepBackward (w : World) (t1 t2 : Q) :
  idle w → grid6x9 (grid w) → Forall parser_move (moves (ctl w)) →
  (cursor w < length (moves (ctl w)))%nat →
  ((0 < duration (animator (ctl w)))%Q →
   ∃ ts1 ts2 w1 w2,
     run ((t1, Call_stepForward) :: frames ts1) w = Some w1 ∧ animating w1 = false ∧
     run ((t2, Call_stepBackward) :: frames ts2) w1 = Some w2 ∧ animating w2 = false) ∧
  (∀ ts1 ts2, ∃ w1,
     run ((t1, Call_stepForward) :: frames ts1) w = Some w1 ∧
     (animating w1 = false →
        cursor w1 = S (cursor w) ∧
        ∃ w2, run ((t2, Call_stepBackward) :: frames ts2) w1 = Some w2 ∧
          (animating w2 = false → grid w2 = grid w ∧ cursor w2 = cursor w))).
Proof.
  intros Hidle Hg Hms Hlt.
  pose proof (idle_settled w Hidle) as H0.
  destruct (lookup_lt_is_Some_2 _ _ Hlt) as [m Hm].
  assert (Hpm : parser_move m) by (eapply Forall_lookup_1; eassumption).
  destruct (applyMove_ok m (model (ctl w)) Hg Hpm) as (inv & fs' & Hinv & Hap & _ & Hback).
  set (cm' := mkCubeModel fs' (history (model (ctl w)))) in *.
  assert (Hf : K_stepForward ≠ K_play) by discriminate.
  assert (Hb : K_stepBackward ≠ K_play) by discriminate.
  destruct (stepForward_starts t1 w w _ _ m cm' H0 Hm Hap) as (wa & Ha & Hsa).
  split.
  - intros Hd. destruct (step_finishes _ _ _ _ _ Hf Hd Hsa) as (ta & w1 & Hrun1 & Hs1).
    destruct (stepBackward_starts t2 w w1 _ _ m inv _ Hs1 Hm Hinv Hback) as (wb & Hb' & Hsb).
    destruct (step_finishes _ _ _ _ _ Hb Hd Hsb) as (tb & w2 & Hrun2 & Hs2).
    exists [ta], [tb], w1, w2.
    change (run ((t1, Call_stepForward) :: frames [ta]) w)
      with (w' ← CubeController.stepForward t1 w; run (frames [ta]) w').
    change (run ((t2, Call_stepBackward) :: frames [tb]) w1)
      with (w' ← CubeController.stepBackward t2 w1; run (frames [tb]) w').
    rewrite Ha, Hb'. simpl mbind.
    split; [exact Hrun1 |]. split; [apply (settled_fields _ _ _ _ Hs1) |].
    split; [exact Hrun2 | apply (settled_fields _ _ _ _ Hs2)].
  - intros ts1 ts2.
    destruct (step_frames ts1 _ _ _ _ wa Hf (or_introl Hsa)) as (w1 & Hrun1 & H1).
    exists w1.
    change (run ((t1, Call_stepForward) :: frames ts1) w)
      with (w' ← CubeController.stepForward t1 w; run (frames ts1) w').
    rewrite Ha. simpl mbind. split; [exact Hrun1 |].
    intros Han1. destruct H1 as [H1 | Hs1];
      [rewrite (stepping_animating _ _ _ _ _ H1) in Han1; discriminate |].
    split; [apply (settled_fields _ _ _ _ Hs1) |].
    destruct (stepBackward_starts t2 w w1 _ _ m inv _ Hs1 Hm Hinv Hback) as (wb & Hb' & Hsb).
    destruct (step_frames ts2 _ _ _ _ wb Hb (or_introl Hsb)) as (w2 & Hrun2 & H2).
    exists w2.
    change (run ((t2, Call_stepBackward) :: frames ts2) w1)
      with (w' ← CubeController.stepBackward t2 w1; run (frames ts2) w').
    rewrite Hb'. simpl mbind. split; [exact Hrun2 |].
    intros Han2. destruct H2 as [H2 | Hs2];
      [rewrite (stepping_animating _ _ _ _ _ H2) in Han2; discriminate |].
    destruct (settled_fields _ _ _ _ Hs2) as (_ & Hgrid & Hcur).
    split; assumption.
Qed.

Lemma stepForward_then_stepBackward_witness :
  (∃ ts1 ts2 w1 w2,
     run ((700%Q, Call_stepForward) :: frames ts1) midway_world = Some w1 ∧
     animating w1 = false ∧
     run ((1200%Q, Call_stepBackward) :: frames ts2) w1 = Some w2 ∧
     animating w2 = false) ∧
  (∀ ts1 ts2, ∃ w1,
     run ((700%Q, Call_stepForward) :: frames ts1) midway_world = Some w1 ∧
     (animating w1 = false →
        cursor w1 = S (cursor midway_world) ∧
        ∃ w2, run ((1200%Q, Call_stepBackward) :: frames ts2) w1 = Some w2 ∧
          (animating w2 = false →
             grid w2 = grid midway_world ∧ cursor w2 = cursor midway_world))).
Proof.
  destruct (stepForward_then_stepBackward midway_world 700%Q 1200%Q) as [Hends Hall].
  - repeat split.
  - repeat split.
  - destruct (parse_total "R U R' U'") as (ms & Hparse & Hms).
    vm_compute in Hparse. injection Hparse as <-. exact Hms.
  - vm_compute. lia.
  - split; [apply Hends; reflexivity | exact Hall].
Defined.

(** ** Doubles *)






(** ** Speed *)





(** The duration [setSpeed(7)] stores is the double 42.857142857142854,
    6031606643799771 / 2^47, just below 300 / 7: a frame at which exactly
    that much has elapsed ends the animation in flight, one at which a
    unit in the last place less has elapsed does not. *)
Example setSpeed_seven :
  nearest_double (300 / 7) = (6031606643799771 # 140737488355328)%Q ∧
  (nearest_double (300 / 7) < 300 / 7)%Q ∧
  ∃ w, run [ (0%Q, Call_loadAlgorithm "R U" ""); (0%Q, Call_stepForward);
             (10%Q, Call_setSpeed 7%Q) ] CubeController.new = Some w ∧
    animating w = true ∧
    (∃ w1, run [ ((6031606643799770 # 140737488355328)%Q, AnimationFrame) ] w = Some w1
           ∧ animating w1 = true) ∧
    (∃ w2, run [ ((6031606643799771 # 140737488355328)%Q, AnimationFrame) ] w = Some w2
           ∧ animating w2 = false).
Proof.
  split; [vm_compute; reflexivity |].
  split; [vm_compute; reflexivity |].
  eexists. split; [vm_compute; reflexivity |]. split; [reflexivity |].
  split; eexists; (split; [vm_compute; reflexivity | reflexivity]).
Qed.


(** The scenario of the specification: the speed set twice before the first
    move starts, the later value counts. *)
Example setSpeed_twice_before_first_move :
  ∃ w, run [ (0%Q, Call_loadAlgorithm "R" ""); (0%Q, Call_setSpeed 2%Q);
             (0%Q, Call_setSpeed (1 # 2)%Q); (0%Q, Call_stepForward);
             (599%Q, AnimationFrame) ] CubeController.new = Some w ∧
       animating w = true ∧
       ∃ w', run [ (600%Q, AnimationFrame) ] w = Some w' ∧ animating w' = false.
Proof.
  eexists. split; [vm_compute; reflexivity |]. split; [reflexivity |].
  eexists. split; [vm_compute; reflexivity | reflexivity].
Qed.

(** ** The progress store *)

Section Progress.

Variable JSON_parse : string → option jsval.
Variable builtin_truthy : jsval → string → bool.

#[local] Arguments includes : simpl never.

#[local] Abbreviation _getAll := (ProgressTracker._getAll JSON_parse).
#[local] Abbreviation isCompleted :=
  (ProgressTracker.isCompleted JSON_parse builtin_truthy).
#[local] Abbreviation countCompleted :=
  (ProgressTracker.countCompleted JSON_parse builtin_truthy).
#[local] Abbreviation getProgress :=
  (ProgressTracker.getProgress JSON_parse builtin_truthy).




Lemma countCompleted_le (ids : list string) (localStorage : gmap string string) :
  (countCompleted ids localStorage ≤ length ids)%nat.
Proof. apply List.filter_length_le. Qed.


(** The reads look an identifier up with [data[id]], which also finds what
    the empty object inherits: for a name such as [constructor], which no
    algorithm of the site bears, they answer through the prototype,
    whatever [JSON.parse] and the built-in prototypes do. *)
Example inherited_name_reads_completed :
  isCompleted "constructor" ∅ = true ∧
  countCompleted ["oll-1"; "constructor"] ∅ = 1%nat ∧
  (getProgress ["constructor"] ∅ == 1)%Q.
Proof. repeat split. Qed.

(** C10.  [getProgress] of the empty list is exactly 0, no division taking
    place; of a non-empty list it is [countCompleted(ids)] divided by
    [ids.length], a number between 0 and 1. *)
Theorem getProgress_bounds (ids : list string) (localStorage : gmap string string) :
  ids ≠ [] →
  getProgress [] localStorage = 0%Q ∧
  getProgress ids localStorage =
    (inject_Z (Z.of_nat (countCompleted ids localStorage))
     / inject_Z (Z.of_nat (length ids)))%Q ∧
  (0 <= getProgress ids localStorage)%Q ∧
  (getProgress ids localStorage <= 1)%Q.
Proof.
  intros Hne. split; [reflexivity |].
  assert (Hlen : (0 < length ids)%nat) by (destruct ids; [contradiction | simpl; lia]).
  assert (Heq : getProgress ids localStorage =
    (inject_Z (Z.of_nat (countCompleted ids localStorage))
     / inject_Z (Z.of_nat (length ids)))%Q).
  { unfold ProgressTracker.getProgress.
    destruct (length ids =? 0)%nat eqn:E; [apply Nat.eqb_eq in E; lia | reflexivity]. }
  split; [exact Heq |]. rewrite Heq.
  pose proof (countCompleted_le ids localStorage) as Hle.
  assert (Hpos : (0 < inject_Z (Z.of_nat (length ids)))%Q).
  { change 0%Q with (inject_Z 0). rewrite <- Zlt_Qlt. lia. }
  split.
  - apply Qle_shift_div_l; [exact Hpos |]. rewrite Qmult_0_l.
    change 0%Q with (inject_Z 0). rewrite <- Zle_Qle. lia.
  - apply Qle_shift_div_r; [exact Hpos |]. rewrite Qmult_1_l.
    rewrite <- Zle_Qle. lia.
Qed.

End Progress.


Lemma getProgress_bounds_witness :
  ProgressTracker.getProgress (λ _, None) (λ _ _, false) [] ∅ = 0%Q ∧
  ProgressTracker.getProgress (λ _, None) (λ _ _, false) ["pll-ua"; "toString"; "pll-h"] ∅ =
    (inject_Z (Z.of_nat (ProgressTracker.countCompleted (λ _, None) (λ _ _, false)
                           ["pll-ua"; "toString"; "pll-h"] ∅))
     / inject_Z (Z.of_nat (length ["pll-ua"; "toString"; "pll-h"])))%Q ∧
  (0 <= ProgressTracker.getProgress (λ _, None) (λ _ _, false)
          ["pll-ua"; "toString"; "pll-h"] ∅)%Q ∧
  (ProgressTracker.getProgress (λ _, None) (λ _ _, false)
     ["pll-ua"; "toString"; "pll-h"] ∅ <= 1)%Q.
Proof.
  apply (getProgress_bounds (λ _, None) (λ _ _, false) ["pll-ua"; "toString"; "pll-h"] ∅).
  discriminate.
Defined.

(** * More of the sources: properties *)

(** ** The parser and white space *)

Lemma then_moves_nil_r o : then_moves o (Some []) = o.
Proof. destruct o as [ms|]; simpl; [now rewrite app_nil_r | reflexivity]. Qed.

Lemma then_moves_nil_l o : then_moves (Some []) o = o.
Proof. destruct o; reflexivity. Qed.

Lemma then_moves_cons m o1 o2 :
  then_moves (ms ← o1; Some (m :: ms)) o2 = (ms ← then_moves o1 o2; Some (m :: ms)).
Proof. destruct o1, o2; reflexivity. Qed.

Lemma then_moves_emit (om : option Move) o1 o2 :
  then_moves (m ← om; ms ← o1; Some (m :: ms)) o2 =
  (m ← om; ms ← then_moves o1 o2; Some (m :: ms)).
Proof. destruct om, o1, o2; reflexivity. Qed.

Lemma ws_not_face c : is_ws c = true → is_face_letter c = false.
Proof.
  destruct c as [[] [] [] [] [] [] [] []]; try discriminate; reflexivity.
Qed.

Lemma ws_not_modifier c : is_ws c = true → is_modifier c = false.
Proof.
  destruct c as [[] [] [] [] [] [] [] []]; try discriminate; reflexivity.
Qed.

(** The token loop, one character at a time: what it does with the head
    depends on the next character only through [is_modifier]. *)
Lemma scan_skip c r :
  is_face_letter c = false → MoveParser.scan (String c r) = MoveParser.scan r.
Proof. intros H. rewrite scan_cons. cbv zeta. unfold is_face_letter in H. now rewrite H. Qed.

Lemma scan_face_end c :
  is_face_letter c = true →
  MoveParser.scan (String c "") =
  (m ← Move_new (String (upper_char c) "") false false (is_lower c); Some [m]).
Proof.
  intros H. rewrite scan_cons. cbv zeta. unfold is_face_letter in H. rewrite H. simpl.
  destruct (Move_new _ _ _ _); reflexivity.
Qed.

Lemma scan_face_plain c n r :
  is_face_letter c = true → is_modifier n = false →
  MoveParser.scan (String c (String n r)) =
  (m ← Move_new (String (upper_char c) "") false false (is_lower c);
   ms ← MoveParser.scan (String n r); Some (m :: ms)).
Proof.
  intros H Hn. rewrite scan_cons. cbv zeta. unfold is_face_letter in H. rewrite H.
  unfold is_modifier in Hn. apply orb_false_iff in Hn as [-> ->]. reflexivity.
Qed.

Lemma scan_face_modified c n r :
  is_face_letter c = true → is_modifier n = true →
  MoveParser.scan (String c (String n r)) =
  (m ← Move_new (String (upper_char c) "") (Ascii.eqb n "'") (negb (Ascii.eqb n "'"))
         (is_lower c);
   ms ← MoveParser.scan r; Some (m :: ms)).
Proof.
  intros H Hn. rewrite scan_cons. cbv zeta. unfold is_face_letter in H. rewrite H.
  unfold is_modifier in Hn. cbn [negb].
  destruct (Ascii.eqb n "'"); [reflexivity |].
  simpl in Hn. rewrite Hn. reflexivity.
Qed.

(** A character that is neither a face letter nor a modifier cuts the text
    in two parts that are scanned independently. *)
Lemma scan_cut n : ∀ a c b,
  (String.length a ≤ n)%nat → is_face_letter c = false → is_modifier c = false →
  MoveParser.scan (a ++ String c b) = then_moves (MoveParser.scan a) (MoveParser.scan b).
Proof.
  induction n as [|n IH]; intros [|x a] c b Hlen Hf Hm; simpl in Hlen; try lia.
  - rewrite append_nil, (scan_skip _ _ Hf). now rewrite then_moves_nil_l.
  - rewrite append_nil, (scan_skip _ _ Hf). now rewrite then_moves_nil_l.
  - rewrite append_cons.
    destruct (is_face_letter x) eqn:Hx.
    + destruct a as [|y a].
      * rewrite append_nil, (scan_face_plain _ _ _ Hx Hm), (scan_face_end _ Hx).
        rewrite (scan_skip _ _ Hf).
        destruct (Move_new _ _ _ _); [| reflexivity]. simpl.
        destruct (MoveParser.scan b); reflexivity.
      * rewrite append_cons. destruct (is_modifier y) eqn:Hy.
        -- rewrite !(scan_face_modified _ _ _ Hx Hy), then_moves_emit.
           rewrite (IH a c b); [reflexivity | simpl in Hlen; lia | exact Hf | exact Hm].
        -- rewrite !(scan_face_plain _ _ _ Hx Hy), then_moves_emit.
           rewrite <- append_cons.
           rewrite (IH (String y a) c b); [reflexivity | simpl in *; lia | exact Hf | exact Hm].
    + rewrite !(scan_skip _ _ Hx). apply IH; [lia | exact Hf | exact Hm].
Qed.

Lemma scan_all_ws w : all_ws w = true → MoveParser.scan w = Some [].
Proof.
  induction w as [|c w IH]; [reflexivity |].
  intros H. simpl in H. apply andb_true_iff in H as [Hc Hw].
  rewrite (scan_skip _ _ (ws_not_face _ Hc)). now apply IH.
Qed.

Lemma scan_ws_l w s : all_ws w = true → MoveParser.scan (w ++ s) = MoveParser.scan s.
Proof.
  induction w as [|c w IH]; [reflexivity |].
  intros H. simpl in H. apply andb_true_iff in H as [Hc Hw].
  rewrite append_cons, (scan_skip _ _ (ws_not_face _ Hc)). now apply IH.
Qed.

Lemma scan_ws_r s w : all_ws w = true → MoveParser.scan (s ++ w) = MoveParser.scan s.
Proof.
  destruct w as [|c w]; [now rewrite append_empty_r |].
  intros H. simpl in H. apply andb_true_iff in H as [Hc Hw].
  rewrite (scan_cut (String.length s) s c w (le_n _) (ws_not_face _ Hc) (ws_not_modifier _ Hc)).
  rewrite (scan_all_ws _ Hw). apply then_moves_nil_r.
Qed.

(** A character that is no modifier starts a part that is scanned on its
    own. *)
Lemma scan_split n : ∀ a c b,
  (String.length a ≤ n)%nat → is_modifier c = false →
  MoveParser.scan (a ++ String c b) =
  then_moves (MoveParser.scan a) (MoveParser.scan (String c b)).
Proof.
  induction n as [|n IH]; intros [|x a] c b Hlen Hm; simpl in Hlen; try lia.
  - rewrite append_nil. now rewrite then_moves_nil_l.
  - rewrite append_nil. now rewrite then_moves_nil_l.
  - rewrite append_cons.
    destruct (is_face_letter x) eqn:Hx.
    + destruct a as [|y a].
      * rewrite append_nil, (scan_face_plain _ _ _ Hx Hm), (scan_face_end _ Hx).
        destruct (Move_new _ _ _ _); [| reflexivity]. simpl.
        destruct (MoveParser.scan (String c b)); reflexivity.
      * rewrite append_cons. destruct (is_modifier y) eqn:Hy.
        -- rewrite !(scan_face_modified _ _ _ Hx Hy), then_moves_emit.
           rewrite (IH a c b); [reflexivity | simpl in Hlen; lia | exact Hm].
        -- rewrite !(scan_face_plain _ _ _ Hx Hy), then_moves_emit.
           rewrite <- append_cons.
           rewrite (IH (String y a) c b); [reflexivity | simpl in *; lia | exact Hm].
    + rewrite !(scan_skip _ _ Hx). apply IH; [lia | exact Hm].
Qed.

(** White space put before a character that is no modifier changes
    nothing. *)
Lemma scan_insert_ws a w c b :
  is_modifier c = false → all_ws w = true →
  MoveParser.scan (a ++ w ++ String c b) = MoveParser.scan (a ++ String c b).
Proof.
  intros Hc Hw. rewrite (scan_split _ a c b (le_n _) Hc).
  destruct w as [|x w]; [rewrite append_nil; apply (scan_split _ a c b (le_n _) Hc) |].
  pose proof Hw as Hw'. simpl in Hw'. apply andb_true_iff in Hw' as [Hx _].
  rewrite append_cons.
  rewrite (scan_split _ a x (w ++ String c b) (le_n _) (ws_not_modifier _ Hx)).
  rewrite <- append_cons. now rewrite (scan_ws_l _ _ Hw).
Qed.

Lemma trimStart_split s : ∃ w, all_ws w = true ∧ s = w ++ trimStart s.
Proof.
  induction s as [|c s (w & Hw & IH)]; [exists ""; split; reflexivity |].
  simpl. destruct (is_ws c) eqn:Hc.
  - exists (String c w). split; [simpl; now rewrite Hc |].
    rewrite append_cons. now rewrite <- IH.
  - exists "". split; reflexivity.
Qed.

Lemma trimEnd_split s : ∃ w, all_ws w = true ∧ s = trimEnd s ++ w.
Proof.
  induction s as [|c s (w & Hw & IH)]; [exists ""; split; reflexivity |].
  change (trimEnd (String c s))
    with (match trimEnd s with
          | EmptyString => if is_ws c then EmptyString else String c EmptyString
          | r' => String c r'
          end).
  destruct (trimEnd s) as [|c' t] eqn:Ht.
  - rewrite append_nil in IH. subst w.
    destruct (is_ws c) eqn:Hc.
    + exists (String c s). split; [simpl; now rewrite Hc | reflexivity].
    + exists s. split; [exact Hw | reflexivity].
  - exists w. split; [exact Hw |]. rewrite append_cons. now rewrite <- IH.
Qed.

Lemma scan_trim s : MoveParser.scan (trim s) = MoveParser.scan s.
Proof.
  unfold trim.
  destruct (trimStart_split s) as (w1 & Hw1 & H1).
  destruct (trimEnd_split (trimStart s)) as (w2 & Hw2 & H2).
  rewrite H1 at 2. rewrite (scan_ws_l _ _ Hw1).
  rewrite H2 at 2. now rewrite (scan_ws_r _ _ Hw2).
Qed.

Lemma length_append a b : String.length (a ++ b) = (String.length a + String.length b)%nat.
Proof.
  induction a as [|c a IH]; [reflexivity |].
  rewrite append_cons. simpl. now rewrite IH.
Qed.

(** The first piece of a split is free of white space and ends at the end
    of the text or at its first white-space character. *)
Lemma split_go_head s :
  ∃ t ts, split_go false s = t :: ts ∧ no_ws t = true ∧
    (s = t ∧ ts = [] ∨
     ∃ c r, is_ws c = true ∧ s = t ++ String c r ∧ ts = split_go true r).
Proof.
  induction s as [|c s (t & ts & Hsplit & Ht & H)].
  - exists "", []. split; [reflexivity |]. split; [reflexivity |]. now left.
  - simpl. destruct (is_ws c) eqn:Hc.
    + exists "", (split_go true s). split; [reflexivity |]. split; [reflexivity |].
      right. exists c, s. repeat split. exact Hc.
    + rewrite Hsplit. exists (String c t), ts.
      split; [reflexivity |]. split; [simpl; now rewrite Hc |].
      destruct H as [[-> ->] | (c' & r & Hc' & -> & ->)].
      * now left.
      * right. exists c', r. repeat split. exact Hc'.
Qed.

Lemma scan_tokens_cons t ts :
  MoveParser.scan_tokens (t :: ts) =
  then_moves (MoveParser.scan t) (MoveParser.scan_tokens ts).
Proof. reflexivity. Qed.

(** Splitting at white space and scanning the pieces is scanning the text. *)
Lemma scan_tokens_split n : ∀ s b,
  (String.length s ≤ n)%nat →
  MoveParser.scan_tokens (split_go b s) = MoveParser.scan s.
Proof.
  induction n as [|n IH]; intros s b Hlen.
  - destruct s; [reflexivity | simpl in Hlen; lia].
  - assert (Hfalse : MoveParser.scan_tokens (split_go false s) = MoveParser.scan s).
    { destruct (split_go_head s) as (t & ts & -> & Ht & [[-> ->] | (c & r & Hc & -> & ->)]).
      - rewrite scan_tokens_cons. apply then_moves_nil_r.
      - rewrite scan_tokens_cons.
        rewrite (scan_cut (String.length t) t c r (le_n _)
                   (ws_not_face _ Hc) (ws_not_modifier _ Hc)).
        rewrite IH; [reflexivity |].
        rewrite length_append in Hlen. simpl in Hlen. lia. }
    destruct b; [| exact Hfalse].
    destruct s as [|c r]; [reflexivity |].
    destruct (is_ws c) eqn:Hc.
    + cbn [split_go]. rewrite Hc, (scan_skip _ _ (ws_not_face _ Hc)).
      apply IH. simpl in Hlen. lia.
    + rewrite <- Hfalse. cbn [split_go]. now rewrite Hc.
Qed.

(** [parse] and its token loop run over the whole text give the same. *)
Lemma parse_scan (text : string) :
  MoveParser.parse text = MoveParser.scan text.
Proof.
  unfold MoveParser.parse.
  destruct (String.eqb text "" || String.eqb (trim text) "") eqn:He.
  - rewrite <- (scan_trim text).
    apply orb_true_iff in He as [He | He]; apply String.eqb_eq in He.
    + subst. reflexivity.
    + now rewrite He.
  - unfold split_ws. rewrite (scan_tokens_split _ _ _ (le_n _)). apply scan_trim.
Qed.

(** X1.  White space only separates: put before a character that is no
    modifier, anywhere in the text, it does not change what [parse]
    returns; so tokens may be run together or spaced out at will. *)
Theorem parse_ignores_white_space (a w b : string) (c : ascii) :
  is_modifier c = false → all_ws w = true →
  MoveParser.parse (a ++ w ++ String c b) = MoveParser.parse (a ++ String c b).
Proof.
  intros Hc Hw. rewrite !parse_scan. apply scan_insert_ws; assumption.
Qed.

Lemma parse_ignores_white_space_witness :
  MoveParser.parse ("R2" ++ "  " ++ String "U" "'f") =
  MoveParser.parse ("R2" ++ String "U" "'f").
Proof.
  apply (parse_ignores_white_space "R2" "  " "'f" "U"); reflexivity.
Defined.

(** X2.  Concatenation: two texts joined by a character that is neither a
    face letter nor a modifier (a space, a line break, a comma) parse to the
    moves of the first followed by the moves of the second. *)
Theorem parse_joined (a b : string) (c : ascii) :
  is_face_letter c = false → is_modifier c = false →
  ∃ ms ms',
    MoveParser.parse a = Some ms ∧ MoveParser.parse b = Some ms' ∧
    MoveParser.parse (a ++ String c b) = Some (ms ++ ms')%list.
Proof.
  intros Hf Hm.
  destruct (parse_total a) as (ms & Ha & _), (parse_total b) as (ms' & Hb & _).
  exists ms, ms'. split; [exact Ha |]. split; [exact Hb |].
  rewrite parse_scan in *.
  rewrite (scan_cut _ a c b (le_n _) Hf Hm), Ha, Hb. reflexivity.
Qed.

Lemma parse_joined_witness :
  ∃ ms ms',
    MoveParser.parse "F2 d" = Some ms ∧ MoveParser.parse "R U R' U'" = Some ms' ∧
    MoveParser.parse ("F2 d" ++ String " " "R U R' U'") = Some (ms ++ ms')%list.
Proof.
  apply (parse_joined "F2 d" "R U R' U'" " "); reflexivity.
Defined.

Lemma scan_length n : ∀ s ms,
  (String.length s ≤ n)%nat → MoveParser.scan s = Some ms → length ms = count_faces s.
Proof.
  induction n as [|n IH]; intros [|c s] ms Hlen H; simpl in Hlen; try lia;
    try (injection H as <-; reflexivity).
  simpl. destruct (is_face_letter c) eqn:Hc.
  - destruct s as [|y s].
    + rewrite (scan_face_end _ Hc) in H. apply bind_Some in H as (m & _ & [= <-]). reflexivity.
    + destruct (is_modifier y) eqn:Hy.
      * rewrite (scan_face_modified _ _ _ Hc Hy) in H.
        apply bind_Some in H as (m & _ & H). apply bind_Some in H as (ms' & H & [= <-]).
        simpl. f_equal. rewrite (IH s ms'); [| simpl in Hlen; lia | exact H].
        assert (Hnf : is_face_letter y = false).
        { destruct y as [[] [] [] [] [] [] [] []]; try discriminate Hy; reflexivity. }
        now rewrite Hnf.
      * rewrite (scan_face_plain _ _ _ Hc Hy) in H.
        apply bind_Some in H as (m & _ & H). apply bind_Some in H as (ms' & H & [= <-]).
        simpl. f_equal. apply (IH (String y s) ms'); [simpl in *; lia | exact H].
  - rewrite (scan_skip _ _ Hc) in H. apply (IH s ms); [lia | exact H].
Qed.

(** X3.  Every face letter of the text yields exactly one move, whatever
    else the text holds: the sequence [parse] returns is as long as the
    text has face letters. *)
Theorem parse_length (text : string) :
  ∃ ms, MoveParser.parse text = Some ms ∧ length ms = count_faces text.
Proof.
  destruct (parse_total text) as (ms & H & _). exists ms. split; [exact H |].
  rewrite parse_scan in H. apply (scan_length _ _ _ (le_n _) H).
Qed.

(** X4.  A text without a face letter - empty, blank, modifiers or other
    characters only - parses to the empty sequence. *)
Theorem parse_without_faces (text : string) :
  count_faces text = 0%nat → MoveParser.parse text = Some [].
Proof.
  intros H0. destruct (parse_total text) as (ms & H & _).
  assert (Hlen : length ms = count_faces text).
  { rewrite parse_scan in H. apply (scan_length _ _ _ (le_n _) H). }
  rewrite H0 in Hlen. destruct ms; [exact H | discriminate Hlen].
Qed.

Lemma parse_without_faces_witness : MoveParser.parse "  '2 (x) 22' " = Some [].
Proof. apply (parse_without_faces "  '2 (x) 22' "). reflexivity. Defined.

(** X5.  The descriptors [parse] returns keep the invariant of the data
    model: [prime] and [double] are never both set, and each descriptor is
    the one [new Move] builds from its own face, [prime], [double] and
    [wide], so axis, layer, direction and angle are the derived ones. *)
Theorem parse_emits_constructed_moves (text : string) :
  ∃ ms, MoveParser.parse text = Some ms ∧
    Forall (λ m, prime m && double m = false ∧
                 Move_new (face m) (prime m) (double m) (wide m) = Some m) ms.
Proof.
  destruct (parse_total text) as (ms & H & Hall). exists ms. split; [exact H |].
  eapply Forall_impl; [exact Hall |].
  intros m (f & p & d & w & Hf & Hpd & Hm).
  known_face Hf; destruct p, d; try discriminate Hpd; destruct w;
    injection Hm as <-; split; reflexivity.
Qed.

(** ** Inverses *)

Lemma parser_move_check m :
  In (face m) FACES → prime m && double m = false →
  Move_new (face m) (prime m) (double m) (wide m) = Some m → parser_move m.
Proof. intros Hf Hpd Hm. exists (face m), (prime m), (double m), (wide m). auto. Qed.

(** [inverse()] of a descriptor the parser can build is again one, and
    its inverse is the descriptor. *)
Lemma inverse_twice m :
  parser_move m →
  ∃ inv, Move_inverse m = Some inv ∧ parser_move inv ∧ Move_inverse inv = Some m.
Proof.
  intros (f & p & d & w & Hf & Hpd & Hm).
  known_face Hf; destruct p, d; try discriminate Hpd; destruct w;
    injection Hm as <-; eexists; (split; [reflexivity |]);
    (split; [apply parser_move_check; [simpl; tauto | reflexivity | reflexivity] |]);
    reflexivity.
Qed.

(** X6.  On a descriptor the parser can build, [inverse()] does not throw
    and is an involution; it keeps face, wide flag, axis, layer and angle;
    for a quarter turn it flips [prime] and negates the direction, a half
    turn is its own inverse. *)
Theorem inverse_involution (m : Move) :
  parser_move m →
  ∃ inv, Move_inverse m = Some inv ∧ parser_move inv ∧ Move_inverse inv = Some m ∧
    face inv = face m ∧ wide inv = wide m ∧ axis inv = axis m ∧
    layer inv = layer m ∧ angle inv = angle m ∧
    (if double m then inv = m
     else prime inv = negb (prime m) ∧ direction inv = (- direction m)%Z).
Proof.
  intros (f & p & d & w & Hf & Hpd & Hm).
  known_face Hf; destruct p, d; try discriminate Hpd; destruct w;
    injection Hm as <-; eexists; (split; [reflexivity |]);
    (split; [apply parser_move_check; [simpl; tauto | reflexivity | reflexivity] |]);
    repeat split.
Qed.

Lemma inverse_involution_witness :
  ∃ inv, Move_inverse (mkMove "L" true false true "x" (-1) (-1) HALF_PI) = Some inv ∧
    parser_move inv ∧
    Move_inverse inv = Some (mkMove "L" true false true "x" (-1) (-1) HALF_PI) ∧
    face inv = "L" ∧ wide inv = true ∧ axis inv = "x" ∧
    layer inv = (-1)%Z ∧ angle inv = HALF_PI ∧
    (prime inv = negb true ∧ direction inv = (- -1)%Z).
Proof.
  apply (inverse_involution (mkMove "L" true false true "x" (-1) (-1) HALF_PI)).
  apply parser_move_check; [simpl; tauto | reflexivity | reflexivity].
Defined.

Lemma mapM_inverse ms :
  Forall parser_move ms →
  ∃ invs, mapM Move_inverse ms = Some invs ∧
    Forall2 (λ m inv, Move_inverse m = Some inv ∧ Move_inverse inv = Some m) ms invs ∧
    Forall parser_move invs.
Proof.
  induction 1 as [|m ms Hm _ (invs & Hmap & H2 & Hall)].
  - exists []. repeat split; constructor.
  - destruct (inverse_twice m Hm) as (inv & Hinv & Hpm & Hback).
    exists (inv :: invs). split; [| split].
    + cbn [mapM]. rewrite Hinv. simpl. rewrite Hmap. reflexivity.
    + constructor; [split; assumption | exact H2].
    + constructor; assumption.
Qed.

(** A sequence the parser can build, inverted twice. *)
Lemma inverse_moves_twice (ms : list Move) :
  Forall parser_move ms →
  ∃ invs, MoveParser.inverse_moves ms = Some invs ∧
    length invs = length ms ∧ Forall parser_move invs ∧
    MoveParser.inverse_moves invs = Some ms.
Proof.
  intros Hms. destruct (mapM_inverse ms Hms) as (invs & Hmap & H2 & Hall).
  exists (reverse invs). unfold MoveParser.inverse_moves.
  rewrite Hmap. split; [reflexivity |].
  split; [rewrite length_reverse; symmetry; eapply Forall2_length; exact H2 |].
  split; [now apply Forall_reverse |].
  assert (Hback : mapM Move_inverse (reverse invs) = Some (reverse ms)).
  { apply mapM_Some. apply Forall2_reverse. apply Forall2_flip.
    eapply Forall2_impl; [exact H2 |]. intros m inv [_ H]. exact H. }
  rewrite Hback. simpl. now rewrite reverse_involutive.
Qed.

(** X7.  [MoveParser.inverse] on a sequence the parser can build does not
    throw, returns as many moves, again ones the parser can build, and is
    an involution: the inverse of the inverse is the sequence itself. *)
Theorem inverse_sequence_involution (ms : list Move) :
  Forall parser_move ms →
  ∃ invs, MoveParser.inverse (inr ms) = Some invs ∧
    length invs = length ms ∧ Forall parser_move invs ∧
    MoveParser.inverse (inr invs) = Some ms.
Proof. apply inverse_moves_twice. Qed.

Lemma inverse_sequence_involution_witness :
  ∃ invs, MoveParser.inverse (inr (default [] (MoveParser.parse "R U2 f'"))) = Some invs ∧
    length invs = length (default [] (MoveParser.parse "R U2 f'")) ∧
    Forall parser_move invs ∧
    MoveParser.inverse (inr invs) = Some (default [] (MoveParser.parse "R U2 f'")).
Proof.
  apply (inverse_sequence_involution (default [] (MoveParser.parse "R U2 f'"))).
  destruct (parse_total "R U2 f'") as (ms & Hparse & Hms).
  rewrite Hparse. exact Hms.
Defined.

(** Moves and then their inverses, last first. *)
Lemma applyMoves_undone (ms : list Move) (cm : CubeModel) :
  Forall parser_move ms → grid6x9 (faces cm) →
  ∃ invs cm',
    MoveParser.inverse_moves ms = Some invs ∧
    CubeModel.applyMoves ms false cm = Some cm' ∧
    CubeModel.applyMoves invs false cm' = Some cm.
Proof.
  intros Hms. revert cm.
  induction Hms as [|m ms Hm _ IH]; intros cm Hg.
  - exists [], cm. repeat split.
  - destruct (applyMove_ok m cm Hg Hm) as (inv & fs1 & Hinv & H1 & Hg1 & Hback).
    destruct (IH (mkCubeModel fs1 (history cm)) Hg1) as (invs & cm' & Hinvs & Hfw & Hbw).
    unfold MoveParser.inverse_moves in *.
    destruct (mapM Move_inverse ms) as [k|] eqn:Hk; [| discriminate Hinvs].
    injection Hinvs as <-.
    exists (reverse k ++ [inv])%list, cm'.
    split; [cbn [mapM]; rewrite Hinv; simpl; rewrite Hk; simpl; now rewrite reverse_cons |].
    split; [simpl; rewrite H1; exact Hfw |].
    rewrite applyMoves_app, Hbw. simpl. now rewrite Hback.
Qed.

(** X8.  A sequence followed by its [MoveParser.inverse] restores the model:
    on a 6x9 grid, applying the moves and then the inverse sequence gives
    back every facelet (and, nothing being recorded, the history). *)
Theorem applyMoves_then_inverse (ms : list Move) (cm : CubeModel) :
  Forall parser_move ms → grid6x9 (faces cm) →
  ∃ invs cm',
    MoveParser.inverse (inr ms) = Some invs ∧
    CubeModel.applyMoves ms false cm = Some cm' ∧
    CubeModel.applyMoves invs false cm' = Some cm.
Proof. apply applyMoves_undone. Qed.

Lemma applyMoves_then_inverse_witness :
  ∃ invs cm',
    MoveParser.inverse (inr (default [] (MoveParser.parse "r U2 F' d"))) = Some invs ∧
    CubeModel.applyMoves (default [] (MoveParser.parse "r U2 F' d")) false
      (mkCubeModel (labelled sticker) []) = Some cm' ∧
    CubeModel.applyMoves invs false cm' = Some (mkCubeModel (labelled sticker) []).
Proof.
  apply (applyMoves_then_inverse (default [] (MoveParser.parse "r U2 F' d"))
           (mkCubeModel (labelled sticker) [])).
  - destruct (parse_total "r U2 F' d") as (ms & Hparse & Hms).
    rewrite Hparse. exact Hms.
  - repeat split.
Defined.

(** X28.  The inverse as setup: for every text, [MoveParser.inverse] of the
    text is a sequence that [toString] writes and [parse] reads back as it
    is; and with that sequence as setup, the model the cursor stands for at
    the end of the algorithm is the solved cube, which [isSolved] accepts. *)
Theorem inverse_setup_ends_solved (text : string) :
  ∃ ms invs,
    MoveParser.parse text = Some ms ∧
    MoveParser.inverse (inl text) = Some invs ∧
    MoveParser.parse (MoveParser.toString invs) = Some invs ∧
    expected invs ms (length ms) = Some CubeModel.new ∧
    CubeModel.isSolved CubeModel.new = Some true.
Proof.
  destruct (parse_total text) as (ms & Hparse & Hms).
  destruct (inverse_moves_twice ms Hms) as (invs & Hinv & _ & Hinvs & Hback).
  destruct (applyMoves_undone invs CubeModel.new Hinvs solved_grid)
    as (ms' & cm' & Hback' & Hfw & Hbw).
  rewrite Hback in Hback'. injection Hback' as <-.
  exists ms, invs. split; [exact Hparse |].
  split; [simpl; rewrite Hparse; exact Hinv |].
  split; [now apply parse_toString |].
  split; [| reflexivity].
  unfold expected. rewrite firstn_all, applyMoves_app, Hfw. exact Hbw.
Qed.

(** X29.  No single move the parser can build leaves the solved cube
    solved. *)
Theorem one_move_unsolves (m : Move) :
  parser_move m →
  (cm ← CubeModel.applyMove m false CubeModel.new; CubeModel.isSolved cm) = Some false.
Proof.
  intros (f & p & d & w & Hf & Hpd & Hm).
  known_face Hf; destruct p, d; try discriminate Hpd; destruct w;
    injection Hm as <-; vm_compute; reflexivity.
Qed.

Lemma one_move_unsolves_witness :
  (cm ← CubeModel.applyMove (mkMove "D" false true true "y" (-1) 1 PI) false CubeModel.new;
   CubeModel.isSolved cm) = Some false.
Proof.
  apply (one_move_unsolves (mkMove "D" false true true "y" (-1) 1 PI)).
  apply parser_move_check; [simpl; tauto | reflexivity | reflexivity].
Defined.

(** ** The state model *)

(** X9.  [applyMoves] with moves on known faces never throws on a 6x9 grid
    and leaves a 6x9 grid: every face keeps its nine slots.  The history
    grows by exactly the moves applied when recording, and not at all
    otherwise. *)
Theorem applyMoves_keeps_grid (ms : list Move) (r : bool) (cm : CubeModel) :
  Forall (λ m, In (face m) FACES) ms → grid6x9 (faces cm) →
  ∃ cm', CubeModel.applyMoves ms r cm = Some cm' ∧ grid6x9 (faces cm') ∧
         history cm' = (history cm ++ if r then ms else [])%list.
Proof.
  intros Hms. revert cm.
  induction Hms as [|m ms Hm _ IH]; intros cm Hg.
  - exists cm. split; [reflexivity |]. split; [exact Hg |].
    destruct r; now rewrite app_nil_r.
  - destruct (turn_ok _ _ Hg Hm) as (_ & fs1 & _ & _ & H1 & Hg1 & _).
    cbn [CubeModel.applyMoves]. rewrite applyMove_turn, H1. simpl.
    destruct (IH (mkCubeModel fs1 (if r then (history cm ++ [m])%list else history cm)) Hg1)
      as (cm' & Hrun & Hg' & Hh).
    exists cm'. split; [exact Hrun |]. split; [exact Hg' |].
    rewrite Hh. simpl. destruct r; [now rewrite <- app_assoc | reflexivity].
Qed.

Lemma applyMoves_keeps_grid_witness :
  ∃ cm', CubeModel.applyMoves
           [ mkMove "R" false false false "x" 1 (-1) HALF_PI;
             mkMove "U" true false true "y" 1 1 HALF_PI ] true CubeModel.new = Some cm' ∧
         grid6x9 (faces cm') ∧
         history cm' = (history CubeModel.new ++
                        [ mkMove "R" false false false "x" 1 (-1) HALF_PI;
                          mkMove "U" true false true "y" 1 1 HALF_PI ])%list.
Proof.
  apply (applyMoves_keeps_grid
           [ mkMove "R" false false false "x" 1 (-1) HALF_PI;
             mkMove "U" true false true "y" 1 1 HALF_PI ] true CubeModel.new).
  - repeat constructor; simpl; tauto.
  - repeat split.
Defined.

(** Four quarter turns, or two half turns, of the facelets. *)
Lemma turn_order fs m :
  grid6x9 fs → In (face m) FACES →
  (fs1 ← turn m fs; fs2 ← turn m fs1;
   if double m then Some fs2 else fs3 ← turn m fs2; turn m fs3) = Some fs.
Proof.
  intros Hg Hf. open_grid fs Hg.
  destruct m as [fc p dd w ax la di an]; simpl in Hf.
  known_face Hf; destruct p, dd, w; vm_compute; reflexivity.
Qed.

(** X10.  A move has the order of its turn: on a 6x9 grid, a quarter turn
    (plain or prime, wide or not) applied four times and a half turn applied
    twice give back the model. *)
Theorem applyMove_order (m : Move) (cm : CubeModel) :
  grid6x9 (faces cm) → In (face m) FACES →
  CubeModel.applyMoves (replicate (if double m then 2 else 4) m) false cm = Some cm.
Proof.
  intros Hg Hf. pose proof (turn_order _ _ Hg Hf) as H.
  destruct cm as [fs h]. simpl in *.
  destruct (double m); simpl; rewrite !applyMove_turn; simpl;
    destruct (turn m fs) as [fs1|]; simpl in *; try discriminate H;
    rewrite !applyMove_turn; simpl;
    destruct (turn m fs1) as [fs2|]; simpl in *; try discriminate H.
  - now injection H as ->.
  - rewrite !applyMove_turn. simpl.
    destruct (turn m fs2) as [fs3|]; simpl in *; try discriminate H.
    rewrite !applyMove_turn. simpl. rewrite H. reflexivity.
Qed.

Lemma applyMove_order_witness :
  CubeModel.applyMoves
    (replicate (if double (mkMove "D" true false true "y" (-1) (-1) HALF_PI) then 2 else 4)
               (mkMove "D" true false true "y" (-1) (-1) HALF_PI))
    false (mkCubeModel (labelled sticker) []) = Some (mkCubeModel (labelled sticker) []).
Proof.
  apply (applyMove_order (mkMove "D" true false true "y" (-1) (-1) HALF_PI)
           (mkCubeModel (labelled sticker) [])).
  - repeat split.
  - simpl. tauto.
Defined.

Lemma turn_commute fs m1 m2 :
  grid6x9 fs → In (face m1) FACES → In (face m2) FACES →
  same_axis (face m1) (face m2) →
  ∃ fs', (fs1 ← turn m1 fs; turn m2 fs1) = Some fs' ∧
         (fs2 ← turn m2 fs; turn m1 fs2) = Some fs'.
Proof.
  intros Hg Hf1 Hf2 Hax. open_grid fs Hg.
  destruct m1 as [fc1 p1 d1 w1 ax1 la1 di1 an1], m2 as [fc2 p2 d2 w2 ax2 la2 di2 an2].
  simpl in Hf1, Hf2, Hax.
  known_face Hf1; known_face Hf2; try discriminate Hax; clear Hax;
    destruct p1, d1, w1, p2, d2, w2; eexists;
    (split; [vm_compute; reflexivity |]); vm_compute; reflexivity.
Qed.

(** X11.  Moves about the same axis commute: for two moves on the same face
    or on opposite faces (R and L, U and D, F and B), of any kind, wide or
    not, the grid does not depend on the order in which they are applied. *)
Theorem same_axis_moves_commute (m1 m2 : Move) (r : bool) (cm : CubeModel) :
  grid6x9 (faces cm) → In (face m1) FACES → In (face m2) FACES →
  same_axis (face m1) (face m2) →
  ∃ cm12 cm21,
    CubeModel.applyMoves [m1; m2] r cm = Some cm12 ∧
    CubeModel.applyMoves [m2; m1] r cm = Some cm21 ∧
    faces cm12 = faces cm21.
Proof.
  intros Hg Hf1 Hf2 Hax.
  destruct (turn_commute _ _ _ Hg Hf1 Hf2 Hax) as (fs' & H12 & H21).
  cbn [CubeModel.applyMoves]. rewrite !applyMove_turn.
  destruct (turn m1 (faces cm)) as [fs1|]; [| discriminate H12].
  destruct (turn m2 (faces cm)) as [fs2|]; [| discriminate H21].
  simpl in *. rewrite !applyMove_turn. simpl. rewrite H12, H21. simpl.
  eexists _, _. repeat split.
Qed.

Lemma same_axis_moves_commute_witness :
  ∃ cm12 cm21,
    CubeModel.applyMoves [ mkMove "R" false false true "x" 1 (-1) HALF_PI;
                           mkMove "L" true false true "x" (-1) (-1) HALF_PI ] false
      (mkCubeModel (labelled sticker) []) = Some cm12 ∧
    CubeModel.applyMoves [ mkMove "L" true false true "x" (-1) (-1) HALF_PI;
                           mkMove "R" false false true "x" 1 (-1) HALF_PI ] false
      (mkCubeModel (labelled sticker) []) = Some cm21 ∧
    faces cm12 = faces cm21.
Proof.
  apply (same_axis_moves_commute
           (mkMove "R" false false true "x" 1 (-1) HALF_PI)
           (mkMove "L" true false true "x" (-1) (-1) HALF_PI) false
           (mkCubeModel (labelled sticker) [])).
  - repeat split.
  - simpl. tauto.
  - simpl. tauto.
  - reflexivity.
Defined.

Lemma undo_recorded m cm :
  grid6x9 (faces cm) → In (face m) FACES →
  ∃ cm1, CubeModel.applyMove m true cm = Some cm1 ∧ grid6x9 (faces cm1) ∧
         CubeModel.undo cm1 = Some (cm, Some m).
Proof.
  intros Hg Hf.
  destruct (turn_ok _ _ Hg Hf) as (inv & fs1 & Hinv & _ & H1 & Hg1 & Hback).
  rewrite applyMove_turn, H1. simpl. eexists. split; [reflexivity |].
  split; [exact Hg1 |].
  unfold CubeModel.undo. simpl. rewrite reverse_snoc, Hinv. simpl.
  rewrite applyMove_turn. simpl. rewrite Hback. simpl.
  rewrite reverse_involutive. now destruct cm.
Qed.

(** Recorded moves are taken back one by one; the grid stays 6x9. *)
Lemma undo_times_recorded (ms : list Move) (cm : CubeModel) :
  Forall (λ m, In (face m) FACES) ms → grid6x9 (faces cm) →
  ∃ cm', CubeModel.applyMoves ms true cm = Some cm' ∧ grid6x9 (faces cm') ∧
         undo_times (length ms) cm' = Some (cm, reverse ms).
Proof.
  intros Hms. revert cm.
  induction ms as [|m ms IH] using rev_ind; intros cm Hg.
  - exists cm. split; [reflexivity |]. split; [exact Hg | reflexivity].
  - apply Forall_app in Hms as [Hms Hm]. apply Forall_cons in Hm as [Hm _].
    destruct (IH Hms cm Hg) as (cm1 & Hrun & Hg1 & Hundo).
    destruct (undo_recorded m cm1 Hg1 Hm) as (cm2 & Hap & Hg2 & Hu).
    exists cm2. rewrite applyMoves_app, Hrun. simpl. rewrite Hap.
    split; [reflexivity |]. split; [exact Hg2 |].
    rewrite length_app, Nat.add_1_r. cbn [undo_times]. rewrite Hu. simpl.
    rewrite Hundo. simpl. now rewrite reverse_snoc.
Qed.

(** X12.  [undo()] takes back recorded moves: after [applyMoves] has
    recorded a sequence on a 6x9 grid, as many calls of [undo()] as the
    sequence has moves restore the model, facelets and history, and return
    the moves last first. *)
Theorem undo_takes_back (ms : list Move) (cm : CubeModel) :
  Forall (λ m, In (face m) FACES) ms → grid6x9 (faces cm) →
  ∃ cm', CubeModel.applyMoves ms true cm = Some cm' ∧
         undo_times (length ms) cm' = Some (cm, reverse ms).
Proof.
  intros Hms Hg.
  destruct (undo_times_recorded ms cm Hms Hg) as (cm' & Hrun & _ & Hundo).
  exists cm'. split; [exact Hrun | exact Hundo].
Qed.

Lemma undo_takes_back_witness :
  ∃ cm', CubeModel.applyMoves
           [ mkMove "F" false true false "z" 1 (-1) PI;
             mkMove "B" true false true "z" (-1) (-1) HALF_PI ] true
           (mkCubeModel (labelled sticker) []) = Some cm' ∧
         undo_times (length [ mkMove "F" false true false "z" 1 (-1) PI;
                              mkMove "B" true false true "z" (-1) (-1) HALF_PI ]) cm' =
         Some (mkCubeModel (labelled sticker) [],
               reverse [ mkMove "F" false true false "z" 1 (-1) PI;
                         mkMove "B" true false true "z" (-1) (-1) HALF_PI ]).
Proof.
  apply (undo_takes_back
           [ mkMove "F" false true false "z" 1 (-1) PI;
             mkMove "B" true false true "z" (-1) (-1) HALF_PI ]
           (mkCubeModel (labelled sticker) [])).
  - repeat constructor; simpl; tauto.
  - repeat split.
Defined.

(** ** Moves are permutations of the facelets *)

Lemma pick_seq pre l :
  pick (pre ++ l) (seq (length pre) (length l)) = l.
Proof.
  revert pre. induction l as [|x l IH]; intros pre; [reflexivity |].
  simpl. f_equal.
  - rewrite app_nth2; [| lia]. now rewrite Nat.sub_diag.
  - specialize (IH (pre ++ [x])%list).
    rewrite length_app, Nat.add_1_r, <- app_assoc in IH. exact IH.
Qed.

Lemma pick_Permutation l p : p ≡ₚ seq 0 (length l) → pick l p ≡ₚ l.
Proof.
  intros Hp. unfold pick. rewrite Hp.
  pose proof (pick_seq [] l) as H. unfold pick in H. simpl in H. now rewrite H.
Qed.

Lemma Permutation_check `{EqDecision A} (p k : list A) :
  bool_decide (p ≡ₚ k) = true → p ≡ₚ k.
Proof. apply bool_decide_eq_true_1. Qed.

(** On a 6x9 grid the facelets after a move are those of [move_source],
    picked from the facelets before. *)
Lemma turn_picks fs m :
  grid6x9 fs → In (face m) FACES →
  ∃ fs', turn m fs = Some fs' ∧ move_source m ≡ₚ seq 0 54 ∧
         stickers fs' = pick (stickers fs) (move_source m).
Proof.
  intros Hg Hf. open_grid fs Hg.
  destruct m as [fc p dd w ax la di an]; simpl in Hf.
  known_face Hf; destruct p, dd, w; eexists;
    (split; [vm_compute; reflexivity |]);
    (split; [apply Permutation_check; vm_compute; reflexivity |]);
    vm_compute; reflexivity.
Qed.

(** X13.  A move permutes the 54 facelets: on a 6x9 grid [applyMove]
    creates and loses nothing, the facelets after it are a rearrangement of
    the facelets before it, so every colour keeps its number of facelets. *)
Theorem applyMove_permutes (m : Move) (r : bool) (cm : CubeModel) :
  grid6x9 (faces cm) → In (face m) FACES →
  ∃ cm', CubeModel.applyMove m r cm = Some cm' ∧
         stickers (faces cm') ≡ₚ stickers (faces cm).
Proof.
  intros Hg Hf. destruct (turn_picks _ _ Hg Hf) as (fs' & Hturn & Hp & Hpick).
  rewrite applyMove_turn, Hturn. eexists. split; [reflexivity |].
  simpl. rewrite Hpick. apply pick_Permutation.
  destruct Hg as (HU & HD & HF & HB & HR & HL).
  unfold stickers. rewrite !length_app, HU, HD, HF, HB, HR, HL. exact Hp.
Qed.

Lemma applyMove_permutes_witness :
  ∃ cm', CubeModel.applyMove (mkMove "B" false true true "z" (-1) 1 PI) true
           CubeModel.new = Some cm' ∧
         stickers (faces cm') ≡ₚ stickers (faces CubeModel.new).
Proof.
  apply (applyMove_permutes (mkMove "B" false true true "z" (-1) 1 PI) true CubeModel.new).
  - repeat split.
  - simpl. tauto.
Defined.

(** ** The renderer's stickers and the animation of a move *)

(** X14. The 54 stickers [_buildCubies] and [_createCubie] make are mapped
    by [updateColors] (through [_posToIndex]) onto the 54 slots of the
    model, each slot once. *)
Theorem stickers_cover_slots :
  ∃ slots, mapM (λ s, CubeRenderer.slot s.1 s.2) sites = Some slots
           ∧ slots ≡ₚ all_slots.
Proof.
  eexists. split; [vm_compute; reflexivity |].
  apply Permutation_check. vm_compute. reflexivity.
Qed.

Ltac each_site tac :=
  let s := eval vm_compute in sites in
  change sites with s;
  repeat (apply Forall_cons_2; [tac |]); apply Forall_nil_2.

Lemma site_check (s : Vec * Vec) : bool_decide (s ∈ sites) = true → s ∈ sites.
Proof. apply bool_decide_eq_true_1. Qed.

(** One turn of the model against its animation, sticker by sticker. *)
Lemma turn_sites fs fc p dd w m :
  grid6x9 fs → In fc FACES → Move_new fc p dd w = Some m →
  ∃ fs' m', turn m fs = Some fs' ∧ Move_inverse m = Some m' ∧ grid6x9 fs' ∧
    Forall (λ s, is_Some (shown fs s) ∧ animated m s ∈ sites ∧
                 (reversed m s = false → shown fs' (animated m s) = shown fs s) ∧
                 (reversed m s = true →
                  shown fs' (animated m s) = shown fs (animated m (animated m s))
                  ∧ shown fs' (animated m' s) = shown fs s)) sites.
Proof.
  intros Hg Hf Hm. open_grid fs Hg.
  known_face Hf; destruct p, dd, w; injection Hm as <-;
    eexists; eexists;
    (split; [vm_compute; reflexivity |]); (split; [vm_compute; reflexivity |]);
    (split; [repeat split |]).
  all: each_site ltac:(split; [eexists; vm_compute; reflexivity |];
                       split; [apply site_check; vm_compute; reflexivity |];
                       split; vm_compute;
                       first [discriminate | intros _; reflexivity
                             | intros _; split; reflexivity]).
Qed.

Lemma sideways_not_reversed m s : sideways m = true → reversed m s = false.
Proof.
  unfold sideways, reversed. destruct (double m); simpl.
  - intros _. now rewrite andb_false_r.
  - intros H. apply negb_true_iff in H. now rewrite H.
Qed.

(** X15. Turning the model agrees with the rotation the animator gives the
    gathered cubies, read through [_posToIndex]: where the animation takes a
    sticker, the turned model holds the value the model held at the
    sticker's place before; the outer stickers of the turned face in a
    quarter turn of [U] or [D] apart. *)
Theorem animation_agrees_with_model (fs : Faces) (m : Move) :
  grid6x9 fs → In (face m) FACES →
  Move_new (face m) (prime m) (double m) (wide m) = Some m →
  ∃ fs', turn m fs = Some fs' ∧
    Forall (λ s, is_Some (shown fs s) ∧
                 (reversed m s = false →
                  shown fs' (animated m s) = shown fs s)) sites.
Proof.
  intros Hg Hf Hm.
  destruct (turn_sites fs _ _ _ _ m Hg Hf Hm) as (fs' & m' & Ht & _ & _ & Hall).
  exists fs'. split; [assumption |].
  eapply Forall_impl; [exact Hall |]. intros s (? & _ & ? & _). auto.
Qed.

Lemma animation_agrees_with_model_witness :
  ∃ fs', turn (mkMove "R" true false true "x" 1 1 HALF_PI) (labelled sticker)
         = Some fs' ∧
    Forall (λ s, is_Some (shown (labelled sticker) s) ∧
                 (reversed (mkMove "R" true false true "x" 1 1 HALF_PI) s = false →
                  shown fs' (animated (mkMove "R" true false true "x" 1 1 HALF_PI) s)
                  = shown (labelled sticker) s)) sites.
Proof.
  apply (animation_agrees_with_model (labelled sticker)
           (mkMove "R" true false true "x" 1 1 HALF_PI)).
  - vm_compute. repeat split.
  - vm_compute. tauto.
  - vm_compute. reflexivity.
Defined.

(** X16. In a quarter turn of [U] or [D] the model turns the outer stickers
    of the turned face the other way round: it holds at the place the
    animation takes such a sticker the value from the place opposite, and
    agrees with the animation of the inverse move instead. *)
Theorem up_down_face_turns_backwards (fs : Faces) (m : Move) :
  grid6x9 fs → In (face m) FACES →
  Move_new (face m) (prime m) (double m) (wide m) = Some m →
  ∃ fs' m', turn m fs = Some fs' ∧ Move_inverse m = Some m' ∧
    Forall (λ s, reversed m s = true →
                 shown fs' (animated m s) = shown fs (animated m (animated m s))
                 ∧ shown fs' (animated m' s) = shown fs s) sites.
Proof.
  intros Hg Hf Hm.
  destruct (turn_sites fs _ _ _ _ m Hg Hf Hm) as (fs' & m' & Ht & Hi & _ & Hall).
  exists fs', m'. split; [assumption |]. split; [assumption |].
  eapply Forall_impl; [exact Hall |]. intros s (_ & _ & _ & ?). auto.
Qed.

Lemma up_down_face_turns_backwards_witness :
  ∃ fs' m', turn (mkMove "U" false false false "y" 1 (-1) HALF_PI) (labelled sticker)
            = Some fs'
    ∧ Move_inverse (mkMove "U" false false false "y" 1 (-1) HALF_PI) = Some m'
    ∧ Forall (λ s, reversed (mkMove "U" false false false "y" 1 (-1) HALF_PI) s = true →
        shown fs' (animated (mkMove "U" false false false "y" 1 (-1) HALF_PI) s)
        = shown (labelled sticker)
            (animated (mkMove "U" false false false "y" 1 (-1) HALF_PI)
               (animated (mkMove "U" false false false "y" 1 (-1) HALF_PI) s))
        ∧ shown fs' (animated m' s) = shown (labelled sticker) s) sites.
Proof.
  apply (up_down_face_turns_backwards (labelled sticker)
           (mkMove "U" false false false "y" 1 (-1) HALF_PI)).
  - vm_compute. repeat split.
  - vm_compute. tauto.
  - vm_compute. reflexivity.
Defined.

(** X17. Over a sequence of parsed moves none of which is a quarter turn of
    [U] or [D], [applyMoves] does not throw and the model follows the
    animations: every sticker's value is found, in the final model, at the
    place the animations have taken the sticker. *)
Theorem animations_agree_with_model (ms : list Move) (cm : CubeModel) :
  grid6x9 (faces cm) → Forall parser_move ms →
  Forall (λ m, sideways m = true) ms →
  ∃ cm', CubeModel.applyMoves ms false cm = Some cm' ∧
    ∀ s, s ∈ sites →
      animated_all ms s ∈ sites ∧
      shown (faces cm') (animated_all ms s) = shown (faces cm) s.
Proof.
  intros Hg Hall. revert cm Hg.
  induction Hall as [|m ms Hm _ IH]; intros cm Hg Hs.
  - exists cm. split; [reflexivity |]. intros s Hin. split; [exact Hin | reflexivity].
  - apply Forall_cons_1 in Hs as [Hsm Hs].
    destruct Hm as (f & p & d & w & Hf & _ & Hnew).
    destruct (turn_sites (faces cm) f p d w m Hg Hf Hnew)
      as (fs' & m' & Ht & _ & Hg' & Hsites).
    destruct (IH (mkCubeModel fs' (history cm)) Hg' Hs) as (cm' & Happ & Hagree).
    exists cm'. split.
    + simpl. rewrite applyMove_turn, Ht. simpl. exact Happ.
    + intros s Hin. rewrite Forall_forall in Hsites.
      destruct (Hsites s Hin) as (_ & Hin' & Hkeep & _).
      destruct (Hagree _ Hin') as [Hin'' Heq].
      split; [exact Hin'' |].
      simpl in *. rewrite Heq. apply Hkeep. now apply sideways_not_reversed.
Qed.

Lemma animations_agree_with_model_witness :
  ∃ cm', CubeModel.applyMoves
           [mkMove "R" false false false "x" 1 (-1) HALF_PI;
            mkMove "F" false true true "z" 1 (-1) PI] false
           (mkCubeModel (labelled sticker) []) = Some cm' ∧
    ∀ s, s ∈ sites →
      animated_all [mkMove "R" false false false "x" 1 (-1) HALF_PI;
                    mkMove "F" false true true "z" 1 (-1) PI] s ∈ sites ∧
      shown (faces cm')
        (animated_all [mkMove "R" false false false "x" 1 (-1) HALF_PI;
                       mkMove "F" false true true "z" 1 (-1) PI] s)
      = shown (labelled sticker) s.
Proof.
  apply (animations_agree_with_model
           [mkMove "R" false false false "x" 1 (-1) HALF_PI;
            mkMove "F" false true true "z" 1 (-1) PI]
           (mkCubeModel (labelled sticker) [])).
  - vm_compute. repeat split.
  - repeat constructor.
    + exists "R", false, false, false. vm_compute. tauto.
    + exists "F", false, true, true. vm_compute. tauto.
  - repeat constructor.
Defined.

(** ** The animator's queue *)

Lemma animator_step_backlog now e s :
  coherent s → is_Clear (now, e) = false →
  let (s', r) := animator_step now e s in
  coherent s' ∧
  ((match r with Some r => [r] | None => [] end) ++ backlog s')%list
  = (backlog s ++ asked [(now, e)])%list.
Proof.
  destruct s as [[ia q cr d] [cb|]]; unfold coherent; simpl; intros Hc He.
  - subst ia. destruct e as [m k | |]; [| discriminate He |];
      unfold backlog, in_flight; simpl.
    + split; [reflexivity |]. now rewrite ?app_nil_r.
    + unfold CubeAnimator.animate.
      destruct (negb (Qle_bool 1 _)); simpl.
      * split; [reflexivity |]. now rewrite ?app_nil_r.
      * destruct q as [|[nm nk] rest]; simpl.
        -- split; [split; reflexivity |]. reflexivity.
        -- split; [reflexivity |]. now rewrite ?app_nil_r.
  - destruct Hc as [-> ->]. destruct e as [m k | |]; [| discriminate He |]; simpl.
    + split; reflexivity.
    + split; [split; reflexivity | reflexivity].
Qed.

Lemma animator_run_backlog evs : ∀ s,
  coherent s → forallb (λ e, negb (is_Clear e)) evs = true →
  coherent (animator_run evs s).1 ∧
  ((animator_run evs s).2 ++ backlog (animator_run evs s).1)%list
  = (backlog s ++ asked evs)%list.
Proof.
  induction evs as [|[now e] evs IH]; intros s Hc Hn.
  - simpl. split; [exact Hc | now rewrite app_nil_r].
  - simpl in Hn. apply andb_true_iff in Hn as [He Hn]. apply negb_true_iff in He.
    pose proof (animator_step_backlog now e s Hc He) as Hstep.
    cbn [animator_run]. destruct (animator_step now e s) as [s1 r].
    destruct Hstep as [Hc1 H1].
    destruct (IH s1 Hc1 Hn) as [Hc2 H2].
    destruct (animator_run evs s1) as [s2 rs]. simpl in *.
    split; [exact Hc2 |].
    rewrite <- app_assoc, H2, app_assoc, H1.
    rewrite <- app_assoc. f_equal. simpl. now rewrite ?app_nil_r.
Qed.

(** X18. The animator serves requests in the order they are made and loses
    none: in any run of requests and frames, at any times and at any speed,
    the promises resolved so far followed by the animation in flight and the
    queue are the requests pending at the start followed by those made in
    the run.  [isAnimating] keeps telling whether a frame is pending. *)
Theorem animator_serves_in_order (evs : list (Q * AnimatorEvent)) (s : Stage) :
  coherent s → forallb (λ e, negb (is_Clear e)) evs = true →
  coherent (animator_run evs s).1 ∧
  ((animator_run evs s).2 ++ backlog (animator_run evs s).1)%list
  = (backlog s ++ asked evs)%list.
Proof. apply animator_run_backlog. Qed.

Lemma animator_serves_in_order_witness :
  coherent (animator_run
              [ (0%Q, Ask (mkMove "R" false false false "x" 1 (-1) HALF_PI) K_play);
                (10%Q, Ask (mkMove "U" false false false "y" 1 (-1) HALF_PI) K_stepForward);
                (300%Q, Frame);
                (310%Q, Ask (mkMove "F" false false false "z" 1 (-1) HALF_PI) K_stepBackward);
                (600%Q, Frame) ]
              (CubeAnimator.new, None)).1 ∧
  ((animator_run
      [ (0%Q, Ask (mkMove "R" false false false "x" 1 (-1) HALF_PI) K_play);
        (10%Q, Ask (mkMove "U" false false false "y" 1 (-1) HALF_PI) K_stepForward);
        (300%Q, Frame);
        (310%Q, Ask (mkMove "F" false false false "z" 1 (-1) HALF_PI) K_stepBackward);
        (600%Q, Frame) ]
      (CubeAnimator.new, None)).2
   ++ backlog (animator_run
      [ (0%Q, Ask (mkMove "R" false false false "x" 1 (-1) HALF_PI) K_play);
        (10%Q, Ask (mkMove "U" false false false "y" 1 (-1) HALF_PI) K_stepForward);
        (300%Q, Frame);
        (310%Q, Ask (mkMove "F" false false false "z" 1 (-1) HALF_PI) K_stepBackward);
        (600%Q, Frame) ]
      (CubeAnimator.new, None)).1)%list
  = (backlog (CubeAnimator.new, None) ++
     asked [ (0%Q, Ask (mkMove "R" false false false "x" 1 (-1) HALF_PI) K_play);
             (10%Q, Ask (mkMove "U" false false false "y" 1 (-1) HALF_PI) K_stepForward);
             (300%Q, Frame);
             (310%Q, Ask (mkMove "F" false false false "z" 1 (-1) HALF_PI) K_stepBackward);
             (600%Q, Frame) ])%list.
Proof.
  apply (animator_serves_in_order
           [ (0%Q, Ask (mkMove "R" false false false "x" 1 (-1) HALF_PI) K_play);
             (10%Q, Ask (mkMove "U" false false false "y" 1 (-1) HALF_PI) K_stepForward);
             (300%Q, Frame);
             (310%Q, Ask (mkMove "F" false false false "z" 1 (-1) HALF_PI) K_stepBackward);
             (600%Q, Frame) ]
           (CubeAnimator.new, None)).
  - split; reflexivity.
  - reflexivity.
Defined.

(** X19. [clearQueue()] drops the requests waiting behind the animation in
    flight without resolving their promises: in any later run of requests
    and frames only the animation in flight and the requests made after the
    call are resolved or still pending, so whoever awaits a dropped request
    waits for ever. *)
Theorem clearQueue_drops_requests (evs : list (Q * AnimatorEvent)) (now : Q) (s : Stage) :
  coherent s → forallb (λ e, negb (is_Clear e)) evs = true →
  ((animator_run ((now, Clear) :: evs) s).2
   ++ backlog (animator_run ((now, Clear) :: evs) s).1)%list
  = (in_flight s ++ asked evs)%list.
Proof.
  intros Hc Hn. cbn [animator_run animator_step].
  assert (Hc' : coherent (CubeAnimator.clearQueue s.1, s.2)).
  { destruct s as [[ia q cr d] [cb|]]; unfold coherent in *; simpl in *;
      [exact Hc | destruct Hc; split; [assumption | reflexivity]]. }
  destruct (animator_run_backlog evs _ Hc' Hn) as [_ H].
  destruct (animator_run evs _) as [s2 rs]. simpl in *. rewrite H.
  unfold backlog, in_flight. simpl. now rewrite ?app_nil_r.
Qed.

Lemma clearQueue_drops_requests_witness :
  ((animator_run
      ((20%Q, Clear) :: [ (400%Q, Frame) ])
      (animator_run
         [ (0%Q, Ask (mkMove "R" false false false "x" 1 (-1) HALF_PI) K_play);
           (10%Q, Ask (mkMove "U" false false false "y" 1 (-1) HALF_PI) K_stepForward) ]
         (CubeAnimator.new, None)).1).2
   ++ backlog (animator_run
      ((20%Q, Clear) :: [ (400%Q, Frame) ])
      (animator_run
         [ (0%Q, Ask (mkMove "R" false false false "x" 1 (-1) HALF_PI) K_play);
           (10%Q, Ask (mkMove "U" false false false "y" 1 (-1) HALF_PI) K_stepForward) ]
         (CubeAnimator.new, None)).1).1)%list
  = (in_flight (animator_run
         [ (0%Q, Ask (mkMove "R" false false false "x" 1 (-1) HALF_PI) K_play);
           (10%Q, Ask (mkMove "U" false false false "y" 1 (-1) HALF_PI) K_stepForward) ]
         (CubeAnimator.new, None)).1
     ++ asked [ (400%Q, Frame) ])%list.
Proof.
  apply (clearQueue_drops_requests [ (400%Q, Frame) ] 20%Q
           (animator_run
              [ (0%Q, Ask (mkMove "R" false false false "x" 1 (-1) HALF_PI) K_play);
                (10%Q, Ask (mkMove "U" false false false "y" 1 (-1) HALF_PI) K_stepForward) ]
              (CubeAnimator.new, None)).1).
  - vm_compute. reflexivity.
  - reflexivity.
Defined.

(** ** Loading, resetting and pausing *)

Section Rewinding.

#[local] Arguments CubeModel.applyMove : simpl never.
#[local] Arguments CubeModel.applyMoves : simpl never.
#[local] Arguments MoveParser.parse : simpl never.
#[local] Arguments Move_inverse : simpl never.
#[local] Arguments expected : simpl never.
#[local] Arguments Qle_bool : simpl never.
#[local] Arguments CubeAnimator.progress : simpl never.

Local Ltac goal_fields :=
  unfold on_ctl, set_model, set_animator, set_algorithm, set_currentStep,
    set_isPlaying, set_playAbort, set_callbacks, CubeAnimator.clearQueue,
    CubeAnimator.setSpeed, animating, cursor, grid;
  simpl.

Lemma setup_ok sm ms :
  Forall parser_move sm →
  ∃ fs, expected sm ms 0 = Some (mkCubeModel fs []) ∧ grid6x9 fs.
Proof.
  intros Hsm. unfold expected. rewrite take_0, app_nil_r.
  apply (applyMoves_ok _ CubeModel.new solved_grid Hsm).
Qed.

Lemma reset_model_result cm a ms sm cs ip pa os op r lg :
  Forall parser_move sm →
  ∃ fs, expected sm ms 0 = Some (mkCubeModel fs []) ∧ grid6x9 fs ∧
    CubeController.reset_model
      (mkWorld (mkCubeController cm a ms sm cs ip pa os op) r lg)
    = Some (mkWorld (mkCubeController (mkCubeModel fs []) a ms sm cs ip pa os op) r lg).
Proof.
  intros Hsm. destruct (setup_ok sm ms Hsm) as (fs & He & Hg).
  exists fs. split; [exact He |]. split; [exact Hg |].
  unfold CubeController.reset_model. simpl.
  unfold CubeModel.reset. rewrite (setup_expected sm ms), He. reflexivity.
Qed.

Lemma reset_result w :
  Forall parser_move (setupMoves (ctl w)) →
  ∃ fs, expected (setupMoves (ctl w)) (moves (ctl w)) 0 = Some (mkCubeModel fs []) ∧
    grid6x9 fs ∧
    CubeController.reset w
    = Some (rewound (moves (ctl w)) (setupMoves (ctl w)) (mkCubeModel fs []) w).
Proof.
  intros Hsm. open_world w. simpl in Hsm.
  destruct (setup_ok sm ms Hsm) as (gs & He & Hg).
  exists gs. split; [exact He |]. split; [exact Hg |].
  unfold CubeController.reset, CubeController.pause, CubeController.clearQueue,
    CubeController._notifyPlayState, rewound. goal_fields.
  destruct op; goal_fields;
    (edestruct reset_model_result as (fs' & He' & _ & ->); [exact Hsm |];
     rewrite He in He'; injection He' as <-;
     unfold CubeController._notifyStep; simpl;
     destruct os; simpl; rewrite <- ?app_assoc, ?app_nil_r; reflexivity).
Qed.

Lemma setup_parse setup :
  (if String.eqb setup "" then Some [] else MoveParser.parse setup)
  = MoveParser.parse setup.
Proof.
  destruct (String.eqb setup "") eqn:He; [| reflexivity].
  apply String.eqb_eq in He. now subst.
Qed.

Lemma loadAlgorithm_result algorithm setup w :
  ∃ ms sm fs,
    MoveParser.parse algorithm = Some ms ∧ MoveParser.parse setup = Some sm ∧
    Forall parser_move ms ∧ Forall parser_move sm ∧
    expected sm ms 0 = Some (mkCubeModel fs []) ∧ grid6x9 fs ∧
    CubeController.loadAlgorithm algorithm setup w
    = Some (rewound ms sm (mkCubeModel fs []) w).
Proof.
  destruct (parse_total algorithm) as (ms' & Hms & Hall).
  destruct (parse_total setup) as (sm' & Hsm & Halls).
  destruct (setup_ok sm' ms' Halls) as (gs & He & Hg).
  exists ms', sm', gs. repeat (split; [assumption |]).
  unfold CubeController.loadAlgorithm. cbv zeta. rewrite setup_parse, Hms, Hsm.
  cbn [mbind option_bind].
  open_world w.
  edestruct (reset_model_result (mkCubeModel fs h)
               (mkCubeAnimator ia [] cr d) ms' sm' 0 false true os op r
               (lg ++ notified op (PlayStateChange false))%list)
    as (fs' & He' & _ & Hreset); [exact Halls |].
  rewrite He in He'. injection He' as <-.
  transitivity
    (w' ← CubeController.reset_model
            (mkWorld (mkCubeController (mkCubeModel fs h) (mkCubeAnimator ia [] cr d)
                        ms' sm' 0 false true os op) r
                     (lg ++ notified op (PlayStateChange false))%list);
     Some (CubeController._notifyStep w')).
  - destruct op; [reflexivity |]. simpl notified. rewrite app_nil_r. reflexivity.
  - rewrite Hreset. cbn [mbind option_bind]. unfold rewound, CubeController._notifyStep.
    destruct os; simpl; rewrite <- ?app_assoc, ?app_nil_r; reflexivity.
Qed.

End Rewinding.

(** X20. [loadAlgorithm] never throws, whatever the two texts and whatever
    the controller is doing: it stops playback, empties the animator's
    queue, stores the parsed algorithm and setup, puts the cursor at 0 and
    the model in the state the setup moves give from solved, with an empty
    history; it tells the play-state observer [false] and then the step
    observer [0] of the number of moves.  An animation in flight is not
    touched: its frame callback stays pending and [isAnimating] stays as it
    was. *)
Theorem loadAlgorithm_rewinds (algorithm setup : string) (w : World) :
  ∃ w' ms sm,
    CubeController.loadAlgorithm algorithm setup w = Some w' ∧
    MoveParser.parse algorithm = Some ms ∧ MoveParser.parse setup = Some sm ∧
    moves (ctl w') = ms ∧ setupMoves (ctl w') = sm ∧
    cursor w' = 0%nat ∧ isPlaying (ctl w') = false ∧
    _queue (animator (ctl w')) = [] ∧
    grid_at 0 w' ∧ grid6x9 (grid w') ∧ history (model (ctl w')) = [] ∧
    raf w' = raf w ∧ animating w' = animating w ∧
    log w' = (log w ++ notified (onPlayStateChange (ctl w)) (PlayStateChange false)
                    ++ notified (onStepChange (ctl w)) (StepChange 0 (length ms)))%list.
Proof.
  destruct (loadAlgorithm_result algorithm setup w)
    as (ms & sm & fs & Hms & Hsm & _ & _ & He & Hg & Hrun).
  exists (rewound ms sm (mkCubeModel fs []) w), ms, sm.
  split; [exact Hrun |]. split; [exact Hms |]. split; [exact Hsm |].
  unfold grid_at, grid, cursor, animating, rewound. simpl.
  rewrite He. repeat (split; [reflexivity |]).
  split; [exact Hg |]. repeat split.
Qed.

(** X21. [reset] with a setup the parser built never throws either: it
    stops playback, empties the queue, puts the cursor at 0 and the model in
    the setup state, keeps the algorithm, and notifies as [loadAlgorithm]
    does; an animation in flight is not touched. *)
Theorem reset_rewinds (w : World) :
  Forall parser_move (setupMoves (ctl w)) →
  ∃ w',
    CubeController.reset w = Some w' ∧
    moves (ctl w') = moves (ctl w) ∧ setupMoves (ctl w') = setupMoves (ctl w) ∧
    cursor w' = 0%nat ∧ isPlaying (ctl w') = false ∧
    _queue (animator (ctl w')) = [] ∧
    grid_at 0 w' ∧ grid6x9 (grid w') ∧ history (model (ctl w')) = [] ∧
    raf w' = raf w ∧ animating w' = animating w ∧
    log w' = (log w ++ notified (onPlayStateChange (ctl w)) (PlayStateChange false)
                    ++ notified (onStepChange (ctl w))
                         (StepChange 0 (length (moves (ctl w)))))%list.
Proof.
  intros Hsm. destruct (reset_result w Hsm) as (fs & He & Hg & Hrun).
  eexists. split; [exact Hrun |].
  unfold grid_at, grid, cursor, animating, rewound. simpl.
  rewrite He. repeat (split; [reflexivity |]).
  split; [exact Hg |]. repeat split.
Qed.

Lemma reset_rewinds_witness :
  ∃ w',
    CubeController.reset midway_world = Some w' ∧
    moves (ctl w') = moves (ctl midway_world) ∧
    setupMoves (ctl w') = setupMoves (ctl midway_world) ∧
    cursor w' = 0%nat ∧ isPlaying (ctl w') = false ∧
    _queue (animator (ctl w')) = [] ∧
    grid_at 0 w' ∧ grid6x9 (grid w') ∧ history (model (ctl w')) = [] ∧
    raf w' = raf midway_world ∧ animating w' = animating midway_world ∧
    log w' = (log midway_world
              ++ notified (onPlayStateChange (ctl midway_world)) (PlayStateChange false)
              ++ notified (onStepChange (ctl midway_world))
                   (StepChange 0 (length (moves (ctl midway_world)))))%list.
Proof.
  apply (reset_rewinds midway_world).
  destruct (parse_total "F2 d") as (sm & Hparse & Hsm).
  vm_compute in Hparse. injection Hparse as <-. exact Hsm.
Defined.

(** X22. In a run that keeps the discipline no operation throws and, after
    every event, the cursor is within the algorithm, the animator's queue is
    empty - the controller never has a second animation wait behind the one
    in flight - a frame callback is pending exactly while [isAnimating] is
    set, the grid is 6x9 and the loaded moves are ones the parser builds. *)
Theorem disciplined_run_stays_in_bounds (evs : list (Q * Event)) :
  disciplined evs CubeController.new = true →
  ∃ w, run evs CubeController.new = Some w ∧
    (cursor w ≤ length (moves (ctl w)))%nat ∧
    _queue (animator (ctl w)) = [] ∧
    (animating w = true ↔ is_Some (raf w)) ∧
    grid6x9 (grid w) ∧
    Forall parser_move (moves (ctl w)) ∧ Forall parser_move (setupMoves (ctl w)).
Proof.
  intros Hd. destruct (Inv_run evs _ Inv_new Hd) as (w & Hrun & HI).
  exists w. split; [exact Hrun |].
  destruct HI as (Hms & Hsm & Hle & Hq & H).
  split; [exact Hle |]. split; [exact Hq |].
  unfold animating, grid.
  destruct (raf w) as [cb|].
  - destruct H as [Hia H]. split; [split; [eauto | intros _; exact Hia] |].
    split; [| split; assumption].
    destruct (anim_resolve cb);
      [destruct H as [_ H] | destruct H as [_ H] |];
      apply (expected_grid _ _ _ _ Hsm Hms H).
  - destruct H as [Hia H]. split.
    + rewrite Hia. split; [discriminate | intros [? [=]]].
    + split; [| split; assumption]. apply (expected_grid _ _ _ _ Hsm Hms H).
Qed.

Lemma disciplined_run_stays_in_bounds_witness :
  ∃ w, run [ (0%Q, Call_loadAlgorithm "R U R' U'" "F2 d");
             (10%Q, Call_play); (100%Q, AnimationFrame); (320%Q, AnimationFrame);
             (330%Q, Call_stepForward); (400%Q, Call_pause);
             (700%Q, AnimationFrame); (710%Q, Call_stepBackward) ]
           CubeController.new = Some w ∧
    (cursor w ≤ length (moves (ctl w)))%nat ∧
    _queue (animator (ctl w)) = [] ∧
    (animating w = true ↔ is_Some (raf w)) ∧
    grid6x9 (grid w) ∧
    Forall parser_move (moves (ctl w)) ∧ Forall parser_move (setupMoves (ctl w)).
Proof.
  apply (disciplined_run_stays_in_bounds
           [ (0%Q, Call_loadAlgorithm "R U R' U'" "F2 d");
             (10%Q, Call_play); (100%Q, AnimationFrame); (320%Q, AnimationFrame);
             (330%Q, Call_stepForward); (400%Q, Call_pause);
             (700%Q, AnimationFrame); (710%Q, Call_stepBackward) ]).
  vm_compute. reflexivity.
Defined.

(** ** Interrupted playback *)

Section Interrupting.

#[local] Arguments CubeModel.applyMove : simpl never.
#[local] Arguments CubeModel.applyMoves : simpl never.
#[local] Arguments MoveParser.parse : simpl never.
#[local] Arguments Move_inverse : simpl never.
#[local] Arguments expected : simpl never.
#[local] Arguments Qle_bool : simpl never.
#[local] Arguments CubeAnimator.progress : simpl never.

Local Ltac goal_fields :=
  unfold on_ctl, set_model, set_animator, set_algorithm, set_currentStep,
    set_isPlaying, set_playAbort, set_callbacks, CubeAnimator.clearQueue,
    CubeAnimator.setSpeed, animating, cursor, grid;
  simpl.

(** The loop of [play] is left once [pause] has set the abort flag. *)
Lemma play_loop_aborted now w :
  _playAbort (ctl w) = true →
  CubeController.play_loop now w
  = Some (CubeController._notifyPlayState (on_ctl (set_isPlaying false) w)).
Proof.
  intros H. unfold CubeController.play_loop. rewrite H.
  cbn [negb]. now rewrite andb_false_r.
Qed.

(** X23. [pause()] during playback lets the step in flight finish: the
    cursor stays behind until the animation ends, then advances by one and
    the loop of [play] is left.  The model is not touched again, and the
    observers are told [false] twice, once by [pause] and once by [play],
    with the step in between. *)
Theorem pause_lets_step_finish (w0 w : World) (k : nat) (cb : Animation) (t now : Q) :
  playing_at w0 k w → raf w = Some cb →
  (0 < duration (animator (ctl w0)))%Q →
  (duration (animator (ctl w0)) <= now - startTime cb)%Q →
  ∃ w1 w2,
    step t Call_pause w = Some w1 ∧
    isPlaying (ctl w1) = false ∧ animating w1 = true ∧ cursor w1 = k ∧
    step now AnimationFrame w1 = Some w2 ∧
    cursor w2 = S k ∧ isPlaying (ctl w2) = false ∧
    animating w2 = false ∧ raf w2 = None ∧
    model (ctl w2) = model (ctl w) ∧
    log w2 = (log w ++ [ PlayStateChange false;
                         StepChange (S k) (length (moves (ctl w0)));
                         PlayStateChange false ])%list.
Proof.
  intros (cb' & cm & Hk & Hg & Hlt & ->) [= <-] Hd Hdue.
  eexists. eexists. split; [reflexivity |].
  split; [reflexivity |]. split; [reflexivity |]. split; [reflexivity |].
  split.
  - simpl step. rewrite (frame_ends now _ cb'); [| reflexivity | reflexivity | exact Hd | exact Hdue].
    simpl anim_resolve. rewrite Hk. clear Hd Hdue Hg.
    unfold CubeController.resume. rewrite play_loop_aborted by reflexivity.
    reflexivity.
  - clear. unfold cursor, animating. simpl.
    rewrite Nat.add_1_r, <- !app_assoc. repeat split.
Qed.

(** X24. [loadAlgorithm] called while a step of [play] is being animated
    does not stop that animation: it does not throw, and when the
    animation ends the loop of [play] still counts its step, on the new
    algorithm.  The cursor is then 1 and the step observer is told so,
    though the model is in the setup state of the new algorithm, none of
    whose moves has been applied - whatever the new algorithm is, also an
    empty one. *)
Theorem loadAlgorithm_in_flight_moves_cursor
    (w0 w : World) (k : nat) (cb : Animation) (algorithm setup : string) (t now : Q) :
  playing_at w0 k w → raf w = Some cb →
  (0 < duration (animator (ctl w0)))%Q →
  (duration (animator (ctl w0)) <= now - startTime cb)%Q →
  ∃ w1 w2 ms,
    step t (Call_loadAlgorithm algorithm setup) w = Some w1 ∧
    MoveParser.parse algorithm = Some ms ∧ moves (ctl w1) = ms ∧
    cursor w1 = 0%nat ∧ grid_at 0 w1 ∧ animating w1 = true ∧
    step now AnimationFrame w1 = Some w2 ∧
    moves (ctl w2) = ms ∧ cursor w2 = 1%nat ∧ grid_at 0 w2 ∧
    animating w2 = false ∧ isPlaying (ctl w2) = false ∧
    log w2 = (log w1 ++ [ StepChange 1 (length ms); PlayStateChange false ])%list.
Proof.
  intros (cb' & cm & Hk & Hg & Hlt & ->) [= <-] Hd Hdue.
  match goal with |- context [step t _ ?w] => set (wp := w) end.
  destruct (loadAlgorithm_result algorithm setup wp)
    as (ms & sm & fs & Hms & Hsm & _ & _ & He & _ & Hrun).
  exists (rewound ms sm (mkCubeModel fs []) wp). eexists. exists ms.
  split; [exact Hrun |]. split; [exact Hms |]. split; [reflexivity |].
  split; [reflexivity |].
  split; [unfold grid_at, grid; simpl; rewrite He; reflexivity |].
  split; [reflexivity |].
  split.
  - simpl step.
    rewrite (frame_ends now _ cb'); [| reflexivity | reflexivity | exact Hd | exact Hdue].
    simpl anim_resolve. rewrite Hk.
    unfold CubeController.resume. rewrite play_loop_aborted by reflexivity.
    reflexivity.
  - clear Hd Hdue Hg Hrun. unfold grid_at, grid, cursor, animating. simpl.
    rewrite He, <- !app_assoc. repeat split.
Qed.

End Interrupting.

Lemma pause_lets_step_finish_witness :
  ∃ w1 w2,
    step 50%Q Call_pause playing_world = Some w1 ∧
    isPlaying (ctl w1) = false ∧ animating w1 = true ∧ cursor w1 = 0%nat ∧
    step 400%Q AnimationFrame w1 = Some w2 ∧
    cursor w2 = 1%nat ∧ isPlaying (ctl w2) = false ∧
    animating w2 = false ∧ raf w2 = None ∧
    model (ctl w2) = model (ctl playing_world) ∧
    log w2 = (log playing_world
              ++ [ PlayStateChange false;
                   StepChange 1 (length (moves (ctl loaded_world)));
                   PlayStateChange false ])%list.
Proof.
  apply (pause_lets_step_finish loaded_world playing_world 0
           (mkAnimation (mkMove "R" false false false "x" 1 (-1) HALF_PI) K_play 10%Q)
           50%Q 400%Q).
  - exists (mkAnimation (mkMove "R" false false false "x" 1 (-1) HALF_PI) K_play 10%Q),
      (model (ctl playing_world)).
    split; [reflexivity |]. split; [vm_compute; repeat split |].
    split; [vm_compute; lia | reflexivity].
  - reflexivity.
  - reflexivity.
  - unfold Qle. simpl. lia.
Defined.


Lemma loadAlgorithm_in_flight_moves_cursor_witness :
  ∃ w1 w2 ms,
    step 50%Q (Call_loadAlgorithm "" "F") playing_world = Some w1 ∧
    MoveParser.parse "" = Some ms ∧ moves (ctl w1) = ms ∧
    cursor w1 = 0%nat ∧ grid_at 0 w1 ∧ animating w1 = true ∧
    step 400%Q AnimationFrame w1 = Some w2 ∧
    moves (ctl w2) = ms ∧ cursor w2 = 1%nat ∧ grid_at 0 w2 ∧
    animating w2 = false ∧ isPlaying (ctl w2) = false ∧
    log w2 = (log w1 ++ [ StepChange 1 (length ms); PlayStateChange false ])%list.
Proof.
  apply (loadAlgorithm_in_flight_moves_cursor loaded_world playing_world 0
           (mkAnimation (mkMove "R" false false false "x" 1 (-1) HALF_PI) K_play 10%Q)
           "" "F" 50%Q 400%Q).
  - exists (mkAnimation (mkMove "R" false false false "x" 1 (-1) HALF_PI) K_play 10%Q),
      (model (ctl playing_world)).
    split; [reflexivity |]. split; [vm_compute; repeat split |].
    split; [vm_compute; lia | reflexivity].
  - reflexivity.
  - reflexivity.
  - unfold Qle. simpl. lia.
Defined.

(** ** A step back and forth *)

(** X25. From an idle controller with the cursor at k, 0 < k <= length of
    the algorithm, [stepBackward()] awaited and then [stepForward()] awaited
    restore the exact facelet grid and leave [currentStep] at k, the cursor
    being at k - 1 in between.  With a positive duration, frames that come
    when the animation is due end it. *)
Theorem stepBackward_then_stepForward (w : World) (t1 t2 : Q) :
  idle w → grid6x9 (grid w) → Forall parser_move (moves (ctl w)) →
  (0 < cursor w ≤ length (moves (ctl w)))%nat →
  ((0 < duration (animator (ctl w)))%Q →
   ∃ ts1 ts2 w1 w2,
     run ((t1, Call_stepBackward) :: frames ts1) w = Some w1 ∧ animating w1 = false ∧
     run ((t2, Call_stepForward) :: frames ts2) w1 = Some w2 ∧ animating w2 = false) ∧
  (∀ ts1 ts2, ∃ w1,
     run ((t1, Call_stepBackward) :: frames ts1) w = Some w1 ∧
     (animating w1 = false →
        S (cursor w1) = cursor w ∧
        ∃ w2, run ((t2, Call_stepForward) :: frames ts2) w1 = Some w2 ∧
          (animating w2 = false → grid w2 = grid w ∧ cursor w2 = cursor w))).
Proof.
  intros Hidle Hg Hms [Hpos Hle].
  pose proof (idle_settled w Hidle) as H0.
  destruct (cursor w) as [|k] eqn:Hc; [lia |].
  assert (Hlt : (k < length (moves (ctl w)))%nat) by lia.
  destruct (lookup_lt_is_Some_2 _ _ Hlt) as [m Hm].
  assert (Hpm : parser_move m) by (eapply Forall_lookup_1; eassumption).
  destruct (inverse_twice m Hpm) as (inv & Hinv & Hpi & Hmm).
  destruct (applyMove_ok inv (model (ctl w)) Hg Hpi) as (m' & fs' & Hinv' & Hap & _ & Hback).
  rewrite Hmm in Hinv'. injection Hinv' as <-.
  set (cm' := mkCubeModel fs' (history (model (ctl w)))) in *.
  assert (Hf : K_stepForward ≠ K_play) by discriminate.
  assert (Hb : K_stepBackward ≠ K_play) by discriminate.
  destruct (stepBackward_starts t1 w w _ _ m inv cm' H0 Hm Hinv Hap) as (wa & Ha & Hsa).
  split.
  - intros Hd. destruct (step_finishes _ _ _ _ _ Hb Hd Hsa) as (ta & w1 & Hrun1 & Hs1).
    destruct (stepForward_starts t2 w w1 _ _ m _ Hs1 Hm Hback) as (wb & Hb' & Hsb).
    destruct (step_finishes _ _ _ _ _ Hf Hd Hsb) as (tb & w2 & Hrun2 & Hs2).
    exists [ta], [tb], w1, w2.
    change (run ((t1, Call_stepBackward) :: frames [ta]) w)
      with (w' ← CubeController.stepBackward t1 w; run (frames [ta]) w').
    change (run ((t2, Call_stepForward) :: frames [tb]) w1)
      with (w' ← CubeController.stepForward t2 w1; run (frames [tb]) w').
    rewrite Ha, Hb'. simpl mbind.
    split; [exact Hrun1 |]. split; [apply (settled_fields _ _ _ _ Hs1) |].
    split; [exact Hrun2 | apply (settled_fields _ _ _ _ Hs2)].
  - intros ts1 ts2.
    destruct (step_frames ts1 _ _ _ _ wa Hb (or_introl Hsa)) as (w1 & Hrun1 & H1).
    exists w1.
    change (run ((t1, Call_stepBackward) :: frames ts1) w)
      with (w' ← CubeController.stepBackward t1 w; run (frames ts1) w').
    rewrite Ha. simpl mbind. split; [exact Hrun1 |].
    intros Han1. destruct H1 as [H1 | Hs1];
      [rewrite (stepping_animating _ _ _ _ _ H1) in Han1; discriminate |].
    split; [f_equal; apply (settled_fields _ _ _ _ Hs1) |].
    destruct (stepForward_starts t2 w w1 _ _ m _ Hs1 Hm Hback) as (wb & Hb' & Hsb).
    destruct (step_frames ts2 _ _ _ _ wb Hf (or_introl Hsb)) as (w2 & Hrun2 & H2).
    exists w2.
    change (run ((t2, Call_stepForward) :: frames ts2) w1)
      with (w' ← CubeController.stepForward t2 w1; run (frames ts2) w').
    rewrite Hb'. simpl mbind. split; [exact Hrun2 |].
    intros Han2. destruct H2 as [H2 | Hs2];
      [rewrite (stepping_animating _ _ _ _ _ H2) in Han2; discriminate |].
    destruct (settled_fields _ _ _ _ Hs2) as (_ & Hgrid & Hcur).
    split; assumption.
Qed.

Lemma stepBackward_then_stepForward_witness :
  (∃ ts1 ts2 w1 w2,
     run ((700%Q, Call_stepBackward) :: frames ts1) midway_world = Some w1 ∧
     animating w1 = false ∧
     run ((1200%Q, Call_stepForward) :: frames ts2) w1 = Some w2 ∧
     animating w2 = false) ∧
  (∀ ts1 ts2, ∃ w1,
     run ((700%Q, Call_stepBackward) :: frames ts1) midway_world = Some w1 ∧
     (animating w1 = false →
        S (cursor w1) = cursor midway_world ∧
        ∃ w2, run ((1200%Q, Call_stepForward) :: frames ts2) w1 = Some w2 ∧
          (animating w2 = false →
             grid w2 = grid midway_world ∧ cursor w2 = cursor midway_world))).
Proof.
  destruct (stepBackward_then_stepForward midway_world 700%Q 1200%Q) as [Hends Hall].
  - repeat split.
  - repeat split.
  - destruct (parse_total "R U R' U'") as (ms & Hparse & Hms).
    vm_compute in Hparse. injection Hparse as <-. exact Hms.
  - vm_compute. lia.
  - split; [apply Hends; reflexivity | exact Hall].
Defined.

(** ** Marking and unmarking *)

Section Marking.

Variable JSON_parse : string → option jsval.
Variable JSON_stringify : jsval → string.
Variable builtin_truthy : jsval → string → bool.
Variable builtin_assign builtin_delete : jsval → string → option jsval.
Variable fits : string → bool.

#[local] Arguments includes : simpl never.

#[local] Abbreviation _getAll := (ProgressTracker._getAll JSON_parse).
#[local] Abbreviation isCompleted :=
  (ProgressTracker.isCompleted JSON_parse builtin_truthy).
#[local] Abbreviation setCompleted :=
  (ProgressWriter.setCompleted JSON_parse JSON_stringify
     builtin_assign builtin_delete fits).

(** What is read back after a write of a plain object that the storage
    took and that [JSON.parse] reads as it was written. *)
Lemma getAll_saved props (localStorage : gmap string string) :
  JSON_parse (JSON_stringify (JObj props)) = Some (JObj props) →
  _getAll (<[STORAGE_KEY := JSON_stringify (JObj props)]> localStorage) = JObj props.
Proof.
  intros Hrt. unfold ProgressTracker._getAll, ProgressTracker.parse_item.
  now rewrite lookup_insert_eq, Hrt.
Qed.

(** X26. Marking: when the stored data is a plain object (or nothing that
    parses is stored), the storage takes the new text and [JSON.parse]
    reads the written object back as it is, [setCompleted(id, true)] does
    not throw, [isCompleted(id)] is true afterwards, every other
    identifier is completed exactly if it was before, and no other key of
    the storage is touched. *)
Theorem setCompleted_marks (id : string) (props : gmap string jsval)
    (localStorage : gmap string string) :
  _getAll localStorage = JObj props →
  (∀ data, ProgressWriter.assign_true builtin_assign (JObj props) id = Some data →
     fits (JSON_stringify data) = true ∧
     JSON_parse (JSON_stringify data) = Some data) →
  ∃ localStorage',
    setCompleted id true localStorage = Some localStorage' ∧
    isCompleted id localStorage' = true ∧
    (∀ id', id' ≠ id → isCompleted id' localStorage' = isCompleted id' localStorage) ∧
    (∀ key, key ≠ STORAGE_KEY → localStorage' !! key = localStorage !! key).
Proof.
  intros Hdata Hhost.
  unfold ProgressWriter.setCompleted, ProgressTracker.isCompleted.
  rewrite Hdata.
  destruct (Hhost _ eq_refl) as [Hfits Hrt].
  unfold ProgressWriter.assign_true in *.
  cbn [mbind option_bind]. unfold ProgressWriter._saveAll. rewrite Hfits.
  eexists. split; [reflexivity |]. rewrite (getAll_saved _ _ Hrt).
  split; [| split; [| intros key Hk; now rewrite lookup_insert_ne]].
  - simpl. destruct (props !! id) as [v|] eqn:Hid;
      [now rewrite lookup_insert_eq |].
    destruct (String.eqb id "__proto__") eqn:Hp; [| now rewrite lookup_insert_eq].
    apply String.eqb_eq in Hp. subst id. now rewrite Hid.
  - intros id' Hne. simpl. destruct (props !! id) as [v|] eqn:Hid;
      [now rewrite lookup_insert_ne |].
    destruct (String.eqb id "__proto__"); [reflexivity | now rewrite lookup_insert_ne].
Qed.

(** X27. Unmarking: under the same conditions [setCompleted(id, false)]
    does not throw and removes the own property only: afterwards
    [isCompleted(id)] is true exactly if [id] names a property inherited
    from [Object.prototype]; every other identifier is completed exactly
    if it was before. *)
Theorem setCompleted_unmarks (id : string) (props : gmap string jsval)
    (localStorage : gmap string string) :
  _getAll localStorage = JObj props →
  fits (JSON_stringify (JObj (delete id props))) = true →
  JSON_parse (JSON_stringify (JObj (delete id props)))
  = Some (JObj (delete id props)) →
  ∃ localStorage',
    setCompleted id false localStorage = Some localStorage' ∧
    isCompleted id localStorage' = includes Object_prototype id ∧
    (∀ id', id' ≠ id → isCompleted id' localStorage' = isCompleted id' localStorage) ∧
    (∀ key, key ≠ STORAGE_KEY → localStorage' !! key = localStorage !! key).
Proof.
  intros Hdata Hfits Hrt.
  unfold ProgressWriter.setCompleted, ProgressTracker.isCompleted.
  rewrite Hdata. unfold ProgressWriter.delete_property.
  cbn [mbind option_bind]. unfold ProgressWriter._saveAll. rewrite Hfits.
  eexists. split; [reflexivity |]. rewrite (getAll_saved _ _ Hrt).
  split; [| split].
  - simpl. now rewrite lookup_delete_eq.
  - intros id' Hne. simpl. now rewrite lookup_delete_ne.
  - intros key Hk. now rewrite lookup_insert_ne.
Qed.

End Marking.

Lemma setCompleted_marks_witness :
  ∃ localStorage',
    ProgressWriter.setCompleted
      (λ _, Some (JObj (<["oll-1" := JBool true]> ∅))) (λ _, "saved")
      (λ _ _, None) (λ _ _, None) (λ _, true) "oll-1" true ∅ = Some localStorage' ∧
    ProgressTracker.isCompleted
      (λ _, Some (JObj (<["oll-1" := JBool true]> ∅))) (λ _ _, false)
      "oll-1" localStorage' = true ∧
    (∀ id', id' ≠ "oll-1" →
       ProgressTracker.isCompleted
         (λ _, Some (JObj (<["oll-1" := JBool true]> ∅))) (λ _ _, false) id' localStorage'
       = ProgressTracker.isCompleted
           (λ _, Some (JObj (<["oll-1" := JBool true]> ∅))) (λ _ _, false) id' ∅) ∧
    (∀ key, key ≠ STORAGE_KEY → localStorage' !! key = (∅ : gmap string string) !! key).
Proof.
  apply (setCompleted_marks
           (λ _, Some (JObj (<["oll-1" := JBool true]> ∅))) (λ _, "saved")
           (λ _ _, false) (λ _ _, None) (λ _ _, None) (λ _, true) "oll-1" ∅ ∅).
  - reflexivity.
  - intros data [= <-]. split; reflexivity.
Defined.

Lemma setCompleted_unmarks_witness :
  ∃ localStorage',
    ProgressWriter.setCompleted
      (λ _, Some (JObj (delete "toString" ∅))) (λ _, "saved")
      (λ _ _, None) (λ _ _, None) (λ _, true) "toString" false ∅ = Some localStorage' ∧
    ProgressTracker.isCompleted
      (λ _, Some (JObj (delete "toString" ∅))) (λ _ _, false)
      "toString" localStorage' = includes Object_prototype "toString" ∧
    (∀ id', id' ≠ "toString" →
       ProgressTracker.isCompleted
         (λ _, Some (JObj (delete "toString" ∅))) (λ _ _, false) id' localStorage'
       = ProgressTracker.isCompleted
           (λ _, Some (JObj (delete "toString" ∅))) (λ _ _, false) id' ∅) ∧
    (∀ key, key ≠ STORAGE_KEY → localStorage' !! key = (∅ : gmap string string) !! key).
Proof.
  apply (setCompleted_unmarks
           (λ _, Some (JObj (delete "toString" ∅))) (λ _, "saved")
           (λ _ _, false) (λ _ _, None) (λ _ _, None) (λ _, true) "toString" ∅ ∅);
    reflexivity.
Defined.
